(** * RosterManager: the roll-call engine of [src/system.cpp]

    A shallow embedding of the class [RosterManager] (students, sampling
    pools, call history, bulk import) and of the menu entry that adds a
    student, followed by the properties of the specification that concern
    them.

    Conventions of the embedding:
    - [std::vector<Student>], [std::deque<std::size_t>] and
      [std::list<CallRecord>] are lists; [std::size_t] indices and counters
      are [nat] (they count elements of a container or lines of an input, so
      they stay far below [2^64]);
    - [int callCount] is a [Z]; incrementing [INT_MAX] is undefined in C++ and
      is reported as the fault [SignedOverflow];
    - [std::unordered_map<std::string, std::deque<std::size_t>>] is a
      [gmap string (list nat)]; [operator[]] inserts an empty deque for a
      missing key, and the model does so too;
    - [std::mt19937] together with [std::shuffle] is the interface
      [Shuffler]: a generator state and a function that permutes a list;
    - [std::chrono::system_clock::now()] is an argument of the operation that
      reads the clock;
    - a file that cannot be opened is [None], an open one is the list of the
      lines [std::getline] returns. *)

From Stdlib Require Import ZArith List String Ascii Bool Permutation Sorted Lia.
From stdpp Require Import gmap strings list fin_maps.

Import ListNotations.
Local Open Scope string_scope.
Local Open Scope list_scope.
Local Open Scope nat_scope.

(** ** Data model *)

Record Student := mkStudent {
  name : string;
  group : string;
  callCount : Z
}.

Record CallRecord := mkCallRecord {
  cr_name : string;
  cr_group : string;
  timestamp : Z
}.

Record ImportStats := mkImportStats {
  added : nat;
  duplicates : nat;
  malformed : nat
}.

(** [std::shuffle(first, last, rng_)]: reorders the range and advances the
    generator. The C++ standard promises a permutation of the input. *)
Class Shuffler (Rng : Type) := {
  shuffle : list nat -> Rng -> list nat * Rng;
  shuffle_permutes : forall l g, Permutation (fst (shuffle l g)) l
}.

(** What an operation with undefined behaviour ran into. *)
Inductive fault :=
| EmptyFront        (* front() of an empty deque *)
| OutOfRange        (* students_[idx] with idx >= size() *)
| SignedOverflow.   (* ++callCount at INT_MAX *)

Inductive outcome (A : Type) :=
| Done (a : A)
| Undefined (f : fault).

Arguments Done {A} a.
Arguments Undefined {A} f.

Definition INT_MAX : Z := 2147483647.

(** ** Strings: [trim] and the pieces of [std::string] it uses *)

(** Membership in the set [" \t\r\n"]. *)
Definition is_blank (c : ascii) : bool :=
  (Ascii.eqb c " " || Ascii.eqb c "009" || Ascii.eqb c "013" || Ascii.eqb c "010")%bool.

(** [text.find_first_not_of(" \t\r\n")], [None] for [npos]. *)
Fixpoint find_first_not_of (text : string) : option nat :=
  match text with
  | EmptyString => None
  | String c rest =>
      if is_blank c then option_map S (find_first_not_of rest) else Some 0
  end.

(** [text.find_last_not_of(" \t\r\n")], [None] for [npos]. *)
Fixpoint find_last_not_of (text : string) : option nat :=
  match text with
  | EmptyString => None
  | String c rest =>
      match find_last_not_of rest with
      | Some i => Some (S i)
      | None => if is_blank c then None else Some 0
      end
  end.

(** [text.substr(pos, count)] for [pos <= size()]: at most [count] characters. *)
Definition substr (pos count : nat) (text : string) : string :=
  String.substring pos count text.

(** [text.substr(pos)]: the rest of the string from [pos]. *)
Definition substr_from (pos : nat) (text : string) : string :=
  String.substring pos (String.length text - pos) text.

Definition trim (text : string) : string :=
  match find_first_not_of text with
  | None => EmptyString
  | Some first =>
      match find_last_not_of text with
      | Some last => substr first (last - first + 1) text
      | None => EmptyString (* not reached: a first such character has a last *)
      end
  end.

(** [text.empty()] *)
Definition is_empty (text : string) : bool :=
  match text with EmptyString => true | _ => false end.

(** [text.front() == c] on a non-empty string. *)
Definition front_is (c : ascii) (text : string) : bool :=
  match text with EmptyString => false | String d _ => Ascii.eqb d c end.

(** [text.find(',')], [None] for [npos]. *)
Definition find_comma (text : string) : option nat := String.index 0 "," text.

(** ** The class [RosterManager] *)

Section Roster.

Context {Rng : Type} `{Shuffler Rng}.

Record RosterManager := mkRoster {
  students_ : list Student;
  groupPools_ : gmap string (list nat);
  globalPool_ : list nat;
  history_ : list CallRecord;
  rng_ : Rng
}.

(** The constructor: empty containers, a generator seeded from outside. *)
Definition init (seed : Rng) : RosterManager :=
  mkRoster [] ∅ [] [] seed.

Definition resetCycle (s : RosterManager) : RosterManager :=
  mkRoster (students_ s) ∅ [] (history_ s) (rng_ s).

Definition clearHistory (s : RosterManager) : RosterManager :=
  mkRoster (students_ s) (groupPools_ s) (globalPool_ s) [] (rng_ s).

Definition addStudent (n g : string) (refreshPools : bool) (s : RosterManager)
  : bool * RosterManager :=
  match List.find (fun st => String.eqb (name st) n) (students_ s) with
  | Some _ => (false, s)
  | None =>
      let s1 := mkRoster (students_ s ++ [mkStudent n g 0])
                         (groupPools_ s) (globalPool_ s) (history_ s) (rng_ s) in
      (true, if refreshPools then resetCycle s1 else s1)
  end.

Definition bump_malformed (st : ImportStats) : ImportStats :=
  mkImportStats (added st) (duplicates st) (S (malformed st)).
Definition bump_added (st : ImportStats) : ImportStats :=
  mkImportStats (S (added st)) (duplicates st) (malformed st).
Definition bump_duplicates (st : ImportStats) : ImportStats :=
  mkImportStats (added st) (S (duplicates st)) (malformed st).

(** The [while (std::getline(input, line))] loop; [input] holds the lines
    still to be read. *)
Fixpoint loadFromStream (input : list string) (stats : ImportStats)
    (s : RosterManager) : ImportStats * RosterManager :=
  match input with
  | [] => (stats, s)
  | line :: rest =>
      let trimmed := trim line in
      if (is_empty trimmed || front_is "#" trimmed)%bool then
        loadFromStream rest stats s
      else
        match find_comma trimmed with
        | None => loadFromStream rest (bump_malformed stats) s
        | Some comma =>
            let n := trim (substr 0 comma trimmed) in
            let g := trim (substr_from (comma + 1) trimmed) in
            if (is_empty n || is_empty g)%bool then
              loadFromStream rest (bump_malformed stats) s
            else
              let '(ok, s1) := addStudent n g false s in
              if ok then loadFromStream rest (bump_added stats) s1
              else loadFromStream rest (bump_duplicates stats) s1
        end
  end.

(** [file] is what opening [path] gave: [None] when [is_open()] is false. *)
Definition importFromFile (file : option (list string)) (s : RosterManager)
  : option ImportStats * RosterManager :=
  match file with
  | None => (None, s)
  | Some input =>
      let '(stats, s1) := loadFromStream input (mkImportStats 0 0 0) s in
      (Some stats, resetCycle s1)
  end.

(** *** The pool engine *)

(** A [std::deque<std::size_t>&]: the global pool or the pool of a group. *)
Inductive pool_ref :=
| GlobalPool
| GroupPool (g : string).

Definition deref (r : pool_ref) (s : RosterManager) : list nat :=
  match r with
  | GlobalPool => globalPool_ s
  | GroupPool g => default [] (groupPools_ s !! g)
  end.

Definition assign (r : pool_ref) (p : list nat) (s : RosterManager) : RosterManager :=
  match r with
  | GlobalPool =>
      mkRoster (students_ s) (groupPools_ s) p (history_ s) (rng_ s)
  | GroupPool g =>
      mkRoster (students_ s) (<[g := p]> (groupPools_ s)) (globalPool_ s)
               (history_ s) (rng_ s)
  end.

(** Evaluating [groupPools_[g]]: a missing key gets an empty deque. *)
Definition subscript (g : string) (s : RosterManager) : RosterManager :=
  match groupPools_ s !! g with
  | Some _ => s
  | None => assign (GroupPool g) [] s
  end.

Definition is_nil {A : Type} (l : list A) : bool :=
  match l with [] => true | _ => false end.

Definition consumeIndex (now : Z) (pool : pool_ref) (s : RosterManager)
  : outcome (Student * RosterManager) :=
  match deref pool s with
  | [] => Undefined EmptyFront
  | idx :: rest =>
      let s1 := assign pool rest s in
      match students_ s1 !! idx with
      | None => Undefined OutOfRange
      | Some st =>
          if (callCount st <? INT_MAX)%Z then
            let student := mkStudent (name st) (group st) (callCount st + 1) in
            Done (student,
                  mkRoster (<[idx := student]> (students_ s1)) (groupPools_ s1)
                           (globalPool_ s1)
                           (history_ s1 ++ [mkCallRecord (name student) (group student) now])
                           (rng_ s1))
          else Undefined SignedOverflow
      end
  end.

Definition refillGlobalPool (s : RosterManager) : RosterManager :=
  let indices := seq 0 (length (students_ s)) in
  let '(shuffled, g) := shuffle indices (rng_ s) in
  mkRoster (students_ s) (groupPools_ s) shuffled (history_ s) g.

(** The loop of [refillGroupPool]: the positions, counted from [i], of the
    students whose group is [g]. *)
Fixpoint group_indices (g : string) (i : nat) (l : list Student) : list nat :=
  match l with
  | [] => []
  | st :: rest =>
      if String.eqb (group st) g then i :: group_indices g (S i) rest
      else group_indices g (S i) rest
  end.

Definition refillGroupPool (g : string) (s : RosterManager) : RosterManager :=
  let indices := group_indices g 0 (students_ s) in
  if is_nil indices then
    mkRoster (students_ s) (delete g (groupPools_ s)) (globalPool_ s)
             (history_ s) (rng_ s)
  else
    let '(shuffled, r) := shuffle indices (rng_ s) in
    mkRoster (students_ s) (<[g := shuffled]> (groupPools_ s)) (globalPool_ s)
             (history_ s) r.

(** The tail of [pickRandom] once the pool has been looked at and, when it
    was empty, refilled. *)
Definition draw (now : Z) (pool : pool_ref) (s : RosterManager)
  : outcome (option Student * RosterManager) :=
  if is_nil (deref pool s) then Done (None, s)
  else
    match consumeIndex now pool s with
    | Done (st, s1) => Done (Some st, s1)
    | Undefined f => Undefined f
    end.

Definition pickRandom (now : Z) (grp : option string) (s : RosterManager)
  : outcome (option Student * RosterManager) :=
  if is_nil (students_ s) then Done (None, s)
  else
    match grp with
    | Some g =>
        let s1 := subscript g s in
        let s2 := if is_nil (deref (GroupPool g) s1) then refillGroupPool g s1 else s1 in
        draw now (GroupPool g) (subscript g s2)
    | None =>
        let s1 := if is_nil (globalPool_ s) then refillGlobalPool s else s in
        draw now GlobalPool s1
    end.

(** *** History *)

(** What [printHistory] writes, one constructor per line. The rendering of
    a record's time stamp is left to the console layer. *)
Inductive history_line :=
| NoHistoryYet
| RecordLine (r : CallRecord).

(** The [for] loop over [history_.rbegin() .. rend()]; [it] is what is left
    of the reversed list, [count] the lines written so far. *)
Fixpoint printHistory_loop (limit count : nat) (it : list CallRecord)
  : list history_line :=
  match it with
  | [] => []
  | r :: rest =>
      let count1 := S count in
      RecordLine r ::
        (if (negb (limit =? 0) && (limit <=? count1))%bool then []
         else printHistory_loop limit count1 rest)
  end.

Definition printHistory (limit : nat) (s : RosterManager) : list history_line :=
  if is_nil (history_ s) then [NoHistoryYet]
  else printHistory_loop limit 0 (rev (history_ s)).

(** The records among the lines written. *)
Fixpoint printed_records (out : list history_line) : list CallRecord :=
  match out with
  | [] => []
  | NoHistoryYet :: rest => printed_records rest
  | RecordLine r :: rest => r :: printed_records rest
  end.

(** *** The menu entry "1. Add student" of [main] *)

Definition main_add_student (n g : string) (s : RosterManager)
  : string * RosterManager :=
  if (is_empty n || is_empty g)%bool then
    ("Name and group cannot be empty.", s)
  else
    let '(ok, s1) := addStudent n g true s in
    if ok then ("Student added.", s1) else ("Student already exists.", s1).

(** *** Runs of the public operations *)

Inductive op :=
| AddStudent (n g : string) (refreshPools : bool)
| ImportFromFile (file : option (list string))
| PickRandom (now : Z) (grp : option string)
| ResetCycle
| ClearHistory.

Definition step (o : op) (s : RosterManager) : outcome RosterManager :=
  match o with
  | AddStudent n g refreshPools => Done (snd (addStudent n g refreshPools s))
  | ImportFromFile file => Done (snd (importFromFile file s))
  | PickRandom now grp =>
      match pickRandom now grp s with
      | Done (_, s1) => Done s1
      | Undefined f => Undefined f
      end
  | ResetCycle => Done (resetCycle s)
  | ClearHistory => Done (clearHistory s)
  end.

Fixpoint run (ops : list op) (s : RosterManager) : outcome RosterManager :=
  match ops with
  | [] => Done s
  | o :: rest =>
      match step o s with
      | Done s1 => run rest s1
      | Undefined f => Undefined f
      end
  end.

(** The states a client can bring a freshly constructed manager to. *)
Definition reachable (s : RosterManager) : Prop :=
  exists seed ops, run ops (init seed) = Done s.

(** A run that keeps what its draws returned: the scope asked for and the
    student handed out, in order. *)
Fixpoint run_returns (ops : list op) (s : RosterManager)
  : outcome (list (option string * Student) * RosterManager) :=
  match ops with
  | [] => Done ([], s)
  | PickRandom now grp :: rest =>
      match pickRandom now grp s with
      | Undefined f => Undefined f
      | Done (x, s1) =>
          match run_returns rest s1 with
          | Undefined f => Undefined f
          | Done (tr, s2) =>
              Done (match x with Some st => (grp, st) :: tr | None => tr end, s2)
          end
      end
  | o :: rest =>
      match step o s with
      | Undefined f => Undefined f
      | Done s1 => run_returns rest s1
      end
  end.

Definition total_callCount (l : list Student) : Z :=
  fold_right (fun st acc => (callCount st + acc)%Z) 0%Z l.

(** *** Statistics and groups *)

(** The comparator of [printStats]: more calls first, and among equal
    counts the smaller name first ([std::string]'s [operator<]). *)
Definition stats_before (lhs rhs : Student) : bool :=
  if (callCount lhs =? callCount rhs)%Z then String.ltb (name lhs) (name rhs)
  else (callCount rhs <? callCount lhs)%Z.

(** [std::sort] with that comparator, as a sort by insertion. On a store
    without two equal names the comparator is a strict total order, so every
    sorting algorithm gives this result ([printStats_order] below). *)
Fixpoint stats_insert (x : Student) (l : list Student) : list Student :=
  match l with
  | [] => [x]
  | y :: rest =>
      if stats_before x y then x :: y :: rest else y :: stats_insert x rest
  end.

Fixpoint stats_sort (l : list Student) : list Student :=
  match l with
  | [] => []
  | x :: rest => stats_insert x (stats_sort rest)
  end.

(** What [printStats] writes, one constructor per line; the column widths
    are left to the console layer. *)
Inductive stats_line :=
| NoStudentData
| StatsHeader
| StatsRow (st : Student).

Definition printStats (s : RosterManager) : list stats_line :=
  if is_nil (students_ s) then [NoStudentData]
  else StatsHeader :: map StatsRow (stats_sort (students_ s)).

(** [++counts[g]] on the [std::unordered_map<std::string, int>] of
    [listGroups]. *)
Definition count_group (g : string) (counts : gmap string Z)
  : outcome (gmap string Z) :=
  let c := default 0%Z (counts !! g) in
  if (c <? INT_MAX)%Z then Done (<[g := (c + 1)%Z]> counts)
  else Undefined SignedOverflow.

Fixpoint count_groups (l : list Student) (counts : gmap string Z)
  : outcome (gmap string Z) :=
  match l with
  | [] => Done counts
  | st :: rest =>
      match count_group (group st) counts with
      | Done counts1 => count_groups rest counts1
      | Undefined f => Undefined f
      end
  end.

(** What [listGroups] writes: the notice, or the heading followed by one
    line per entry of the map, in the map's iteration order, which the
    standard leaves open; the model keeps the map. *)
Inductive groups_output :=
| NoGroupData
| Groups (counts : gmap string Z).

Definition listGroups (s : RosterManager) : outcome groups_output :=
  if is_nil (students_ s) then Done NoGroupData
  else
    match count_groups (students_ s) ∅ with
    | Done counts => Done (Groups counts)
    | Undefined f => Undefined f
    end.

(** *** The menu loop of [main] *)

(** What one pass of the loop reads after the option: the lines of its
    [std::getline] calls, the number of [std::cin >> limit], the clock, and
    what opening the path it was given yields. *)
Record console_in := mkConsoleIn {
  first_line : string;
  second_line : string;
  number : nat;
  clock : Z;
  opened : option (list string)
}.

(** What [main] writes: a fixed text, or a text with the data it prints. *)
Inductive console_out :=
| ShowMenu
| Say (text : string)
| SaySelected (st : Student)
| SayLoaded (stats : ImportStats)
| SayImported (stats : ImportStats)
| SayHistory (lines : list history_line)
| SayStats (lines : list stats_line)
| SayGroups (out : groups_output).

(** The [switch] of [main], options other than 0. *)
Definition main_switch (option : Z) (inp : console_in) (s : RosterManager)
  : outcome (list console_out * RosterManager) :=
  if (option =? 1)%Z then
    let '(msg, s1) := main_add_student (first_line inp) (second_line inp) s in
    Done ([Say msg], s1)
  else if (option =? 2)%Z then
    match pickRandom (clock inp) None s with
    | Undefined f => Undefined f
    | Done (Some st, s1) => Done ([SaySelected st], s1)
    | Done (None, s1) => Done ([Say "No students available."], s1)
    end
  else if (option =? 3)%Z then
    if is_empty (first_line inp) then Done ([Say "Group name cannot be empty."], s)
    else
      match pickRandom (clock inp) (Some (first_line inp)) s with
      | Undefined f => Undefined f
      | Done (Some st, s1) => Done ([SaySelected st], s1)
      | Done (None, s1) => Done ([Say "Group empty or all called."], s1)
      end
  else if (option =? 4)%Z then Done ([SayHistory (printHistory (number inp) s)], s)
  else if (option =? 5)%Z then Done ([SayStats (printStats s)], s)
  else if (option =? 6)%Z then
    match listGroups s with
    | Undefined f => Undefined f
    | Done out => Done ([SayGroups out], s)
    end
  else if (option =? 7)%Z then Done ([Say "Cycle reset."], resetCycle s)
  else if (option =? 8)%Z then Done ([Say "History cleared."], clearHistory s)
  else if (option =? 9)%Z then
    if is_empty (first_line inp) then Done ([Say "Path cannot be empty."], s)
    else
      match importFromFile (opened inp) s with
      | (None, s1) => Done ([Say "Failed to open file."], s1)
      | (Some stats, s1) => Done ([SayImported stats], s1)
      end
  else Done ([Say "Unknown option."], s).

(** The [while (running)] loop over the passes observed: [None] is a pass
    whose [std::cin >> option] failed. Option 0 ends the loop; a list that
    runs out before it is an interaction still going on. *)
Fixpoint main_loop (passes : list (option Z * console_in)) (s : RosterManager)
  : outcome (list console_out * RosterManager) :=
  match passes with
  | [] => Done ([], s)
  | (None, _) :: rest =>
      match main_loop rest s with
      | Undefined f => Undefined f
      | Done (out, s1) => Done (ShowMenu :: Say "Invalid input, try again." :: out, s1)
      end
  | (Some option, inp) :: rest =>
      if (option =? 0)%Z then Done ([ShowMenu; Say "Goodbye!"], s)
      else
        match main_switch option inp s with
        | Undefined f => Undefined f
        | Done (out1, s1) =>
            match main_loop rest s1 with
            | Undefined f => Undefined f
            | Done (out, s2) => Done (ShowMenu :: out1 ++ out, s2)
            end
        end
  end.

(** [main]: [roster] is what opening "roster.csv" yields. *)
Definition main (seed : Rng) (roster : option (list string))
    (passes : list (option Z * console_in))
  : outcome (list console_out * RosterManager) :=
  let '(loaded, s0) := importFromFile roster (init seed) in
  let greeting :=
    match loaded with
    | Some stats => SayLoaded stats
    | None => Say "No default roster found. Use option 9 to import manually."
    end in
  match main_loop passes s0 with
  | Undefined f => Undefined f
  | Done (out, s1) => Done (greeting :: out, s1)
  end.

End Roster.

Arguments RosterManager Rng : clear implicits.

(** ** Vocabulary of the properties *)

Section Vocabulary.

Context {Rng : Type} `{Shuffler Rng}.

Implicit Types (s : RosterManager Rng) (l : list Student).

(** The student [consumeIndex] writes back and returns: the same entity,
    called once more. *)
Definition bump (st : Student) : Student :=
  mkStudent (name st) (group st) (callCount st + 1).

(** A field as the bulk loader hands it to [addStudent]: the result of
    [trim], and not empty. *)
Definition loaded_field (text : string) : Prop :=
  is_empty text = false /\ exists raw, text = trim raw.

(** A pool over a store of [size] students: no handle twice, every handle in
    range. *)
Definition pool_ok (size : nat) (p : list nat) : Prop :=
  NoDup p /\ Forall (fun i => i < size) p.

Definition pools_ok s : Prop :=
  pool_ok (length (students_ s)) (globalPool_ s) /\
  forall g p, groupPools_ s !! g = Some p -> pool_ok (length (students_ s)) p.

(** A scope is [None] for all students or [Some g] for the group [g], as the
    argument of [pickRandom]; [scope_ref] is the pool a scope draws from. *)
Definition scope_ref (grp : option string) : pool_ref :=
  match grp with
  | Some g => GroupPool g
  | None => GlobalPool
  end.

Definition scope_eqb (a b : option string) : bool :=
  match a, b with
  | Some x, Some y => String.eqb x y
  | None, None => true
  | _, _ => false
  end.

Definition in_scope (grp : option string) (st : Student) : Prop :=
  match grp with
  | Some g => group st = g
  | None => True
  end.

(** The handles of the students in a scope, in store order: what the two
    refill functions collect before shuffling. *)
Definition members (grp : option string) l : list nat :=
  match grp with
  | Some g => group_indices g 0 l
  | None => seq 0 (length l)
  end.

(** The identities of the students in a scope, in store order. *)
Definition scope_names (grp : option string) l : list string :=
  match grp with
  | Some g => map name (List.filter (fun st => String.eqb (group st) g) l)
  | None => map name l
  end.

(** The identities behind a list of handles. *)
Definition names_at l (p : list nat) : list string :=
  map (fun i => nth i (map name l) "") p.

(** The state [pickRandom] hands to its last step: the addressed pool has
    been looked up and, when it was empty, refilled. *)
Definition prepared (grp : option string) s : RosterManager Rng :=
  match grp with
  | Some g =>
      let s1 := subscript g s in
      subscript g (if is_nil (deref (GroupPool g) s1) then refillGroupPool g s1 else s1)
  | None => if is_nil (globalPool_ s) then refillGlobalPool s else s
  end.

(** The identities a run's draws on scope [grp] returned, in order. *)
Definition returned_by (grp : option string) (tr : list (option string * Student))
  : list string :=
  map (fun e => name (snd e)) (List.filter (fun e => scope_eqb (fst e) grp) tr).

(** No identity occurs a second time before every identity of [all] has
    occurred. *)
Definition no_repeat_until_all (all returned : list string) : Prop :=
  forall before x after,
    returned = before ++ x :: after -> In x before ->
    forall m, In m all -> In m before.

(** The operations that neither change membership nor reset the pools. *)
Definition keeps_cycle (o : op) : bool :=
  match o with
  | PickRandom _ _ | ClearHistory => true
  | _ => false
  end.

(** Where the cycle of scope [grp] stands after the identities [c] have been
    returned: nothing returned and nothing in the pool, or the returned and
    the pooled identities together are the scope. *)
Definition cycle_state (grp : option string) (c : list string) s : Prop :=
  (c = [] /\ deref (scope_ref grp) s = []) \/
  Permutation (c ++ names_at (students_ s) (deref (scope_ref grp) s))
              (scope_names grp (students_ s)).

(** What is to be shown of the identities returned on a scope with the
    identities [all]. *)
Definition cycle_goal (all returned : list string) : Prop :=
  no_repeat_until_all all returned /\
  (length all <= length returned ->
   Permutation (firstn (length all) returned) all).

End Vocabulary.

(** ** Vocabulary of the further properties *)

Section MoreVocabulary.

Context {Rng : Type} `{Shuffler Rng}.

Implicit Types (s : RosterManager Rng) (l : list Student).

(** [s'] holds every student of [s] at the same handle, with the same name
    and group and a counter that is not smaller. *)
Definition extends s s' : Prop :=
  forall idx st, students_ s !! idx = Some st ->
    exists st', students_ s' !! idx = Some st' /\
                name st' = name st /\ group st' = group st /\
                (callCount st <= callCount st')%Z.

(** The number of records of the history that carry the name [n]. *)
Definition records_of (n : string) (h : list CallRecord) : nat :=
  length (List.filter (fun r => String.eqb (cr_name r) n) h).

(** Every handle of a pool belongs to a member of the pool's scope. *)
Definition pools_scoped s : Prop :=
  forall grp i, In i (deref (scope_ref grp) s) -> In i (members grp (students_ s)).

(** Successive draws on one scope, one per clock reading. *)
Definition draws (grp : option string) (nows : list Z) : list op :=
  map (fun now => PickRandom now grp) nows.

(** How the bulk loader reads a line. *)
Inductive line_kind :=
| SkippedLine
| MalformedLine
| RecordLineOf (n g : string).

Definition classify (line : string) : line_kind :=
  let trimmed := trim line in
  if (is_empty trimmed || front_is "#" trimmed)%bool then SkippedLine
  else
    match find_comma trimmed with
    | None => MalformedLine
    | Some comma =>
        let n := trim (substr 0 comma trimmed) in
        let g := trim (substr_from (comma + 1) trimmed) in
        if (is_empty n || is_empty g)%bool then MalformedLine else RecordLineOf n g
    end.

Definition is_malformed (line : string) : bool :=
  match classify line with MalformedLine => true | _ => false end.

Definition is_wellformed (line : string) : bool :=
  match classify line with RecordLineOf _ _ => true | _ => false end.

(** Strings made of blanks, and strings that start or end with one. *)
Fixpoint all_blank (text : string) : bool :=
  match text with
  | EmptyString => true
  | String c rest => (is_blank c && all_blank rest)%bool
  end.

Definition starts_with_blank (text : string) : bool :=
  match text with
  | EmptyString => false
  | String c _ => is_blank c
  end.

Fixpoint ends_with_blank (text : string) : bool :=
  match text with
  | EmptyString => false
  | String c EmptyString => is_blank c
  | String _ rest => ends_with_blank rest
  end.

(** The order [printStats] lists in: [lhs] may stand before [rhs]. *)
Definition stats_le (lhs rhs : Student) : Prop := stats_before rhs lhs = false.

(** The number of students of a group. *)
Definition group_size (g : string) l : nat := length (group_indices g 0 l).

(** Both fields of a student are non-empty. *)
Definition named (st : Student) : Prop :=
  is_empty (name st) = false /\ is_empty (group st) = false.

(** Every record of the history carries the name and group of a student of
    the store. *)
Definition history_known s : Prop :=
  forall r, In r (history_ s) ->
    exists idx st, students_ s !! idx = Some st /\
                   name st = cr_name r /\ group st = cr_group r.

(** The number of a student's records and its counter stand in [R]. *)
Definition history_rel (R : Z -> Z -> Prop) s : Prop :=
  forall idx st, students_ s !! idx = Some st ->
    R (Z.of_nat (records_of (name st) (history_ s))) (callCount st).

(** What [trim] leaves of a string that starts with a character to keep:
    the string up to its last such character. *)
Definition rtrim (text : string) : string :=
  match find_last_not_of text with
  | Some last => substr 0 (last + 1) text
  | None => EmptyString
  end.

(** The state [s] with the history replaced by [h]. *)
Definition with_history (h : list CallRecord) s : RosterManager Rng :=
  mkRoster (students_ s) (groupPools_ s) (globalPool_ s) h (rng_ s).

(** The record a draw appends for what it returned. *)
Definition record_of (now : Z) (x : option Student) : list CallRecord :=
  match x with
  | Some st => [mkCallRecord (name st) (group st) now]
  | None => []
  end.

End MoreVocabulary.

(** ** A scripted generator

    A generator for tests: its state is the tape of numbers it will hand out
    ([0] once the tape is used up). The shuffle inserts each element at the
    position the next number selects, so every permutation can be scripted. *)

Definition tape_next (tape : list nat) : nat * list nat :=
  match tape with
  | [] => (0, [])
  | r :: rest => (r, rest)
  end.

Fixpoint tape_shuffle (l : list nat) (tape : list nat) : list nat * list nat :=
  match l with
  | [] => ([], tape)
  | x :: rest =>
      let '(acc, tape1) := tape_shuffle rest tape in
      let '(r, tape2) := tape_next tape1 in
      let i := r mod S (length acc) in
      (firstn i acc ++ x :: skipn i acc, tape2)
  end.

Lemma tape_shuffle_permutes l tape : Permutation (fst (tape_shuffle l tape)) l.
Proof.
  revert tape. induction l as [|x rest IH]; intros tape; simpl; [constructor|].
  specialize (IH tape). destruct (tape_shuffle rest tape) as [acc tape1].
  destruct (tape_next tape1) as [r tape2]. simpl in *.
  rewrite <- Permutation_middle. constructor.
  rewrite firstn_skipn. exact IH.
Qed.

#[export] Instance tape_shuffler : Shuffler (list nat) :=
  {| shuffle := tape_shuffle; shuffle_permutes := tape_shuffle_permutes |}.

(** ** Example data *)

(** The lines of the specification's import example. *)
Definition sample_lines : list string :=
  ["Alice, A1"; ""; "# comment"; "Bob,B2"; "Bob,B2"; "bad-line"; "  ,  "].

(** A store for the examples: Alice (A1), Bob (A1), Carol (A2), with a
    generator scripted by [tape]. *)
Definition abc_file : option (list string) :=
  Some ["Alice,A1"; "Bob,A1"; "Carol,A2"].

Definition abc_roster (tape : list nat) : RosterManager (list nat) :=
  snd (importFromFile abc_file (init tape)).

(** The state a run from a fresh manager ends in, what a run's draws
    returned, and the state it ends in from a given one. *)
Definition state_after (ops : list op) (tape : list nat) : RosterManager (list nat) :=
  match run ops (init tape) with
  | Done s => s
  | Undefined _ => init tape
  end.

Definition returns_of (ops : list op) (s : RosterManager (list nat))
  : list (option string * Student) :=
  match run_returns ops s with
  | Done (tr, _) => tr
  | Undefined _ => []
  end.

Definition final_of (ops : list op) (s : RosterManager (list nat))
  : RosterManager (list nat) :=
  match run_returns ops s with
  | Done (_, s') => s'
  | Undefined _ => s
  end.

(** Two global draws into a cycle of three: Carol and Bob have been called,
    Alice's handle is the one left in the global pool. *)
Definition mid_cycle : RosterManager (list nat) :=
  state_after [ImportFromFile abc_file; PickRandom 1 None; PickRandom 2 None]
              [0; 1; 2; 0; 0; 0].

(** A run without [clearHistory], and draws on several scopes. *)
Definition busy_ops : list op :=
  [ImportFromFile abc_file; PickRandom 1 None; ResetCycle;
   PickRandom 2 (Some "A1"); AddStudent "Dave" "A2" false; PickRandom 3 None].

Definition interleaved_ops : list op :=
  [PickRandom 1 (Some "A1"); PickRandom 2 None; ClearHistory;
   PickRandom 3 (Some "A1"); PickRandom 4 (Some "A2"); PickRandom 5 (Some "A1")].

(** * Properties *)

Section Properties.

Context {Rng : Type} `{Shuffler Rng}.

Implicit Types (s : RosterManager Rng) (n g : string) (l : list Student).

(** ** The entity store *)

Lemma find_name_None n l :
  List.find (fun st => String.eqb (name st) n) l = None <-> ~ In n (map name l).
Proof.
  induction l as [|st l IH]; simpl; [tauto|].
  destruct (String.eqb_spec (name st) n) as [E|E]; split.
  - discriminate.
  - intros Hn. exfalso. apply Hn. now left.
  - intros Hf [E'|Hin]; [contradiction|]. now apply IH.
  - intros Hn. apply IH. intros Hin. apply Hn. now right.
Qed.

Lemma find_name_Some n l :
  In n (map name l) -> exists st, List.find (fun st => String.eqb (name st) n) l = Some st.
Proof.
  intros Hin.
  destruct (List.find (fun st => String.eqb (name st) n) l) as [st|] eqn:E; [eauto|].
  apply find_name_None in E. contradiction.
Qed.

Lemma addStudent_known n g r s :
  In n (map name (students_ s)) -> addStudent n g r s = (false, s).
Proof.
  intros Hin. unfold addStudent.
  destruct (find_name_Some n _ Hin) as [st ->]. reflexivity.
Qed.

Lemma addStudent_fresh n g r s :
  ~ In n (map name (students_ s)) ->
  addStudent n g r s =
    (true,
     let s1 := mkRoster (students_ s ++ [mkStudent n g 0]) (groupPools_ s)
                        (globalPool_ s) (history_ s) (rng_ s) in
     if r then resetCycle s1 else s1).
Proof.
  intros Hn. unfold addStudent.
  apply find_name_None in Hn. rewrite Hn. reflexivity.
Qed.

(** C6. An identity already in the store is refused, whatever the group, and
    the store's entities (so the matching entity's group and counter) are as
    before; an identity not in the store is appended with [callCount = 0] and
    the call returns true. *)
Theorem addStudent_unique_identity s n g r :
  (In n (map name (students_ s)) ->
     fst (addStudent n g r s) = false /\
     students_ (snd (addStudent n g r s)) = students_ s) /\
  (~ In n (map name (students_ s)) ->
     fst (addStudent n g r s) = true /\
     students_ (snd (addStudent n g r s)) = students_ s ++ [mkStudent n g 0]).
Proof.
  split; intros Hn.
  - rewrite (addStudent_known n g r s Hn). now split.
  - rewrite (addStudent_fresh n g r s Hn). split; [reflexivity|].
    now destruct r.
Qed.

(** C9. Inserting an identity the store already holds changes nothing at all:
    students, history, global pool, group pools and generator are those of
    the state before the call, also when [refreshPools] is true. *)
Theorem addStudent_duplicate_is_noop s n g r :
  In n (map name (students_ s)) -> addStudent n g r s = (false, s).
Proof. exact (addStudent_known n g r s). Qed.

(** ** Effects of the operations on the store and the history *)

Lemma map_name_insert l idx st :
  l !! idx = Some st -> map name (<[idx := bump st]> l) = map name l.
Proof.
  revert idx. induction l as [|x l IH]; intros [|idx] Hl; simpl in *; try discriminate.
  - now inversion Hl.
  - f_equal. now apply IH.
Qed.

Lemma map_group_insert l idx st :
  l !! idx = Some st -> map group (<[idx := bump st]> l) = map group l.
Proof.
  revert idx. induction l as [|x l IH]; intros [|idx] Hl; simpl in *; try discriminate.
  - now inversion Hl.
  - f_equal. now apply IH.
Qed.

Lemma total_callCount_insert l idx st :
  l !! idx = Some st ->
  total_callCount (<[idx := bump st]> l) = (total_callCount l + 1)%Z.
Proof.
  revert idx. induction l as [|x l IH]; intros [|idx] Hl; simpl in *; try discriminate.
  - inversion Hl; subst. lia.
  - rewrite (IH idx Hl). lia.
Qed.

Lemma total_callCount_app l1 l2 :
  total_callCount (l1 ++ l2) = (total_callCount l1 + total_callCount l2)%Z.
Proof. induction l1 as [|x l1 IH]; simpl; [reflexivity|]. rewrite IH. lia. Qed.

(** What one call of [addStudent] does to the state, duplicate or not. *)
Lemma addStudent_effect n g r s :
  let s' := snd (addStudent n g r s) in
  history_ s' = history_ s /\ rng_ s' = rng_ s /\
  ((fst (addStudent n g r s) = false /\ s' = s) \/
   (fst (addStudent n g r s) = true /\ ~ In n (map name (students_ s)) /\
    students_ s' = students_ s ++ [mkStudent n g 0] /\
    (if r then globalPool_ s' = [] /\ groupPools_ s' = ∅
     else globalPool_ s' = globalPool_ s /\ groupPools_ s' = groupPools_ s))).
Proof.
  destruct (in_dec string_dec n (map name (students_ s))) as [Hin|Hn].
  - rewrite (addStudent_known n g r s Hin). simpl. auto.
  - rewrite (addStudent_fresh n g r s Hn). destruct r; simpl; auto 10.
Qed.

(** What the loop of the bulk loader does to the state: it appends students
    with fresh identities, counters at zero and trimmed, non-empty fields,
    and touches neither the pools nor the history nor the generator. *)
Lemma loadFromStream_effect input : forall stats s,
  let s' := snd (loadFromStream input stats s) in
  history_ s' = history_ s /\ rng_ s' = rng_ s /\
  globalPool_ s' = globalPool_ s /\ groupPools_ s' = groupPools_ s /\
  exists new,
    students_ s' = students_ s ++ new /\
    Forall (fun st => callCount st = 0%Z /\ loaded_field (name st) /\
                      loaded_field (group st)) new /\
    (NoDup (map name (students_ s)) -> NoDup (map name (students_ s'))).
Proof.
  induction input as [|line rest IH]; intros stats s; simpl.
  - repeat split; try reflexivity. exists []. rewrite app_nil_r. auto.
  - destruct (is_empty (trim line) || front_is "#" (trim line))%bool; [apply IH|].
    destruct (find_comma (trim line)) as [comma|]; [|apply IH].
    set (n := trim (substr 0 comma (trim line))).
    set (g := trim (substr_from (comma + 1) (trim line))).
    destruct (is_empty n || is_empty g)%bool eqn:Hempty; [apply IH|].
    apply orb_false_elim in Hempty as [Hn Hg].
    pose proof (addStudent_effect n g false s) as (Hh & Hr & Hcase).
    destruct (addStudent n g false s) as [ok s1] eqn:Hadd. simpl in Hh, Hr, Hcase.
    assert (Hgoal : forall stats1,
      let s' := snd (loadFromStream rest stats1 s1) in
      history_ s' = history_ s /\ rng_ s' = rng_ s /\
      globalPool_ s' = globalPool_ s /\ groupPools_ s' = groupPools_ s /\
      exists new,
        students_ s' = students_ s ++ new /\
        Forall (fun st => callCount st = 0%Z /\ loaded_field (name st) /\
                          loaded_field (group st)) new /\
        (NoDup (map name (students_ s)) -> NoDup (map name (students_ s')))).
    { intros stats1. specialize (IH stats1 s1). simpl in IH |- *.
      destruct IH as (IHh & IHr & IHgp & IHgr & new & IHs & IHf & IHn).
      destruct Hcase as [[_ ->]|(_ & Hfresh & Hs1 & Hgp & Hgr)].
      - repeat split; try assumption. exists new. auto.
      - rewrite IHh, IHr, IHgp, IHgr, Hh, Hr, Hgp, Hgr.
        repeat split. exists (mkStudent n g 0 :: new). split; [|split].
        + rewrite IHs, Hs1, <- app_assoc. reflexivity.
        + constructor; [|exact IHf]. simpl.
          split; [reflexivity|]. split; (split; [assumption|eexists; reflexivity]).
        + intros Hnd. apply IHn. rewrite Hs1, map_app. simpl.
          apply NoDup_app. split; [exact Hnd|]. split.
          * intros x Hx Hx'. apply list_elem_of_In in Hx, Hx'.
            destruct Hx' as [<-|[]]. contradiction.
          * apply NoDup_singleton. }
    destruct ok; apply Hgoal.
Qed.

(** ** The bulk loader and the validation of strings *)

(** C5. The import of the seven sample lines into an empty store reports
    2 added, 1 duplicate and 2 malformed lines and leaves exactly Alice (A1)
    and Bob (B2), both with [callCount = 0]. *)
Theorem import_classification (seed : Rng) :
  fst (importFromFile (Some sample_lines) (init seed)) = Some (mkImportStats 2 1 2) /\
  students_ (snd (importFromFile (Some sample_lines) (init seed))) =
    [mkStudent "Alice" "A1" 0; mkStudent "Bob" "B2" 0].
Proof. split; vm_compute; reflexivity. Qed.

(** C10, as the code has it. [addStudent] stores its strings as given: the
    empty identity is accepted by a store that does not hold it, and any
    identity the store does not hold is accepted with the empty group. The
    menu entry refuses an empty name or group and passes everything else on
    untrimmed; the bulk loader is the one that trims, and it only inserts
    non-empty fields. *)
Theorem addStudent_stores_verbatim s n g r :
  (~ In "" (map name (students_ s)) ->
     fst (addStudent "" g r s) = true /\
     students_ (snd (addStudent "" g r s)) = students_ s ++ [mkStudent "" g 0]) /\
  (~ In n (map name (students_ s)) ->
     fst (addStudent n "" r s) = true /\
     students_ (snd (addStudent n "" r s)) = students_ s ++ [mkStudent n "" 0]) /\
  (is_empty n = true \/ is_empty g = true ->
     main_add_student n g s = ("Name and group cannot be empty.", s)) /\
  (is_empty n = false -> is_empty g = false ->
     snd (main_add_student n g s) = snd (addStudent n g true s)) /\
  (forall input stats,
     exists new,
       students_ (snd (loadFromStream input stats s)) = students_ s ++ new /\
       Forall (fun st => loaded_field (name st) /\ loaded_field (group st)) new).
Proof.
  split; [|split; [|split; [|split]]].
  - intros Hn. rewrite (addStudent_fresh "" g r s Hn). split; [reflexivity|].
    now destruct r.
  - intros Hn. rewrite (addStudent_fresh n "" r s Hn). split; [reflexivity|].
    now destruct r.
  - intros Hempty. unfold main_add_student.
    destruct Hempty as [-> | ->]; [reflexivity|]. now rewrite orb_true_r.
  - intros Hn Hg. unfold main_add_student. rewrite Hn, Hg. simpl.
    destruct (addStudent n g true s) as [[|] s1]; reflexivity.
  - intros input stats.
    destruct (loadFromStream_effect input stats s) as (_ & _ & _ & _ & new & Hs & Hf & _).
    exists new. split; [exact Hs|].
    eapply Forall_impl; [exact Hf|]. simpl. tauto.
Qed.

(** ** Pools hold valid, distinct handles *)

Lemma pool_ok_nil size : pool_ok size [].
Proof. split; constructor. Qed.

Lemma pool_ok_tail size i p : pool_ok size (i :: p) -> pool_ok size p.
Proof. intros [Hnd Hall]. inversion Hnd; inversion Hall; subst. now split. Qed.

Lemma pool_ok_mono size size' p : size <= size' -> pool_ok size p -> pool_ok size' p.
Proof.
  intros Hle [Hnd Hall]. split; [exact Hnd|].
  eapply Forall_impl; [exact Hall|]. simpl. intros. lia.
Qed.

Lemma pool_ok_perm size p q : Permutation p q -> pool_ok size q -> pool_ok size p.
Proof.
  intros Hp [Hnd Hall]. split; rewrite Hp; assumption.
Qed.

Lemma pool_ok_seq size : pool_ok size (seq 0 size).
Proof.
  split; [apply NoDup_seq|].
  apply List.Forall_forall. intros i Hi. apply in_seq in Hi. lia.
Qed.

Lemma group_indices_bounds g l : forall i,
  Forall (fun j => i <= j < i + length l) (group_indices g i l).
Proof.
  induction l as [|st l IH]; intros i; simpl; [constructor|].
  specialize (IH (S i)).
  assert (Hrest : Forall (fun j => i <= j < i + S (length l)) (group_indices g (S i) l)).
  { eapply Forall_impl; [exact IH|]. simpl. intros. lia. }
  destruct (String.eqb (group st) g); [constructor; [lia|]|]; exact Hrest.
Qed.

Lemma group_indices_NoDup g l : forall i, NoDup (group_indices g i l).
Proof.
  induction l as [|st l IH]; intros i; simpl; [constructor|].
  destruct (String.eqb (group st) g); [|apply IH].
  constructor; [|apply IH].
  intros Hin. apply list_elem_of_In in Hin.
  pose proof (group_indices_bounds g l (S i)) as Hb.
  rewrite List.Forall_forall in Hb. specialize (Hb i Hin). lia.
Qed.

(** The handles [refillGroupPool] collects are those of the students whose
    group is the key. *)
Lemma group_indices_spec g l : forall i j,
  In j (group_indices g i l) <->
  i <= j /\ exists st, l !! (j - i) = Some st /\ group st = g.
Proof.
  induction l as [|st l IH]; intros i j; simpl.
  - split; [tauto|]. intros [_ (st & Hl & _)]. discriminate.
  - assert (Hrest : In j (group_indices g (S i) l) <->
                    S i <= j /\ exists st', l !! (j - S i) = Some st' /\ group st' = g)
      by apply IH.
    assert (Hshift : forall j, S i <= j -> (st :: l) !! (j - i) = l !! (j - S i)).
    { intros k Hk. replace (k - i) with (S (k - S i)) by lia. reflexivity. }
    destruct (String.eqb_spec (group st) g) as [E|E]; simpl; rewrite ?Hrest.
    + split.
      * intros [<-|[Hle Hst]].
        -- split; [lia|]. exists st. now rewrite Nat.sub_diag.
        -- split; [lia|]. now rewrite Hshift.
      * intros [Hle (st' & Hl & Hg)].
        destruct (Nat.eq_dec i j) as [->|Hne]; [now left|right].
        split; [lia|]. exists st'. rewrite <- Hshift by lia. now split.
    + split.
      * intros [Hle Hst]. split; [lia|]. now rewrite Hshift.
      * intros [Hle (st' & Hl & Hg)].
        destruct (Nat.eq_dec i j) as [->|Hne].
        -- rewrite Nat.sub_diag in Hl. simpl in Hl. inversion Hl; subst. contradiction.
        -- split; [lia|]. exists st'. rewrite <- Hshift by lia. now split.
Qed.

Lemma pool_ok_group g l : pool_ok (length l) (group_indices g 0 l).
Proof.
  split; [apply group_indices_NoDup|].
  eapply Forall_impl; [apply group_indices_bounds|]. simpl. intros. lia.
Qed.

Lemma deref_ok r s : pools_ok s -> pool_ok (length (students_ s)) (deref r s).
Proof.
  intros [Hgl Hgr]. destruct r as [|g]; simpl; [exact Hgl|].
  destruct (groupPools_ s !! g) as [p|] eqn:E; simpl; [eauto|apply pool_ok_nil].
Qed.

Lemma assign_ok r p s :
  pools_ok s -> pool_ok (length (students_ s)) p -> pools_ok (assign r p s).
Proof.
  intros [Hgl Hgr] Hp. destruct r as [|g]; split; simpl; auto.
  intros g' p'. rewrite lookup_insert. case_decide; [|apply Hgr].
  intros [= <-]. exact Hp.
Qed.

Lemma subscript_ok g s : pools_ok s -> pools_ok (subscript g s).
Proof.
  intros Hok. unfold subscript. destruct (groupPools_ s !! g); [exact Hok|].
  apply assign_ok; [exact Hok|apply pool_ok_nil].
Qed.

Lemma refillGlobalPool_effect s :
  let s' := refillGlobalPool s in
  students_ s' = students_ s /\ groupPools_ s' = groupPools_ s /\
  history_ s' = history_ s /\
  Permutation (globalPool_ s') (seq 0 (length (students_ s))).
Proof.
  unfold refillGlobalPool.
  pose proof (shuffle_permutes (seq 0 (length (students_ s))) (rng_ s)) as Hp.
  destruct (shuffle (seq 0 (length (students_ s))) (rng_ s)) as [p g']. simpl in *.
  auto.
Qed.

Lemma refillGroupPool_effect g s :
  let s' := refillGroupPool g s in
  students_ s' = students_ s /\ globalPool_ s' = globalPool_ s /\
  history_ s' = history_ s /\
  Permutation (deref (GroupPool g) s') (group_indices g 0 (students_ s)) /\
  (forall g', g' <> g -> groupPools_ s' !! g' = groupPools_ s !! g') /\
  (groupPools_ s' !! g = None <-> group_indices g 0 (students_ s) = []).
Proof.
  unfold refillGroupPool.
  destruct (group_indices g 0 (students_ s)) as [|i rest] eqn:E; simpl.
  - rewrite lookup_delete_eq. simpl. repeat split; auto.
    intros g' Hne. now rewrite lookup_delete_ne.
  - pose proof (shuffle_permutes (i :: rest) (rng_ s)) as Hp.
    destruct (shuffle (i :: rest) (rng_ s)) as [p r']. simpl in *.
    rewrite lookup_insert_eq. simpl. repeat split; auto; try discriminate.
    intros g' Hne. now rewrite lookup_insert_ne.
Qed.

Lemma refillGlobalPool_ok s : pools_ok s -> pools_ok (refillGlobalPool s).
Proof.
  intros [_ Hgr]. destruct (refillGlobalPool_effect s) as (Hs & Hg & _ & Hp).
  split; rewrite Hs.
  - eapply pool_ok_perm; [exact Hp|apply pool_ok_seq].
  - rewrite Hg. exact Hgr.
Qed.

Lemma refillGroupPool_ok g s : pools_ok s -> pools_ok (refillGroupPool g s).
Proof.
  intros [Hgl Hgr].
  destruct (refillGroupPool_effect g s) as (Hs & Hg & _ & Hp & Hother & _).
  split; rewrite Hs; [now rewrite Hg|].
  intros g' p Hl. destruct (decide (g' = g)) as [->|Hne].
  - simpl in Hp. rewrite Hl in Hp. simpl in Hp.
    eapply pool_ok_perm; [exact Hp|apply pool_ok_group].
  - rewrite Hother in Hl by exact Hne. eauto.
Qed.

(** What a successful [consumeIndex] did. *)
Lemma consumeIndex_Done now r s st s' :
  consumeIndex now r s = Done (st, s') ->
  exists idx rest st0,
    deref r s = idx :: rest /\ students_ s !! idx = Some st0 /\
    (callCount st0 < INT_MAX)%Z /\ st = bump st0 /\
    students_ s' = <[idx := bump st0]> (students_ s) /\
    history_ s' = history_ s ++ [mkCallRecord (name st0) (group st0) now] /\
    globalPool_ s' = globalPool_ (assign r rest s) /\
    groupPools_ s' = groupPools_ (assign r rest s) /\
    rng_ s' = rng_ s.
Proof.
  unfold consumeIndex. destruct (deref r s) as [|idx rest] eqn:Hd; [discriminate|].
  assert (Hst : students_ (assign r rest s) = students_ s) by now destruct r.
  assert (Hh : history_ (assign r rest s) = history_ s) by now destruct r.
  assert (Hr : rng_ (assign r rest s) = rng_ s) by now destruct r.
  rewrite Hst, Hh, Hr.
  destruct (students_ s !! idx) as [st0|] eqn:Hl; [|discriminate].
  destruct (callCount st0 <? INT_MAX)%Z eqn:Hc; [|discriminate].
  intros [= <- <-]. exists idx, rest, st0. simpl.
  repeat split; try reflexivity; try assumption. now apply Z.ltb_lt.
Qed.

(** With valid pools, [consumeIndex] on a non-empty pool can only fail by
    overflowing the counter. *)
Lemma consumeIndex_defined now r s :
  pools_ok s -> deref r s <> [] ->
  (exists st s', consumeIndex now r s = Done (st, s')) \/
  consumeIndex now r s = Undefined SignedOverflow.
Proof.
  intros Hok Hne. unfold consumeIndex.
  pose proof (deref_ok r s Hok) as [_ Hall].
  destruct (deref r s) as [|idx rest]; [contradiction|].
  assert (Hst : students_ (assign r rest s) = students_ s) by now destruct r.
  rewrite Hst. inversion Hall as [|? ? Hlt _]; subst.
  destruct (lookup_lt_is_Some_2 (students_ s) idx Hlt) as [st0 ->].
  destruct (callCount st0 <? INT_MAX)%Z; eauto.
Qed.

Lemma consumeIndex_ok now r s st s' :
  consumeIndex now r s = Done (st, s') -> pools_ok s -> pools_ok s'.
Proof.
  intros Hc Hok.
  destruct (consumeIndex_Done _ _ _ _ _ Hc)
    as (idx & rest & st0 & Hd & Hl & _ & _ & Hs & _ & Hgl & Hgr & _).
  assert (Hok' : pools_ok (assign r rest s)).
  { apply assign_ok; [exact Hok|]. apply (pool_ok_tail _ idx).
    rewrite <- Hd. now apply deref_ok. }
  assert (Hst : students_ (assign r rest s) = students_ s) by now destruct r.
  destruct Hok' as [H1 H2]. rewrite Hst in H1, H2.
  split; rewrite Hs, length_insert; [now rewrite Hgl|now rewrite Hgr].
Qed.

Lemma draw_ok now r s x s' :
  draw now r s = Done (x, s') -> pools_ok s -> pools_ok s'.
Proof.
  unfold draw. destruct (is_nil (deref r s)); [now intros [= <- <-]|].
  destruct (consumeIndex now r s) as [[st s1]|f] eqn:Hc; [|discriminate].
  intros [= <- <-]. eapply consumeIndex_ok; eauto.
Qed.

Lemma pickRandom_ok now grp s x s' :
  pickRandom now grp s = Done (x, s') -> pools_ok s -> pools_ok s'.
Proof.
  unfold pickRandom. destruct (is_nil (students_ s)); [now intros [= <- <-]|].
  destruct grp as [g|]; intros Hd Hok; eapply draw_ok; try exact Hd.
  - apply subscript_ok.
    destruct (is_nil (deref (GroupPool g) (subscript g s)));
      [apply refillGroupPool_ok|]; now apply subscript_ok.
  - destruct (is_nil (globalPool_ s)); [now apply refillGlobalPool_ok|exact Hok].
Qed.

(** ** What a draw does *)

Lemma pickRandom_unfold now grp s :
  students_ s <> [] ->
  pickRandom now grp s = draw now (scope_ref grp) (prepared grp s).
Proof.
  intros Hne. unfold pickRandom. destruct (students_ s); [contradiction|].
  now destruct grp.
Qed.

Lemma subscript_effect g s :
  students_ (subscript g s) = students_ s /\
  history_ (subscript g s) = history_ s /\
  globalPool_ (subscript g s) = globalPool_ s /\
  rng_ (subscript g s) = rng_ s /\
  forall r, deref r (subscript g s) = deref r s.
Proof.
  unfold subscript. destruct (groupPools_ s !! g) eqn:E; simpl; [auto 10|].
  repeat split. intros [|g']; simpl; [reflexivity|].
  rewrite lookup_insert. case_decide; subst; [now rewrite E|reflexivity].
Qed.

Lemma is_nil_true {A} (p : list A) : is_nil p = true <-> p = [].
Proof. destruct p; simpl; split; congruence. Qed.

Lemma is_nil_false {A} (p : list A) : is_nil p = false <-> p <> [].
Proof. destruct p; simpl; split; congruence. Qed.

Lemma prepared_effect grp s :
  students_ (prepared grp s) = students_ s /\
  history_ (prepared grp s) = history_ s /\
  (pools_ok s -> pools_ok (prepared grp s)) /\
  (deref (scope_ref grp) s <> [] ->
     deref (scope_ref grp) (prepared grp s) = deref (scope_ref grp) s) /\
  (deref (scope_ref grp) s = [] ->
     Permutation (deref (scope_ref grp) (prepared grp s)) (members grp (students_ s))).
Proof.
  destruct grp as [g|]; cbn [prepared scope_ref members].
  - destruct (subscript_effect g s) as (Hs1 & Hh1 & _ & _ & Hd1).
    rewrite (Hd1 (GroupPool g)).
    destruct (is_nil (deref (GroupPool g) s)) eqn:E.
    + apply is_nil_true in E.
      destruct (refillGroupPool_effect g (subscript g s)) as (Hs2 & _ & Hh2 & Hp & _).
      destruct (subscript_effect g (refillGroupPool g (subscript g s)))
        as (Hs3 & Hh3 & _ & _ & Hd3).
      rewrite Hs3, Hh3, Hs2, Hh2, Hs1, Hh1, (Hd3 (GroupPool g)).
      split; [reflexivity|]. split; [reflexivity|]. split; [|split].
      * intros Hok. now apply subscript_ok, refillGroupPool_ok, subscript_ok.
      * intros Hne. contradiction.
      * intros _. rewrite <- Hs1. exact Hp.
    + apply is_nil_false in E.
      destruct (subscript_effect g (subscript g s)) as (Hs3 & Hh3 & _ & _ & Hd3).
      rewrite Hs3, Hh3, Hs1, Hh1, (Hd3 (GroupPool g)), (Hd1 (GroupPool g)).
      split; [reflexivity|]. split; [reflexivity|]. split; [|split].
      * intros Hok. now apply subscript_ok, subscript_ok.
      * reflexivity.
      * intros He. contradiction.
  - destruct (is_nil (globalPool_ s)) eqn:E.
    + apply is_nil_true in E.
      destruct (refillGlobalPool_effect s) as (Hs & _ & Hh & Hp).
      split; [exact Hs|]. split; [exact Hh|]. split; [|split].
      * apply refillGlobalPool_ok.
      * intros Hne. contradiction.
      * intros _. exact Hp.
    + apply is_nil_false in E.
      split; [reflexivity|]. split; [reflexivity|]. split; [|split]; auto.
      intros He. contradiction.
Qed.

Lemma deref_assign r p s : deref r (assign r p s) = p.
Proof. destruct r as [|g]; simpl; [reflexivity|]. now rewrite lookup_insert_eq. Qed.

(** The two ways a defined [draw] ends: nothing to hand out, or the front
    handle consumed, its student bumped and a record appended. *)
Lemma draw_effect now r s x s' :
  draw now r s = Done (x, s') ->
  (x = None /\ s' = s /\ deref r s = []) \/
  (exists idx rest st0,
     deref r s = idx :: rest /\ students_ s !! idx = Some st0 /\
     x = Some (bump st0) /\
     students_ s' = <[idx := bump st0]> (students_ s) /\
     history_ s' = history_ s ++ [mkCallRecord (name st0) (group st0) now] /\
     deref r s' = rest /\ rng_ s' = rng_ s).
Proof.
  unfold draw. destruct (is_nil (deref r s)) eqn:E.
  - intros [= <- <-]. left. apply is_nil_true in E. auto.
  - destruct (consumeIndex now r s) as [[st s1]|f] eqn:Hc; [|discriminate].
    intros [= <- <-]. right.
    destruct (consumeIndex_Done _ _ _ _ _ Hc)
      as (idx & rest & st0 & Hd & Hl & _ & -> & Hs & Hh & Hgl & Hgr & Hr).
    exists idx, rest, st0. repeat split; auto.
    rewrite <- (deref_assign r rest s).
    destruct r; simpl; [exact Hgl|now rewrite Hgr].
Qed.

Lemma pickRandom_effect now grp s x s' :
  pickRandom now grp s = Done (x, s') ->
  (x = None /\ students_ s' = students_ s /\ history_ s' = history_ s) \/
  (exists idx st0,
     students_ s !! idx = Some st0 /\ x = Some (bump st0) /\
     students_ s' = <[idx := bump st0]> (students_ s) /\
     history_ s' = history_ s ++ [mkCallRecord (name st0) (group st0) now]).
Proof.
  destruct (students_ s) as [|st l] eqn:Hst.
  - unfold pickRandom. rewrite Hst. simpl. intros [= <- <-]. left. auto.
  - rewrite pickRandom_unfold by (rewrite Hst; discriminate).
    destruct (prepared_effect grp s) as (Hs & Hh & _).
    intros Hd. apply draw_effect in Hd.
    destruct Hd as [(-> & -> & _)|(idx & rest & st0 & _ & Hl & -> & Hs' & Hh' & _)].
    + left. rewrite Hs, Hh, Hst. auto.
    + right. exists idx, st0. rewrite Hs' , Hh', Hs, Hh, <- Hst.
      rewrite Hs in Hl. auto.
Qed.

(** ** Invariants of the reachable states *)

Lemma run_preserves (P : RosterManager Rng -> Prop) (allowed : op -> Prop) :
  (forall o s s', allowed o -> P s -> step o s = Done s' -> P s') ->
  forall ops s s', Forall allowed ops -> P s -> run ops s = Done s' -> P s'.
Proof.
  intros Hstep. induction ops as [|o ops IH]; intros s s' Hall HP; simpl.
  - now intros [= <-].
  - inversion Hall as [|? ? Ho Hops]; subst.
    destruct (step o s) as [s1|f] eqn:E; [|discriminate].
    apply (IH s1 s' Hops). eapply Hstep; eauto.
Qed.

Lemma reachable_ind (P : RosterManager Rng -> Prop) :
  (forall seed, P (init seed)) ->
  (forall o s s', P s -> step o s = Done s' -> P s') ->
  forall s, reachable s -> P s.
Proof.
  intros Hinit Hstep s (seed & ops & Hrun).
  refine (run_preserves P (fun _ => True) _ ops (init seed) s _ (Hinit seed) Hrun).
  - intros o s0 s1 _. apply Hstep.
  - apply List.Forall_forall. auto.
Qed.

Lemma step_names o s s' :
  step o s = Done s' ->
  NoDup (map name (students_ s)) -> NoDup (map name (students_ s')).
Proof.
  destruct o as [n g r|file|now grp| |]; simpl.
  - intros [= <-] Hnd.
    destruct (addStudent_effect n g r s) as (_ & _ & [[_ ->]|(_ & Hn & -> & _)]);
      [exact Hnd|].
    rewrite map_app. simpl. apply NoDup_app. split; [exact Hnd|]. split.
    + intros x Hx Hx'. apply list_elem_of_In in Hx, Hx'.
      destruct Hx' as [<-|[]]. contradiction.
    + apply NoDup_singleton.
  - intros [= <-]. destruct file as [input|]; simpl; [|auto].
    pose proof (loadFromStream_effect input (mkImportStats 0 0 0) s) as Hl.
    destruct (loadFromStream input (mkImportStats 0 0 0) s) as [stats s1].
    simpl in *. destruct Hl as (_ & _ & _ & _ & new & _ & _ & Hnd). exact Hnd.
  - destruct (pickRandom now grp s) as [[x s1]|f] eqn:E; [|discriminate].
    intros [= <-] Hnd.
    destruct (pickRandom_effect _ _ _ _ _ E)
      as [(_ & -> & _)|(idx & st0 & Hl & _ & -> & _)]; [exact Hnd|].
    now rewrite map_name_insert.
  - now intros [= <-].
  - now intros [= <-].
Qed.

Lemma resetCycle_ok s : pools_ok (resetCycle s).
Proof.
  split; simpl; [apply pool_ok_nil|]. intros g p. now rewrite lookup_empty.
Qed.

Lemma pools_ok_grow s s' :
  length (students_ s) <= length (students_ s') ->
  globalPool_ s' = globalPool_ s -> groupPools_ s' = groupPools_ s ->
  pools_ok s -> pools_ok s'.
Proof.
  intros Hle Hgl Hgr [H1 H2]. split.
  - rewrite Hgl. eapply pool_ok_mono; eauto.
  - rewrite Hgr. intros g p Hl. eapply pool_ok_mono; eauto.
Qed.

Lemma step_pools_ok o s s' : step o s = Done s' -> pools_ok s -> pools_ok s'.
Proof.
  destruct o as [n g r|file|now grp| |]; simpl.
  - intros [= <-] Hok.
    destruct (addStudent_effect n g r s) as (_ & _ & [[_ ->]|(_ & _ & Hs & Hp)]);
      [exact Hok|].
    destruct r.
    + destruct Hp as [Hgl Hgr]. split; rewrite ?Hgl, ?Hgr; [apply pool_ok_nil|].
      intros g' p. now rewrite lookup_empty.
    + destruct Hp as [Hgl Hgr]. apply (pools_ok_grow s); auto.
      rewrite Hs, length_app. lia.
  - intros [= <-]. destruct file as [input|]; simpl; [|auto].
    destruct (loadFromStream input (mkImportStats 0 0 0) s) as [stats s1].
    intros _. apply resetCycle_ok.
  - destruct (pickRandom now grp s) as [[x s1]|f] eqn:E; [|discriminate].
    intros [= <-]. eapply pickRandom_ok; eauto.
  - intros [= <-] _. apply resetCycle_ok.
  - now intros [= <-].
Qed.

Lemma init_ok (seed : Rng) : pools_ok (init seed).
Proof.
  split; simpl; [apply pool_ok_nil|]. intros g p. now rewrite lookup_empty.
Qed.

Lemma reachable_names s : reachable s -> NoDup (map name (students_ s)).
Proof.
  revert s. apply (reachable_ind (fun s => NoDup (map name (students_ s)))).
  - intros seed. constructor.
  - intros o s0 s' Hnd Hstep. eapply step_names; eauto.
Qed.

Lemma reachable_pools_ok s : reachable s -> pools_ok s.
Proof.
  revert s. apply (reachable_ind (fun s => pools_ok s)); [apply init_ok|].
  intros o s0 s' Hok Hstep. eapply step_pools_ok; eauto.
Qed.

(** With valid pools a draw has a result unless a counter overflows. *)
Lemma pickRandom_defined now grp s :
  pools_ok s ->
  (exists x s', pickRandom now grp s = Done (x, s')) \/
  pickRandom now grp s = Undefined SignedOverflow.
Proof.
  intros Hok. destruct (students_ s) as [|st l] eqn:Hst.
  - left. unfold pickRandom. rewrite Hst. simpl. eauto.
  - rewrite pickRandom_unfold by (rewrite Hst; discriminate).
    destruct (prepared_effect grp s) as (_ & _ & Hok' & _). specialize (Hok' Hok).
    unfold draw. destruct (is_nil (deref (scope_ref grp) (prepared grp s))) eqn:E;
      [eauto|].
    apply is_nil_false in E.
    destruct (consumeIndex_defined now _ _ Hok' E) as [(st' & s' & ->)| ->]; eauto.
Qed.

(** C7. In every reachable state each handle of the global pool and of every
    group pool is below the number of students and occurs once in its pool;
    so the front of a non-empty pool addresses a student, and a draw never
    reads an empty deque or indexes the store out of range. *)
Theorem pools_hold_valid_handles s :
  reachable s ->
  (NoDup (globalPool_ s) /\ Forall (fun i => i < length (students_ s)) (globalPool_ s)) /\
  (forall g p, groupPools_ s !! g = Some p ->
     NoDup p /\ Forall (fun i => i < length (students_ s)) p) /\
  (forall r idx rest, deref r s = idx :: rest ->
     exists st, students_ s !! idx = Some st) /\
  (forall now r, deref r s <> [] ->
     consumeIndex now r s <> Undefined OutOfRange /\
     consumeIndex now r s <> Undefined EmptyFront) /\
  (forall now grp,
     pickRandom now grp s <> Undefined OutOfRange /\
     pickRandom now grp s <> Undefined EmptyFront).
Proof.
  intros Hr. pose proof (reachable_pools_ok s Hr) as Hok.
  split; [exact (proj1 Hok)|]. split; [exact (proj2 Hok)|]. split; [|split].
  - intros r idx rest Hd. pose proof (deref_ok r s Hok) as [_ Hall].
    rewrite Hd in Hall. inversion Hall; subst.
    now apply lookup_lt_is_Some_2.
  - intros now r Hne.
    destruct (consumeIndex_defined now r s Hok Hne) as [(st & s' & ->)| ->];
      split; discriminate.
  - intros now grp.
    destruct (pickRandom_defined now grp s Hok) as [(x & s' & ->)| ->];
      split; discriminate.
Qed.

(** ** Runs are defined while the counters fit in an [int] *)

Lemma pickRandom_progress now grp s :
  pools_ok s -> Forall (fun st => (callCount st < INT_MAX)%Z) (students_ s) ->
  exists x s', pickRandom now grp s = Done (x, s').
Proof.
  intros Hok Hsmall.
  destruct (pickRandom_defined now grp s Hok) as [Hdone|Hover]; [exact Hdone|].
  exfalso.
  assert (Hne : students_ s <> []).
  { intros E. unfold pickRandom in Hover. rewrite E in Hover. discriminate. }
  rewrite pickRandom_unfold in Hover by exact Hne.
  destruct (prepared_effect grp s) as (Hs & _).
  unfold draw in Hover.
  destruct (is_nil (deref (scope_ref grp) (prepared grp s))); [discriminate|].
  unfold consumeIndex in Hover.
  destruct (deref (scope_ref grp) (prepared grp s)) as [|idx rest]; [discriminate|].
  assert (Hst' : students_ (assign (scope_ref grp) rest (prepared grp s)) = students_ s)
    by (rewrite <- Hs; now destruct grp).
  rewrite Hst' in Hover.
  destruct (students_ s !! idx) as [st0|] eqn:Hl; [|discriminate].
  rewrite List.Forall_forall in Hsmall.
  assert (Hlt : (callCount st0 < INT_MAX)%Z).
  { apply Hsmall, list_elem_of_In. eapply list_elem_of_lookup_2. exact Hl. }
  apply Z.ltb_lt in Hlt. rewrite Hlt in Hover. discriminate.
Qed.

Lemma step_counters o s s' b :
  step o s = Done s' -> (0 <= b)%Z ->
  Forall (fun st => (callCount st <= b)%Z) (students_ s) ->
  Forall (fun st => (callCount st <= b + 1)%Z) (students_ s').
Proof.
  intros Hstep Hb Hall.
  assert (Hweak : Forall (fun st => (callCount st <= b + 1)%Z) (students_ s)).
  { eapply Forall_impl; [exact Hall|]. simpl. intros. lia. }
  destruct o as [n g r|file|now grp| |]; simpl in Hstep.
  - injection Hstep as <-.
    destruct (addStudent_effect n g r s) as (_ & _ & [[_ ->]|(_ & _ & -> & _)]);
      [exact Hweak|].
    apply Forall_app. split; [exact Hweak|]. constructor; [simpl; lia|constructor].
  - injection Hstep as <-. destruct file as [input|]; simpl; [|exact Hweak].
    pose proof (loadFromStream_effect input (mkImportStats 0 0 0) s) as Hl.
    destruct (loadFromStream input (mkImportStats 0 0 0) s) as [stats s1].
    simpl in *. destruct Hl as (_ & _ & _ & _ & new & -> & Hz & _).
    apply Forall_app. split; [exact Hweak|].
    eapply Forall_impl; [exact Hz|]. simpl. intros st (-> & _). lia.
  - destruct (pickRandom now grp s) as [[x s1]|f] eqn:E; [|discriminate].
    injection Hstep as <-.
    destruct (pickRandom_effect _ _ _ _ _ E)
      as [(_ & -> & _)|(idx & st0 & Hl & _ & -> & _)]; [exact Hweak|].
    apply Forall_insert; [exact Hweak|]. simpl.
    rewrite List.Forall_forall in Hall.
    assert ((callCount st0 <= b)%Z); [|lia].
    apply Hall, list_elem_of_In. eapply list_elem_of_lookup_2; eauto.
  - injection Hstep as <-. exact Hweak.
  - injection Hstep as <-. exact Hweak.
Qed.

Lemma step_progress o s :
  pools_ok s -> Forall (fun st => (callCount st < INT_MAX)%Z) (students_ s) ->
  exists s', step o s = Done s'.
Proof.
  intros Hok Hsmall. destruct o as [n g r|file|now grp| |]; simpl; eauto.
  destruct (pickRandom_progress now grp s Hok Hsmall) as (x & s' & ->). eauto.
Qed.

(** A run is defined as long as no counter can reach [INT_MAX]. *)
Lemma run_progress ops : forall s b,
  pools_ok s -> (0 <= b)%Z -> (b + Z.of_nat (length ops) <= INT_MAX)%Z ->
  Forall (fun st => (callCount st <= b)%Z) (students_ s) ->
  exists s', run ops s = Done s'.
Proof.
  induction ops as [|o ops IH]; intros s b Hok Hb Hlen Hall; simpl; [eauto|].
  simpl length in Hlen.
  destruct (step_progress o s Hok) as [s1 Hstep].
  { eapply Forall_impl; [exact Hall|]. simpl. intros. lia. }
  rewrite Hstep. apply (IH s1 (b + 1)%Z).
  - eapply step_pools_ok; eauto.
  - lia.
  - lia.
  - eapply step_counters; eauto.
Qed.

(** Every run of fewer than [2^31] operations on a fresh manager is defined. *)
Lemma run_init_defined (seed : Rng) ops :
  (Z.of_nat (length ops) <= INT_MAX)%Z -> exists s, run ops (init seed) = Done s.
Proof.
  intros Hlen. apply (run_progress ops (init seed) 0%Z).
  - apply init_ok.
  - lia.
  - lia.
  - constructor.
Qed.

(** [run_returns] is [run] with the draws' results kept. *)
Lemma run_returns_run ops : forall s,
  run ops s =
    match run_returns ops s with
    | Done (_, s') => Done s'
    | Undefined f => Undefined f
    end.
Proof.
  induction ops as [|o ops IH]; intros s; simpl; [reflexivity|].
  destruct o as [n g r|file|now grp| |]; simpl; try apply IH.
  destruct (pickRandom now grp s) as [[x s1]|f]; [|reflexivity].
  rewrite IH. now destruct (run_returns ops s1) as [[tr s2]|f].
Qed.

(** ** Counters and history *)

Lemma step_counts o s s' :
  step o s = Done s' -> o <> ClearHistory ->
  (total_callCount (students_ s') - Z.of_nat (length (history_ s')) =
   total_callCount (students_ s) - Z.of_nat (length (history_ s)))%Z.
Proof.
  destruct o as [n g r|file|now grp| |]; simpl.
  - intros [= <-] _.
    destruct (addStudent_effect n g r s) as (-> & _ & [[_ ->]|(_ & _ & -> & _)]);
      [reflexivity|].
    rewrite total_callCount_app. simpl. lia.
  - intros [= <-] _. destruct file as [input|]; simpl; [|reflexivity].
    pose proof (loadFromStream_effect input (mkImportStats 0 0 0) s) as Hl.
    destruct (loadFromStream input (mkImportStats 0 0 0) s) as [stats s1].
    simpl in *. destruct Hl as (-> & _ & _ & _ & new & -> & Hz & _).
    rewrite total_callCount_app.
    assert (total_callCount new = 0%Z) as ->; [|lia].
    induction Hz as [|st new [Hc _] _ IH]; simpl; [reflexivity|]. rewrite Hc, IH. lia.
  - destruct (pickRandom now grp s) as [[x s1]|f] eqn:E; [|discriminate].
    intros [= <-] _.
    destruct (pickRandom_effect _ _ _ _ _ E)
      as [(_ & -> & ->)|(idx & st0 & Hl & _ & -> & ->)]; [reflexivity|].
    rewrite (total_callCount_insert _ _ _ Hl), length_app. simpl. lia.
  - now intros [= <-].
  - intros _ Hne. contradiction.
Qed.

Lemma step_history_bound o s s' :
  step o s = Done s' ->
  (Z.of_nat (length (history_ s)) <= total_callCount (students_ s))%Z ->
  (Z.of_nat (length (history_ s')) <= total_callCount (students_ s'))%Z.
Proof.
  intros Hstep Hle.
  assert (Hcase : o = ClearHistory \/ o <> ClearHistory)
    by (destruct o; auto; right; discriminate).
  destruct Hcase as [->|Hne].
  - simpl in Hstep. injection Hstep as <-. simpl. lia.
  - pose proof (step_counts o s s' Hstep Hne). lia.
Qed.

(** C1, as the code has it. Along every run of insert, import, draw and
    resetCycle from the empty store the counters add up to the length of the
    history; [clearHistory] empties the history and leaves the counters, so
    with it among the operations the history is at most as long as the
    counters' sum. *)
Theorem counters_match_history seed ops s :
  run ops (init seed) = Done s ->
  (Z.of_nat (length (history_ s)) <= total_callCount (students_ s))%Z /\
  (Forall (fun o => o <> ClearHistory) ops ->
     total_callCount (students_ s) = Z.of_nat (length (history_ s))).
Proof.
  intros Hrun. split.
  - refine (run_preserves
              (fun s => (Z.of_nat (length (history_ s)) <= total_callCount (students_ s))%Z)
              (fun _ => True) _ ops (init seed) s _ _ Hrun).
    + intros o s0 s1 _ Hle Hstep. eapply step_history_bound; eauto.
    + apply List.Forall_forall. auto.
    + simpl. lia.
  - intros Hno.
    refine (run_preserves
              (fun s => total_callCount (students_ s) = Z.of_nat (length (history_ s)))
              (fun o => o <> ClearHistory) _ ops (init seed) s Hno _ Hrun).
    + intros o s0 s1 Hne Heq Hstep. pose proof (step_counts o s0 s1 Hstep Hne). lia.
    + reflexivity.
Qed.

(** ** Replenishing and invalidation *)

Lemma members_spec grp l j :
  In j (members grp l) <-> exists st, l !! j = Some st /\ in_scope grp st.
Proof.
  destruct grp as [g|]; simpl.
  - rewrite group_indices_spec, Nat.sub_0_r. split.
    + intros [_ Hst]. exact Hst.
    + intros Hst. split; [lia|exact Hst].
  - rewrite in_seq. split.
    + intros [_ Hlt]. destruct (lookup_lt_is_Some_2 l j Hlt) as [st Hst]. eauto.
    + intros (st & Hst & _). apply lookup_lt_Some in Hst. lia.
Qed.

Lemma members_NoDup grp l : NoDup (members grp l).
Proof. destruct grp; simpl; [apply group_indices_NoDup|apply NoDup_seq]. Qed.

(** A successful draw that found its pool empty: the handle it consumed and
    the handles it left in the pool are the scope's members. *)
Lemma pickRandom_replenishes now grp s st s' :
  deref (scope_ref grp) s = [] ->
  pickRandom now grp s = Done (Some st, s') ->
  exists idx st0,
    students_ s !! idx = Some st0 /\ st = bump st0 /\
    Permutation (idx :: deref (scope_ref grp) s') (members grp (students_ s)).
Proof.
  intros Hempty Hpick.
  assert (Hne : students_ s <> []).
  { intros E. unfold pickRandom in Hpick. rewrite E in Hpick. discriminate. }
  rewrite pickRandom_unfold in Hpick by exact Hne.
  destruct (prepared_effect grp s) as (Hs & _ & _ & _ & Hperm).
  specialize (Hperm Hempty).
  apply draw_effect in Hpick.
  destruct Hpick as [(Hx & _)|(idx & rest & st0 & Hd & Hl & [= ->] & _ & _ & Hd' & _)];
    [discriminate|].
  exists idx, st0. rewrite Hs in Hl. rewrite Hd', <- Hd.
  split; [exact Hl|]. split; [reflexivity|exact Hperm].
Qed.

(** C3. What a refill installs is a permutation of the scope's current
    members: every handle of the store for the global pool, the handles of
    the students whose group is the key for a group pool. A draw that finds
    its pool empty or absent consumes one handle of that permutation and
    leaves the others in the pool. *)
Theorem replenish_installs_membership s :
  Permutation (globalPool_ (refillGlobalPool s)) (seq 0 (length (students_ s))) /\
  (forall g,
     Permutation (deref (GroupPool g) (refillGroupPool g s))
                 (group_indices g 0 (students_ s))) /\
  (forall grp,
     NoDup (members grp (students_ s)) /\
     forall j, In j (members grp (students_ s)) <->
               exists st, students_ s !! j = Some st /\ in_scope grp st) /\
  (forall now grp st s',
     deref (scope_ref grp) s = [] ->
     pickRandom now grp s = Done (Some st, s') ->
     exists idx st0,
       students_ s !! idx = Some st0 /\ st = bump st0 /\
       Permutation (idx :: deref (scope_ref grp) s') (members grp (students_ s))).
Proof.
  split; [apply refillGlobalPool_effect|].
  split; [intros g; apply refillGroupPool_effect|].
  split.
  - intros grp. split; [apply members_NoDup|]. intros j. apply members_spec.
  - intros now grp st s'. apply pickRandom_replenishes.
Qed.

Lemma deref_cleared r s : globalPool_ s = [] -> groupPools_ s = ∅ -> deref r s = [].
Proof. intros Hgl Hgr. destruct r; simpl; [exact Hgl|]. now rewrite Hgr, lookup_empty. Qed.

Lemma cleared_ok s : globalPool_ s = [] -> groupPools_ s = ∅ -> pools_ok s.
Proof.
  intros Hgl Hgr. split; [rewrite Hgl; apply pool_ok_nil|].
  intros g p. now rewrite Hgr, lookup_empty.
Qed.

Lemma members_no_students grp : members grp [] = [].
Proof. now destruct grp. Qed.

(** A draw that finds its pool empty while its scope has members refills
    the pool and hands out one of them, unless that member's counter
    overflows. *)
Lemma pickRandom_draws_member now grp s :
  pools_ok s -> deref (scope_ref grp) s = [] ->
  Forall (fun st => (callCount st < INT_MAX)%Z) (students_ s) ->
  members grp (students_ s) <> [] ->
  exists idx st0 s',
    pickRandom now grp s = Done (Some (bump st0), s') /\
    students_ s !! idx = Some st0 /\ in_scope grp st0 /\
    Permutation (idx :: deref (scope_ref grp) s') (members grp (students_ s)).
Proof.
  intros Hok Hempty Hsmall Hmem.
  destruct (pickRandom_progress now grp s Hok Hsmall) as (x & s' & Hpick).
  destruct x as [st|].
  - destruct (pickRandom_replenishes now grp s st s' Hempty Hpick)
      as (idx & st0 & Hl & -> & Hperm).
    exists idx, st0, s'. split; [exact Hpick|]. split; [exact Hl|].
    split; [|exact Hperm].
    assert (Hin : In idx (members grp (students_ s)))
      by (apply (Permutation_in _ Hperm); now left).
    apply members_spec in Hin as (st1 & Hl1 & Hsc). congruence.
  - exfalso.
    assert (Hne : students_ s <> []).
    { intros E. rewrite E, members_no_students in Hmem. now apply Hmem. }
    rewrite pickRandom_unfold in Hpick by exact Hne.
    destruct (prepared_effect grp s) as (_ & _ & _ & _ & Hperm).
    specialize (Hperm Hempty).
    apply draw_effect in Hpick.
    destruct Hpick as [(_ & _ & Hd)|(idx & rest & st0 & _ & _ & Hx & _)];
      [|discriminate].
    rewrite Hd in Hperm. apply Permutation_nil in Hperm. now apply Hmem.
Qed.

(** The same draw on a scope without members finds nobody and leaves the
    students as they are. *)
Lemma pickRandom_no_member now grp s :
  deref (scope_ref grp) s = [] -> members grp (students_ s) = [] ->
  exists s', pickRandom now grp s = Done (None, s') /\
             students_ s' = students_ s /\ deref (scope_ref grp) s' = [].
Proof.
  intros Hempty Hmem.
  destruct (students_ s) as [|st l] eqn:Hst.
  - exists s. unfold pickRandom. rewrite Hst. simpl. auto.
  - rewrite pickRandom_unfold by (rewrite Hst; discriminate).
    destruct (prepared_effect grp s) as (Hs & _ & _ & _ & Hperm).
    specialize (Hperm Hempty). rewrite Hst, Hmem in Hperm.
    apply Permutation_sym, Permutation_nil in Hperm.
    exists (prepared grp s). unfold draw. rewrite Hperm. simpl.
    rewrite Hs, Hst. auto.
Qed.

(** C4. An insert that adds a student with [refreshPools] set, and an import
    from a file that opens, leave the global pool empty and no group pool at
    all. In such a state the next draw on any scope replenishes from the
    students then in the store: on a scope that has a member it returns one
    of its members (counters below [INT_MAX]), and that member's handle
    together with the handles left in the pool are the scope's members; on
    a scope without members it finds nobody. So after the insert the handle
    of the new student is the one drawn or waits in the pool, for the
    global scope and for its group, and after the import so is the handle
    of every student of the store, the imported ones included. *)
Theorem membership_change_clears_pools s n g input :
  (~ In n (map name (students_ s)) ->
     globalPool_ (snd (addStudent n g true s)) = [] /\
     groupPools_ (snd (addStudent n g true s)) = ∅ /\
     students_ (snd (addStudent n g true s)) = students_ s ++ [mkStudent n g 0] /\
     In (length (students_ s)) (members None (students_ s ++ [mkStudent n g 0])) /\
     In (length (students_ s)) (members (Some g) (students_ s ++ [mkStudent n g 0]))) /\
  (globalPool_ (snd (importFromFile (Some input) s)) = [] /\
   groupPools_ (snd (importFromFile (Some input) s)) = ∅) /\
  (forall s1 now grp st s2,
     globalPool_ s1 = [] -> groupPools_ s1 = ∅ ->
     (forall r, deref r s1 = []) /\
     (pickRandom now grp s1 = Done (Some st, s2) ->
      exists idx st0,
        students_ s1 !! idx = Some st0 /\ st = bump st0 /\
        Permutation (idx :: deref (scope_ref grp) s2) (members grp (students_ s1)))) /\
  (forall s1 now grp,
     globalPool_ s1 = [] -> groupPools_ s1 = ∅ ->
     (members grp (students_ s1) = [] ->
      exists s2, pickRandom now grp s1 = Done (None, s2) /\
                 students_ s2 = students_ s1 /\ deref (scope_ref grp) s2 = []) /\
     (members grp (students_ s1) <> [] ->
      Forall (fun st => (callCount st < INT_MAX)%Z) (students_ s1) ->
      exists idx st0 s2,
        pickRandom now grp s1 = Done (Some (bump st0), s2) /\
        students_ s1 !! idx = Some st0 /\ in_scope grp st0 /\
        Permutation (idx :: deref (scope_ref grp) s2) (members grp (students_ s1)))) /\
  (~ In n (map name (students_ s)) ->
   Forall (fun st => (callCount st < INT_MAX)%Z) (students_ s) ->
   forall now grp, in_scope grp (mkStudent n g 0) ->
     exists idx st0 s2,
       pickRandom now grp (snd (addStudent n g true s)) = Done (Some (bump st0), s2) /\
       (students_ s ++ [mkStudent n g 0]) !! idx = Some st0 /\ in_scope grp st0 /\
       Permutation (idx :: deref (scope_ref grp) s2)
                   (members grp (students_ s ++ [mkStudent n g 0])) /\
       (idx = length (students_ s) \/
        In (length (students_ s)) (deref (scope_ref grp) s2))) /\
  (Forall (fun st => (callCount st < INT_MAX)%Z) (students_ s) ->
   forall now grp j stj,
     students_ (snd (importFromFile (Some input) s)) !! j = Some stj ->
     in_scope grp stj ->
     exists idx st0 s2,
       pickRandom now grp (snd (importFromFile (Some input) s)) =
         Done (Some (bump st0), s2) /\
       students_ (snd (importFromFile (Some input) s)) !! idx = Some st0 /\
       in_scope grp st0 /\
       Permutation (idx :: deref (scope_ref grp) s2)
                   (members grp (students_ (snd (importFromFile (Some input) s)))) /\
       (idx = j \/ In j (deref (scope_ref grp) s2))).
Proof.
  assert (Hnew : In (length (students_ s)) (members None (students_ s ++ [mkStudent n g 0])) /\
                 In (length (students_ s))
                    (members (Some g) (students_ s ++ [mkStudent n g 0]))).
  { split.
    - apply in_seq. rewrite length_app. simpl. lia.
    - apply (members_spec (Some g)). exists (mkStudent n g 0). split; [|reflexivity].
      rewrite lookup_app_r by lia. now rewrite Nat.sub_diag. }
  assert (Hdraw : forall s1 now grp,
     globalPool_ s1 = [] -> groupPools_ s1 = ∅ ->
     members grp (students_ s1) <> [] ->
     Forall (fun st => (callCount st < INT_MAX)%Z) (students_ s1) ->
     exists idx st0 s2,
       pickRandom now grp s1 = Done (Some (bump st0), s2) /\
       students_ s1 !! idx = Some st0 /\ in_scope grp st0 /\
       Permutation (idx :: deref (scope_ref grp) s2) (members grp (students_ s1))).
  { intros s1 now grp Hgl Hgr Hmem Hsmall.
    apply pickRandom_draws_member; auto using cleared_ok, deref_cleared. }
  split; [|split; [|split; [|split; [|split]]]].
  - intros Hn. rewrite (addStudent_fresh n g true s Hn). simpl.
    repeat split; try reflexivity; apply Hnew.
  - simpl. destruct (loadFromStream input (mkImportStats 0 0 0) s). now split.
  - intros s1 now grp st s2 Hgl Hgr. split.
    + intros r. now apply deref_cleared.
    + apply pickRandom_replenishes. now apply deref_cleared.
  - intros s1 now grp Hgl Hgr. split.
    + intros Hmem. apply pickRandom_no_member; [now apply deref_cleared|exact Hmem].
    + intros Hmem Hsmall. now apply Hdraw.
  - intros Hn Hsmall now grp Hsc.
    rewrite (addStudent_fresh n g true s Hn). cbn [snd].
    assert (Hin : In (length (students_ s))
                     (members grp (students_ s ++ [mkStudent n g 0]))).
    { destruct grp as [g'|]; [|apply Hnew]. simpl in Hsc. subst g'. apply Hnew. }
    destruct (Hdraw (resetCycle (mkRoster (students_ s ++ [mkStudent n g 0])
                                          (groupPools_ s) (globalPool_ s)
                                          (history_ s) (rng_ s))) now grp)
      as (idx & st0 & s2 & Hpick & Hl & Hsc0 & Hperm); try reflexivity.
    + simpl. intros E. rewrite E in Hin. exact Hin.
    + simpl. apply Forall_app. split; [exact Hsmall|].
      constructor; [reflexivity|constructor].
    + simpl in Hl, Hperm. exists idx, st0, s2.
      split; [exact Hpick|]. split; [exact Hl|]. split; [exact Hsc0|].
      split; [exact Hperm|].
      apply (Permutation_in _ (Permutation_sym Hperm)) in Hin.
      destruct Hin as [Heq|Hin]; [left; exact Heq|right; exact Hin].
  - intros Hsmall now grp j stj Hj Hsc.
    pose proof (loadFromStream_effect input (mkImportStats 0 0 0) s) as Hload.
    cbn [importFromFile] in *.
    destruct (loadFromStream input (mkImportStats 0 0 0) s) as [stats s1].
    cbn [snd] in *. destruct Hload as (_ & _ & _ & _ & new & Hst & Hzero & _).
    assert (Hin : In j (members grp (students_ (resetCycle s1)))).
    { apply members_spec. exists stj. split; [exact Hj|exact Hsc]. }
    destruct (Hdraw (resetCycle s1) now grp)
      as (idx & st0 & s2 & Hpick & Hl & Hsc0 & Hperm); try reflexivity.
    + intros E. rewrite E in Hin. exact Hin.
    + simpl. rewrite Hst. apply Forall_app. split; [exact Hsmall|].
      eapply Forall_impl; [exact Hzero|]. simpl. intros st (Hc & _). rewrite Hc.
      reflexivity.
    + exists idx, st0, s2.
      split; [exact Hpick|]. split; [exact Hl|]. split; [exact Hsc0|].
      split; [exact Hperm|].
      apply (Permutation_in _ (Permutation_sym Hperm)) in Hin.
      destruct Hin as [Heq|Hin]; [left; exact Heq|right; exact Hin].
Qed.

(** ** History queries *)

Lemma printHistory_loop_records limit : forall it count,
  printed_records (printHistory_loop limit count it) =
    if limit =? 0 then it else firstn (Nat.max 1 (limit - count)) it.
Proof.
  induction it as [|r rest IH]; intros count; simpl.
  - destruct (limit =? 0); [reflexivity|now rewrite firstn_nil].
  - destruct (Nat.eqb_spec limit 0) as [->|Hpos]; simpl.
    + f_equal. rewrite IH. reflexivity.
    + destruct (Nat.leb_spec limit (S count)) as [Hle|Hgt]; simpl.
      * replace (Nat.max 1 (limit - count)) with 1 by lia. reflexivity.
      * rewrite IH. destruct (Nat.eqb_spec limit 0); [contradiction|].
        replace (Nat.max 1 (limit - count)) with (S (Nat.max 1 (limit - S count))) by lia.
        reflexivity.
Qed.

Lemma printHistory_records limit s :
  printed_records (printHistory limit s) =
    if limit =? 0 then rev (history_ s) else firstn limit (rev (history_ s)).
Proof.
  unfold printHistory. destruct (history_ s) as [|r h] eqn:E.
  - simpl. destruct (limit =? 0); [reflexivity|now rewrite firstn_nil].
  - cbn [is_nil]. rewrite printHistory_loop_records, Nat.sub_0_r.
    destruct (Nat.eqb_spec limit 0); [reflexivity|].
    now replace (Nat.max 1 limit) with limit by lia.
Qed.

Lemma pickRandom_record now grp s st s' :
  pickRandom now grp s = Done (Some st, s') ->
  history_ s' = history_ s ++ [mkCallRecord (name st) (group st) now].
Proof.
  intros Hp. destruct (pickRandom_effect _ _ _ _ _ Hp)
    as [(Hx & _)|(idx & st0 & _ & [= ->] & _ & ->)]; [discriminate|reflexivity].
Qed.

(** C8. The records [printHistory] writes are, for a positive limit, the
    first [limit] of the history read backwards, and for limit zero the whole
    history read backwards. After three successive successful draws a query
    with limit 2 writes the third draw's record and then the second's. *)
Theorem printHistory_most_recent_first :
  (forall limit s,
     printed_records (printHistory limit s) =
       if limit =? 0 then rev (history_ s) else firstn limit (rev (history_ s))) /\
  (forall s0 t1 t2 t3 (scope1 scope2 scope3 : option string) d1 d2 d3 s1 s2 s3,
     pickRandom t1 scope1 s0 = Done (Some d1, s1) ->
     pickRandom t2 scope2 s1 = Done (Some d2, s2) ->
     pickRandom t3 scope3 s2 = Done (Some d3, s3) ->
     printHistory 2 s3 =
       [RecordLine (mkCallRecord (name d3) (group d3) t3);
        RecordLine (mkCallRecord (name d2) (group d2) t2)]).
Proof.
  split; [exact printHistory_records|].
  intros s0 t1 t2 t3 scope1 scope2 scope3 d1 d2 d3 s1 s2 s3 H1 H2 H3.
  apply pickRandom_record in H1, H2, H3.
  unfold printHistory. rewrite H3.
  assert (is_nil (history_ s2 ++ [mkCallRecord (name d3) (group d3) t3]) = false) as ->
    by (apply is_nil_false; now destruct (history_ s2)).
  rewrite H2, H1, !rev_app_distr. reflexivity.
Qed.

(** ** Cycles: no repeat before exhaustion *)

Lemma scope_eqb_eq a b : scope_eqb a b = true <-> a = b.
Proof.
  destruct a as [x|], b as [y|]; simpl; try (split; congruence).
  rewrite String.eqb_eq. split; congruence.
Qed.

Lemma scope_ref_inj a b : scope_ref a = scope_ref b -> a = b.
Proof. destruct a, b; simpl; congruence. Qed.

Lemma nth_map_name l idx st :
  l !! idx = Some st -> nth idx (map name l) "" = name st.
Proof.
  revert idx. induction l as [|x l IH]; intros [|idx] Hl; simpl in *; try discriminate.
  - now inversion Hl.
  - now apply IH.
Qed.

Lemma names_at_seq (names : list string) :
  map (fun i => nth i names "") (seq 0 (length names)) = names.
Proof.
  induction names as [|x names IH]; simpl; [reflexivity|].
  f_equal. rewrite <- seq_shift, map_map. exact IH.
Qed.

Lemma group_indices_shift g l : forall i,
  group_indices g (S i) l = map S (group_indices g i l).
Proof.
  induction l as [|st l IH]; intros i; simpl; [reflexivity|].
  destruct (String.eqb (group st) g); simpl; now rewrite IH.
Qed.

Lemma names_at_members grp l : names_at l (members grp l) = scope_names grp l.
Proof.
  unfold names_at. destruct grp as [g|]; simpl.
  - induction l as [|st l IH]; simpl; [reflexivity|].
    rewrite group_indices_shift.
    destruct (String.eqb (group st) g); simpl; rewrite map_map; simpl; now rewrite IH.
  - rewrite <- (length_map name). apply names_at_seq.
Qed.

Lemma names_at_ext l l' p : map name l' = map name l -> names_at l' p = names_at l p.
Proof. unfold names_at. now intros ->. Qed.

Lemma group_indices_ext g l : forall l' i,
  map group l' = map group l -> group_indices g i l' = group_indices g i l.
Proof.
  induction l as [|st l IH]; intros [|st' l'] i Hm; simpl in *; try discriminate;
    [reflexivity|].
  injection Hm as -> Hm. now rewrite (IH l' (S i) Hm).
Qed.

Lemma members_ext grp l l' : map group l' = map group l -> members grp l' = members grp l.
Proof.
  intros Hm. destruct grp as [g|]; simpl; [now apply group_indices_ext|].
  now rewrite <- (length_map group l'), Hm, length_map.
Qed.

Lemma scope_names_ext grp l l' :
  map name l' = map name l -> map group l' = map group l ->
  scope_names grp l' = scope_names grp l.
Proof.
  intros Hn Hg. rewrite <- !names_at_members, (members_ext grp l l' Hg).
  now apply names_at_ext.
Qed.

Lemma names_at_NoDup l p :
  NoDup (map name l) -> pool_ok (length l) p -> NoDup (names_at l p).
Proof.
  intros Hnames [Hnd Hall]. unfold names_at.
  apply NoDup_ListNoDup in Hnames.
  induction p as [|i p IH]; simpl; [constructor|].
  inversion Hnd as [|? ? Hni Hnd']; inversion Hall as [|? ? Hi Hall']; subst.
  constructor; [|now apply IH].
  intros Hin. apply list_elem_of_In, in_map_iff in Hin. destruct Hin as (j & Hj & Hjp).
  assert (j = i).
  { rewrite List.Forall_forall in Hall'.
    eapply (proj1 (List.NoDup_nth (map name l) "") Hnames);
      rewrite ?length_map; auto. }
  subst j. apply Hni. now apply list_elem_of_In.
Qed.

Lemma no_repeat_until_all_app all c rest :
  NoDup c -> (rest <> [] -> forall m, In m all -> In m c) ->
  no_repeat_until_all all (c ++ rest).
Proof.
  intros Hnd Hall before x after Heq Hin m Hm.
  apply app_eq_app in Heq. destruct Heq as [k [[Hc Hrest]|[Hb Hrest]]].
  - destruct k as [|y k].
    + rewrite app_nil_r in Hc. subst c. simpl in Hrest.
      apply Hall; [now rewrite <- Hrest|exact Hm].
    + simpl in Hrest. injection Hrest as <- _. subst c.
      apply NoDup_app in Hnd as (_ & Hdisj & _). exfalso.
      apply (Hdisj x); [now apply list_elem_of_In|]. left.
  - subst before. apply in_or_app. left. apply Hall; [|exact Hm].
    intros ->. destruct k; discriminate.
Qed.

(** A draw leaves the pools of the other scopes alone. *)
Lemma deref_assign_ne r r' p s : r' <> r -> deref r' (assign r p s) = deref r' s.
Proof.
  intros Hne. destruct r as [|g], r' as [|g']; simpl; try reflexivity; try congruence.
  rewrite lookup_insert_ne; [reflexivity|congruence].
Qed.

Lemma deref_pools r s s' :
  globalPool_ s' = globalPool_ s -> groupPools_ s' = groupPools_ s ->
  deref r s' = deref r s.
Proof. intros Hgl Hgr. destruct r; simpl; congruence. Qed.

Lemma prepared_frame grp s r :
  r <> scope_ref grp -> deref r (prepared grp s) = deref r s.
Proof.
  intros Hne. destruct grp as [g|]; cbn [prepared scope_ref] in *.
  - destruct (subscript_effect g s) as (_ & _ & Hgl1 & _ & Hd1).
    destruct (is_nil (deref (GroupPool g) (subscript g s))).
    + destruct (subscript_effect g (refillGroupPool g (subscript g s))) as (_ & _ & _ & _ & Hd3).
      rewrite Hd3, <- (Hd1 r).
      destruct (refillGroupPool_effect g (subscript g s)) as (_ & Hgl & _ & _ & Hother & _).
      destruct r as [|g']; simpl; [exact Hgl|].
      rewrite Hother; [reflexivity|congruence].
    + destruct (subscript_effect g (subscript g s)) as (_ & _ & _ & _ & Hd3).
      now rewrite Hd3, Hd1.
  - destruct (is_nil (globalPool_ s)); [|reflexivity].
    destruct (refillGlobalPool_effect s) as (_ & Hgr & _).
    destruct r as [|g']; simpl; [congruence|now rewrite Hgr].
Qed.

Lemma draw_frame now r s x s' r' :
  draw now r s = Done (x, s') -> r' <> r -> deref r' s' = deref r' s.
Proof.
  unfold draw. destruct (is_nil (deref r s)); [now intros [= <- <-]|].
  destruct (consumeIndex now r s) as [[st s1]|f] eqn:Hc; [|discriminate].
  intros [= <- <-] Hne.
  destruct (consumeIndex_Done _ _ _ _ _ Hc)
    as (idx & rest & st0 & _ & _ & _ & _ & _ & _ & Hgl & Hgr & _).
  rewrite (deref_pools r' _ _ Hgl Hgr). now apply deref_assign_ne.
Qed.

Lemma pickRandom_frame now grp s x s' r :
  pickRandom now grp s = Done (x, s') -> r <> scope_ref grp -> deref r s' = deref r s.
Proof.
  intros Hp Hne. destruct (students_ s) as [|st l] eqn:Hst.
  - unfold pickRandom in Hp. rewrite Hst in Hp. simpl in Hp. now injection Hp as <- <-.
  - rewrite pickRandom_unfold in Hp by (rewrite Hst; discriminate).
    rewrite (draw_frame _ _ _ _ _ r Hp Hne). now apply prepared_frame.
Qed.

Lemma pickRandom_keeps_names now grp s x s' :
  pickRandom now grp s = Done (x, s') ->
  map name (students_ s') = map name (students_ s) /\
  map group (students_ s') = map group (students_ s).
Proof.
  intros Hp. destruct (pickRandom_effect _ _ _ _ _ Hp)
    as [(_ & -> & _)|(idx & st0 & Hl & _ & -> & _)]; [now split|].
  split; [now apply map_name_insert|now apply map_group_insert].
Qed.

(** One draw on the scope under study: it hands out the front of the pool,
    or, on an empty pool, the front of a fresh permutation of the members. *)
Lemma pickRandom_same_scope now grp s x s' :
  pools_ok s -> pickRandom now grp s = Done (x, s') ->
  match deref (scope_ref grp) s with
  | idx :: rest =>
      exists st, x = Some st /\ name st = nth idx (map name (students_ s)) "" /\
                 deref (scope_ref grp) s' = rest
  | [] =>
      (x = None /\ deref (scope_ref grp) s' = []) \/
      (exists idx rest st,
         Permutation (idx :: rest) (members grp (students_ s)) /\
         x = Some st /\ name st = nth idx (map name (students_ s)) "" /\
         deref (scope_ref grp) s' = rest)
  end.
Proof.
  intros Hok Hp.
  destruct (students_ s) as [|st1 l] eqn:Hst.
  { unfold pickRandom in Hp. rewrite Hst in Hp. simpl in Hp. injection Hp as <- <-.
    pose proof (deref_ok (scope_ref grp) s Hok) as [_ Hall]. rewrite Hst in Hall.
    destruct (deref (scope_ref grp) s) as [|idx rest]; [now left|].
    inversion Hall; subst. simpl in *. lia. }
  rewrite pickRandom_unfold in Hp by (rewrite Hst; discriminate).
  destruct (prepared_effect grp s) as (Hs & _ & _ & Hkeep & Hperm).
  apply draw_effect in Hp.
  destruct (deref (scope_ref grp) s) as [|idx rest] eqn:Hd.
  - specialize (Hperm eq_refl).
    destruct Hp as [(-> & -> & Hd')|(idx & rest & st0 & Hd' & Hl & -> & _ & _ & Hd'' & _)].
    + left. now split.
    + right. exists idx, rest, (bump st0). rewrite Hd' in Hperm. rewrite Hs in Hl.
      rewrite <- Hst. repeat split; auto. simpl. symmetry. now apply nth_map_name.
  - rewrite Hkeep in Hp by discriminate.
    destruct Hp as [(_ & _ & Hd')|(idx' & rest' & st0 & Hd' & Hl & -> & _ & _ & Hd'' & _)];
      [discriminate|].
    injection Hd' as <- <-. exists (bump st0). rewrite Hs in Hl. rewrite <- Hst.
    repeat split; auto. simpl. symmetry. now apply nth_map_name.
Qed.

Lemma scope_names_NoDup grp l : NoDup (map name l) -> NoDup (scope_names grp l).
Proof.
  intros Hnd. rewrite <- names_at_members. apply names_at_NoDup; [exact Hnd|].
  destruct grp as [g|]; simpl; [apply pool_ok_group|apply pool_ok_seq].
Qed.

Lemma cycle_goal_intro all c q rest :
  NoDup all -> Permutation (c ++ q) all -> (rest <> [] -> q = []) ->
  cycle_goal all (c ++ rest).
Proof.
  intros Hnd Hperm Hq.
  assert (Hc : NoDup c).
  { rewrite <- Hperm in Hnd. now apply NoDup_app in Hnd as (? & _). }
  split.
  - apply no_repeat_until_all_app; [exact Hc|].
    intros Hrest m Hm. rewrite (Hq Hrest), app_nil_r in Hperm.
    eapply Permutation_in; [symmetry; exact Hperm|exact Hm].
  - intros Hlen. pose proof (Permutation_length Hperm) as Hl.
    rewrite !length_app in *.
    assert (q = []) as ->.
    { destruct rest as [|y rest]; [|apply Hq; discriminate].
      simpl in Hlen. destruct q; [reflexivity|]. simpl in Hl. lia. }
    rewrite app_nil_r in Hperm. simpl in Hl. rewrite Nat.add_0_r in Hl.
    rewrite <- Hl, firstn_app, Nat.sub_diag, firstn_all. simpl.
    now rewrite app_nil_r.
Qed.

Lemma cycle_goal_nil all : cycle_goal all [].
Proof.
  split.
  - intros before x after Heq. destruct before; discriminate.
  - simpl. intros Hlen. destruct all; [constructor|simpl in Hlen; lia].
Qed.

Lemma returned_by_cons grp grp' st tr :
  returned_by grp ((grp', st) :: tr) =
    if scope_eqb grp' grp then name st :: returned_by grp tr else returned_by grp tr.
Proof. unfold returned_by. simpl. now destruct (scope_eqb grp' grp). Qed.

Lemma run_returns_cycle grp : forall ops s c tr s',
  forallb keeps_cycle ops = true ->
  pools_ok s -> NoDup (map name (students_ s)) -> cycle_state grp c s ->
  run_returns ops s = Done (tr, s') ->
  cycle_goal (scope_names grp (students_ s)) (c ++ returned_by grp tr).
Proof.
  induction ops as [|o ops IH]; intros s c tr s' Hall Hok Hnd Hcy Hrun.
  - simpl in Hrun. injection Hrun as <- <-.
    destruct Hcy as [[-> Hd]|Hperm].
    + apply cycle_goal_nil.
    + apply (cycle_goal_intro _ c (names_at (students_ s) (deref (scope_ref grp) s)) []).
      * now apply scope_names_NoDup.
      * exact Hperm.
      * intros Hne. now contradiction Hne.
  - simpl in Hall. apply andb_true_iff in Hall as [Ho Hall].
    destruct o as [n g r|file|now grp'| |]; try discriminate.
    + (* a draw *)
      cbn [run_returns] in Hrun.
      destruct (pickRandom now grp' s) as [[x s1]|f] eqn:Hp; [|discriminate].
      destruct (run_returns ops s1) as [[tr1 s2]|f] eqn:Hrest; [|discriminate].
      injection Hrun as <- <-.
      pose proof (pickRandom_ok _ _ _ _ _ Hp Hok) as Hok1.
      destruct (pickRandom_keeps_names _ _ _ _ _ Hp) as [Hn Hg].
      assert (Hnd1 : NoDup (map name (students_ s1))) by now rewrite Hn.
      pose proof (scope_names_ext grp _ _ Hn Hg) as Hsc.
      specialize (IH s1). rewrite Hsc in IH.
      destruct (scope_eqb grp' grp) eqn:Hsame.
      * apply scope_eqb_eq in Hsame. subst grp'.
        pose proof (pickRandom_same_scope _ _ _ _ _ Hok Hp) as Hfront.
        unfold cycle_state in Hcy.
        destruct (deref (scope_ref grp) s) as [|idx rest0] eqn:Hd.
        -- destruct Hcy as [[-> _]|Hperm].
           ++ destruct Hfront as [[-> Hd1]|(idx & rest0 & st & Hm & -> & Hname & Hd1)].
              ** apply (IH [] tr1 s2); auto. left. now split.
              ** rewrite returned_by_cons.
                 assert (scope_eqb grp grp = true) as -> by now apply scope_eqb_eq.
                 apply (IH [name st] tr1 s2); auto. right.
                 rewrite Hd1, (names_at_ext _ _ _ Hn), Hsc, <- names_at_members.
                 simpl. rewrite Hname.
                 exact (Permutation_map (fun i => nth i (map name (students_ s)) "") Hm).
           ++ simpl in Hperm. rewrite app_nil_r in Hperm.
              eapply cycle_goal_intro; eauto using scope_names_NoDup.
              now rewrite app_nil_r.
        -- destruct Hfront as (st & -> & Hname & Hd1).
           rewrite returned_by_cons.
           assert (scope_eqb grp grp = true) as -> by now apply scope_eqb_eq.
           destruct Hcy as [[_ [=]]|Hperm].
           replace (c ++ name st :: returned_by grp tr1)
             with ((c ++ [name st]) ++ returned_by grp tr1)
             by now rewrite <- app_assoc.
           apply (IH (c ++ [name st]) tr1 s2); auto. right.
           rewrite Hd1, (names_at_ext _ _ _ Hn), Hsc, <- app_assoc. simpl.
           rewrite Hname. exact Hperm.
      * assert (Hne : scope_ref grp <> scope_ref grp').
        { intros E. apply scope_ref_inj in E. subst grp'.
          assert (scope_eqb grp grp = true) by now apply scope_eqb_eq. congruence. }
        assert (Htr : returned_by grp (match x with Some st => (grp', st) :: tr1 | None => tr1 end)
                      = returned_by grp tr1).
        { destruct x; [|reflexivity]. now rewrite returned_by_cons, Hsame. }
        rewrite Htr. apply (IH c tr1 s2); auto.
        unfold cycle_state.
        rewrite (pickRandom_frame _ _ _ _ _ _ Hp Hne), (names_at_ext _ _ _ Hn), Hsc.
        exact Hcy.
    + (* clearHistory *)
      cbn [run_returns step] in Hrun.
      apply (IH (clearHistory s) c tr s'); auto.
Qed.

(** C2, as the code has it. Take a reachable state in which the pool of one
    scope is empty or absent (as it is at start-up, after an insert that
    refreshes the pools, an import or a reset, and after the last draw of a
    cycle), and run draws on any scopes and [clearHistory] calls from it,
    with no insert, import or reset. Then among the identities the draws on
    that scope return, none occurs a second time before every identity of
    the scope has occurred, and the first as many as the scope has members
    are exactly its members. (The run is one in which no counter overflows;
    [run_progress] says when that is so.) *)
Theorem no_repeat_before_exhaustion s grp ops tr s' :
  reachable s ->
  deref (scope_ref grp) s = [] ->
  forallb keeps_cycle ops = true ->
  run_returns ops s = Done (tr, s') ->
  no_repeat_until_all (scope_names grp (students_ s)) (returned_by grp tr) /\
  (length (scope_names grp (students_ s)) <= length (returned_by grp tr) ->
   Permutation (firstn (length (scope_names grp (students_ s))) (returned_by grp tr))
               (scope_names grp (students_ s))).
Proof.
  intros Hr Hd Hops Hrun.
  apply (run_returns_cycle grp ops s [] tr s' Hops); auto.
  - now apply reachable_pools_ok.
  - now apply reachable_names.
  - left. now split.
Qed.

End Properties.

(** * Further properties

    Properties of the same code beyond the sentences of the specification
    checked above. *)

Section Further.

Context {Rng : Type} `{Shuffler Rng}.

Implicit Types (s : RosterManager Rng) (n g : string) (l : list Student).

(** ** The store along a run *)

Lemma run_app ops1 : forall ops2 s,
  run (ops1 ++ ops2) s =
    match run ops1 s with
    | Done s1 => run ops2 s1
    | Undefined f => Undefined f
    end.
Proof.
  induction ops1 as [|o ops1 IH]; intros ops2 s; simpl; [reflexivity|].
  destruct (step o s) as [s1|f]; [apply IH|reflexivity].
Qed.

Lemma reachable_step o s s' : reachable s -> step o s = Done s' -> reachable s'.
Proof.
  intros (seed & ops & Hrun) Hstep. exists seed, (ops ++ [o]).
  rewrite run_app, Hrun. simpl. now rewrite Hstep.
Qed.

Lemma reachable_run ops s s' : reachable s -> run ops s = Done s' -> reachable s'.
Proof.
  intros (seed & ops0 & Hrun0) Hrun. exists seed, (ops0 ++ ops).
  now rewrite run_app, Hrun0.
Qed.

Lemma lookup_map_name l i st : l !! i = Some st -> map name l !! i = Some (name st).
Proof.
  revert i. induction l as [|x l IH]; intros [|i] Hl; simpl in *; try discriminate.
  - now inversion Hl.
  - now apply IH.
Qed.

Lemma unique_handle l i j st1 st2 :
  NoDup (map name l) -> l !! i = Some st1 -> l !! j = Some st2 ->
  name st1 = name st2 -> i = j.
Proof.
  intros Hnd Hi Hj Heq. apply lookup_map_name in Hi, Hj. rewrite Heq in Hi.
  eapply NoDup_lookup; eauto.
Qed.

(** X1. In every reachable state no two students have the same name: a name
    determines its handle. *)
Theorem identities_stay_unique s :
  reachable s ->
  NoDup (map name (students_ s)) /\
  forall i j st1 st2,
    students_ s !! i = Some st1 -> students_ s !! j = Some st2 ->
    name st1 = name st2 -> i = j /\ st1 = st2.
Proof.
  intros Hr. pose proof (reachable_names s Hr) as Hnd. split; [exact Hnd|].
  intros i j st1 st2 Hi Hj Heq.
  assert (i = j) by (eapply unique_handle; eauto). subst j.
  split; [reflexivity|congruence].
Qed.

Lemma extends_refl s : extends s s.
Proof. intros idx st Hl. exists st. repeat split; auto. lia. Qed.

Lemma extends_trans s1 s2 s3 : extends s1 s2 -> extends s2 s3 -> extends s1 s3.
Proof.
  intros H12 H23 idx st Hl.
  destruct (H12 idx st Hl) as (st2 & Hl2 & Hn2 & Hg2 & Hc2).
  destruct (H23 idx st2 Hl2) as (st3 & Hl3 & Hn3 & Hg3 & Hc3).
  exists st3. repeat split; try congruence. lia.
Qed.

Lemma extends_app s s' new :
  students_ s' = students_ s ++ new -> extends s s'.
Proof.
  intros Hs idx st Hl. exists st. rewrite Hs. repeat split; try lia.
  rewrite lookup_app_l; [exact Hl|]. eapply lookup_lt_Some; eauto.
Qed.

Lemma step_extends o s s' : step o s = Done s' -> extends s s'.
Proof.
  destruct o as [n g r|file|now grp| |]; simpl.
  - intros [= <-].
    destruct (addStudent_effect n g r s) as (_ & _ & [[_ ->]|(_ & _ & Hs & _)]);
      [apply extends_refl|]. eapply extends_app; eauto.
  - intros [= <-]. destruct file as [input|]; simpl; [|apply extends_refl].
    pose proof (loadFromStream_effect input (mkImportStats 0 0 0) s) as Hl.
    destruct (loadFromStream input (mkImportStats 0 0 0) s) as [stats s1].
    simpl in *. destruct Hl as (_ & _ & _ & _ & new & Hs & _).
    eapply (extends_app s (resetCycle s1)); simpl; eauto.
  - destruct (pickRandom now grp s) as [[x s1]|f] eqn:E; [|discriminate].
    intros [= <-].
    destruct (pickRandom_effect _ _ _ _ _ E)
      as [(_ & Hs & _)|(idx & st0 & Hl & _ & Hs & _)].
    + intros i st Hi. exists st. rewrite Hs. repeat split; auto. lia.
    + intros i st Hi. rewrite Hs. destruct (Nat.eq_dec i idx) as [->|Hne].
      * rewrite Hl in Hi. inversion Hi; subst. exists (bump st).
        rewrite list_lookup_insert_eq by (eapply lookup_lt_Some; eauto).
        repeat split. simpl. lia.
      * exists st. rewrite list_lookup_insert_ne by congruence.
        repeat split; auto. lia.
  - intros [= <-]. apply (extends_app s (resetCycle s) []). simpl. now rewrite app_nil_r.
  - intros [= <-]. apply (extends_app s (clearHistory s) []). simpl. now rewrite app_nil_r.
Qed.

(** X2. No operation removes, renames, regroups or moves a student, and no
    counter ever goes down: after any run every student of the state before
    is found at the same handle with the same name and group and a counter
    at least as large, and the store is at least as long. *)
Theorem store_only_grows ops s s' :
  run ops s = Done s' ->
  extends s s' /\ length (students_ s) <= length (students_ s').
Proof.
  intros Hrun.
  assert (Hext : extends s s').
  { refine (run_preserves (fun x => extends s x) (fun _ => True) _ ops s s' _ _ Hrun).
    - intros o x x' _ Hx Hstep. eapply extends_trans; [exact Hx|].
      eapply step_extends; eauto.
    - apply List.Forall_forall. auto.
    - apply extends_refl. }
  split; [exact Hext|].
  destruct (Nat.le_gt_cases (length (students_ s)) (length (students_ s'))) as [Hle|Hgt];
    [exact Hle|exfalso].
  destruct (lookup_lt_is_Some_2 (students_ s) (length (students_ s'))) as [st Hst];
    [lia|].
  destruct (Hext _ _ Hst) as (st' & Hst' & _).
  apply lookup_lt_Some in Hst'. lia.
Qed.

(** ** Each student's records in the history *)

Lemma records_of_app n h1 h2 :
  records_of n (h1 ++ h2) = records_of n h1 + records_of n h2.
Proof. unfold records_of. now rewrite List.filter_app, length_app. Qed.

Lemma records_of_unknown n s :
  history_known s -> ~ In n (map name (students_ s)) -> records_of n (history_ s) = 0.
Proof.
  intros Hk Hn. unfold records_of.
  assert (Hall : forall r, In r (history_ s) -> String.eqb (cr_name r) n = false).
  { intros r Hr. apply String.eqb_neq. intros <-.
    destruct (Hk r Hr) as (idx & st & Hl & Hname & _).
    apply Hn. rewrite <- Hname. apply list_elem_of_In.
    apply list_elem_of_lookup. exists idx. now apply lookup_map_name. }
  induction (history_ s) as [|r h IH]; simpl; [reflexivity|].
  rewrite (Hall r) by now left. apply IH. intros r' Hr'. apply Hall. now right.
Qed.

Lemma append_records (R : Z -> Z -> Prop) s s' new :
  R 0%Z 0%Z ->
  students_ s' = students_ s ++ new -> history_ s' = history_ s ->
  Forall (fun st => callCount st = 0%Z /\ ~ In (name st) (map name (students_ s))) new ->
  history_known s -> history_rel R s ->
  history_known s' /\ history_rel R s'.
Proof.
  intros R0 Hs Hh Hnew Hk Hrel. split.
  - intros r Hr. rewrite Hh in Hr. destruct (Hk r Hr) as (idx & st & Hl & Hn & Hg).
    exists idx, st. rewrite Hs. split; [|now split].
    rewrite lookup_app_l; [exact Hl|]. eapply lookup_lt_Some; eauto.
  - intros idx st Hl. rewrite Hs in Hl. rewrite Hh.
    apply lookup_app_Some in Hl as [Hl|[_ Hl]]; [exact (Hrel idx st Hl)|].
    rewrite List.Forall_forall in Hnew.
    assert (Hin : In st new).
    { apply list_elem_of_In. eapply list_elem_of_lookup_2; eauto. }
    destruct (Hnew st Hin) as [Hc Hfresh].
    now rewrite (records_of_unknown _ s Hk Hfresh), Hc.
Qed.

Lemma NoDup_app_fresh l new st :
  NoDup (map name (l ++ new)) -> In st new -> ~ In (name st) (map name l).
Proof.
  rewrite map_app. intros Hnd Hin Hold.
  apply NoDup_app in Hnd as (_ & Hdisj & _).
  apply (Hdisj (name st)); apply list_elem_of_In; [exact Hold|].
  now apply in_map.
Qed.

Lemma step_records (R : Z -> Z -> Prop) o s s' :
  R 0%Z 0%Z -> (forall a b, R a b -> R (a + 1)%Z (b + 1)%Z) ->
  o <> ClearHistory -> step o s = Done s' ->
  NoDup (map name (students_ s)) -> history_known s -> history_rel R s ->
  history_known s' /\ history_rel R s'.
Proof.
  intros R0 RS Hne Hstep Hnd Hk Hrel.
  destruct o as [n g r|file|now grp| |]; simpl in Hstep.
  - injection Hstep as <-.
    destruct (addStudent_effect n g r s) as (Hh & _ & [[_ ->]|(_ & Hfresh & Hs & _)]);
      [now split|].
    apply (append_records R s _ [mkStudent n g 0]); auto.
  - injection Hstep as <-. destruct file as [input|]; simpl; [|now split].
    pose proof (loadFromStream_effect input (mkImportStats 0 0 0) s) as Hl.
    destruct (loadFromStream input (mkImportStats 0 0 0) s) as [stats s1].
    simpl in *. destruct Hl as (Hh & _ & _ & _ & new & Hs & Hz & Hnd').
    apply (append_records R s (resetCycle s1) new); auto.
    apply List.Forall_forall. intros st Hin. split.
    + rewrite List.Forall_forall in Hz. now destruct (Hz st Hin).
    + specialize (Hnd' Hnd). rewrite Hs in Hnd'. eapply NoDup_app_fresh; eauto.
  - destruct (pickRandom now grp s) as [[x s1]|f] eqn:E; [|discriminate].
    injection Hstep as <-.
    destruct (pickRandom_effect _ _ _ _ _ E)
      as [(_ & Hs & Hh)|(idx & st0 & Hl & _ & Hs & Hh)].
    + split.
      * intros r Hr. rewrite Hh in Hr. rewrite Hs. exact (Hk r Hr).
      * intros i st Hi. rewrite Hs in Hi. rewrite Hh. exact (Hrel i st Hi).
    + assert (Hlt : idx < length (students_ s)) by (eapply lookup_lt_Some; eauto).
      split.
      * intros r Hr. rewrite Hh in Hr. rewrite Hs. apply in_app_or in Hr as [Hr|[<-|[]]].
        -- destruct (Hk r Hr) as (i & st & Hi & Hn & Hg).
           destruct (Nat.eq_dec i idx) as [->|Hd].
           ++ exists idx, (bump st0). rewrite list_lookup_insert_eq by exact Hlt.
              rewrite Hl in Hi. inversion Hi; subst. now repeat split.
           ++ exists i, st. rewrite list_lookup_insert_ne by congruence. now repeat split.
        -- exists idx, (bump st0). rewrite list_lookup_insert_eq by exact Hlt.
           now repeat split.
      * intros i st Hi. rewrite Hs in Hi. rewrite Hh, records_of_app.
        destruct (Nat.eq_dec i idx) as [->|Hd].
        -- rewrite list_lookup_insert_eq in Hi by exact Hlt. inversion Hi; subst.
           cbn [bump name callCount].
           unfold records_of at 2. cbn [List.filter cr_name]. rewrite String.eqb_refl.
           cbn [length]. rewrite Nat2Z.inj_add. apply RS. exact (Hrel idx st0 Hl).
        -- rewrite list_lookup_insert_ne in Hi by congruence.
           assert (Hdiff : String.eqb (name st0) (name st) = false).
           { apply String.eqb_neq. intros Heq. apply Hd. symmetry.
             eapply unique_handle; eauto. }
           unfold records_of at 2. cbn [List.filter cr_name]. rewrite Hdiff.
           cbn [length]. rewrite Nat.add_0_r. exact (Hrel i st Hi).
  - injection Hstep as <-. now split.
  - contradiction.
Qed.

Lemma step_records_le o s s' :
  step o s = Done s' ->
  NoDup (map name (students_ s)) -> history_known s -> history_rel Z.le s ->
  history_known s' /\ history_rel Z.le s'.
Proof.
  intros Hstep Hnd Hk Hrel.
  assert (Hcase : o = ClearHistory \/ o <> ClearHistory)
    by (destruct o; auto; right; discriminate).
  destruct Hcase as [->|Hne].
  - simpl in Hstep. injection Hstep as <-. split.
    + intros r [].
    + intros idx st Hl. simpl in Hl. specialize (Hrel idx st Hl). simpl. unfold records_of. simpl. lia.
  - apply (step_records Z.le o s s'); auto; intros; lia.
Qed.

(** X3. Counter and history agree student by student. Along every run from
    the empty store each record of the history names a student of the
    store, with that student's group; no student has more records than its
    counter says; and in a run without [clearHistory] every student's
    counter is exactly the number of its records. *)
Theorem history_counts_per_student (seed : Rng) ops s :
  run ops (init seed) = Done s ->
  (forall r, In r (history_ s) ->
     exists st, In st (students_ s) /\ name st = cr_name r /\ group st = cr_group r) /\
  (forall st, In st (students_ s) ->
     (Z.of_nat (records_of (name st) (history_ s)) <= callCount st)%Z) /\
  (Forall (fun o => o <> ClearHistory) ops ->
   forall st, In st (students_ s) ->
     callCount st = Z.of_nat (records_of (name st) (history_ s))).
Proof.
  intros Hrun.
  assert (Hle : NoDup (map name (students_ s)) /\ history_known s /\ history_rel Z.le s).
  { refine (run_preserves
              (fun x => NoDup (map name (students_ x)) /\ history_known x /\
                        history_rel Z.le x)
              (fun _ => True) _ ops (init seed) s _ _ Hrun).
    - intros o x x' _ (Hnd & Hk & Hr) Hstep. split; [eapply step_names; eauto|].
      eapply step_records_le; eauto.
    - apply List.Forall_forall. auto.
    - split; [constructor|]. split; [intros r []|intros idx st Hl; discriminate]. }
  destruct Hle as (Hnd & Hk & Hrel). split; [|split].
  - intros r Hr. destruct (Hk r Hr) as (idx & st & Hl & Hn & Hg). exists st.
    split; [|now split]. apply list_elem_of_In. eapply list_elem_of_lookup_2; eauto.
  - intros st Hin. apply list_elem_of_In, list_elem_of_lookup in Hin as [idx Hl].
    exact (Hrel idx st Hl).
  - intros Hno.
    assert (Heq : NoDup (map name (students_ s)) /\ history_known s /\
                  history_rel (fun a b => b = a) s).
    { refine (run_preserves
                (fun x => NoDup (map name (students_ x)) /\ history_known x /\
                          history_rel (fun a b => b = a) x)
                (fun o => o <> ClearHistory) _ ops (init seed) s Hno _ Hrun).
      - intros o x x' Hne (Hnd' & Hk' & Hr') Hstep. split; [eapply step_names; eauto|].
        apply (step_records (fun a b => b = a) o x x'); auto. intros; lia.
      - split; [constructor|]. split; [intros r []|intros idx st Hl; discriminate]. }
    destruct Heq as (_ & _ & Hrel').
    intros st Hin. apply list_elem_of_In, list_elem_of_lookup in Hin as [idx Hl].
    exact (Hrel' idx st Hl).
Qed.

(** ** Draws and their scope *)

Lemma members_nil grp : members grp [] = [].
Proof. now destruct grp. Qed.

Lemma members_app grp l new i : In i (members grp l) -> In i (members grp (l ++ new)).
Proof.
  rewrite !members_spec. intros (st & Hl & Hsc). exists st. split; [|exact Hsc].
  rewrite lookup_app_l; [exact Hl|]. eapply lookup_lt_Some; eauto.
Qed.

Lemma members_insert grp l idx st0 :
  l !! idx = Some st0 -> members grp (<[idx := bump st0]> l) = members grp l.
Proof. intros Hl. apply members_ext. now apply map_group_insert. Qed.

(** One defined draw on a store that is not empty, read off the pool its
    last step works on. *)
Lemma pickRandom_step now grp s x s' :
  pickRandom now grp s = Done (x, s') -> students_ s <> [] ->
  match deref (scope_ref grp) (prepared grp s) with
  | [] => x = None /\ students_ s' = students_ s /\ deref (scope_ref grp) s' = []
  | idx :: rest =>
      exists st0, students_ s !! idx = Some st0 /\ x = Some (bump st0) /\
                  students_ s' = <[idx := bump st0]> (students_ s) /\
                  deref (scope_ref grp) s' = rest /\
                  rng_ s' = rng_ (prepared grp s)
  end.
Proof.
  intros Hp Hne. rewrite pickRandom_unfold in Hp by exact Hne.
  destruct (prepared_effect grp s) as (Hs & _).
  apply draw_effect in Hp.
  destruct Hp as [(-> & -> & Hd)|(idx & rest & st0 & Hd & Hl & -> & Hs' & _ & Hd' & Hr)].
  - rewrite Hd. auto.
  - rewrite Hd. exists st0. rewrite <- Hs. auto.
Qed.

Lemma prepared_rng grp s :
  deref (scope_ref grp) s <> [] -> rng_ (prepared grp s) = rng_ s.
Proof.
  intros Hne. destruct grp as [g|]; cbn [prepared scope_ref] in *.
  - destruct (subscript_effect g s) as (_ & _ & _ & Hr1 & Hd1).
    rewrite (Hd1 (GroupPool g)).
    apply is_nil_false in Hne. rewrite Hne.
    destruct (subscript_effect g (subscript g s)) as (_ & _ & _ & Hr2 & _).
    now rewrite Hr2.
  - apply is_nil_false in Hne. simpl in Hne. now rewrite Hne.
Qed.

Lemma scoped_cleared s : globalPool_ s = [] -> groupPools_ s = ∅ -> pools_scoped s.
Proof. intros Hgl Hgr grp i. now rewrite (deref_cleared _ s Hgl Hgr). Qed.

Lemma scoped_grow s s' new :
  globalPool_ s' = globalPool_ s -> groupPools_ s' = groupPools_ s ->
  students_ s' = students_ s ++ new -> pools_scoped s -> pools_scoped s'.
Proof.
  intros Hgl Hgr Hs Hsc grp i. rewrite (deref_pools _ s s' Hgl Hgr), Hs.
  intros Hin. apply members_app. exact (Hsc grp i Hin).
Qed.

Lemma pickRandom_scoped now grp s x s' :
  pickRandom now grp s = Done (x, s') -> pools_ok s -> pools_scoped s -> pools_scoped s'.
Proof.
  intros Hp Hok Hsc grp' i Hin.
  destruct (pickRandom_keeps_names _ _ _ _ _ Hp) as [_ Hg].
  rewrite (members_ext grp' _ _ Hg).
  destruct (scope_eqb grp grp') eqn:Hsame.
  - apply scope_eqb_eq in Hsame. subst grp'.
    pose proof (pickRandom_same_scope _ _ _ _ _ Hok Hp) as Hfront.
    destruct (deref (scope_ref grp) s) as [|idx rest] eqn:Hd.
    + destruct Hfront as [[_ Hd']|(idx & rest & st & Hm & _ & _ & Hd')];
        rewrite Hd' in Hin; [destruct Hin|].
      eapply Permutation_in; [exact Hm|]. now right.
    + destruct Hfront as (st & _ & _ & Hd'). rewrite Hd' in Hin.
      apply Hsc. rewrite Hd. now right.
  - assert (Hne : scope_ref grp' <> scope_ref grp).
    { intros E. apply scope_ref_inj in E. subst grp'.
      assert (scope_eqb grp grp = true) by now apply scope_eqb_eq. congruence. }
    rewrite (pickRandom_frame _ _ _ _ _ _ Hp Hne) in Hin. now apply Hsc.
Qed.

Lemma step_scoped o s s' :
  step o s = Done s' -> pools_ok s -> pools_scoped s -> pools_scoped s'.
Proof.
  destruct o as [n g r|file|now grp| |]; simpl.
  - intros [= <-] _ Hsc.
    destruct (addStudent_effect n g r s) as (_ & _ & [[_ ->]|(_ & _ & Hs & Hp)]);
      [exact Hsc|].
    destruct r; destruct Hp as [Hgl Hgr].
    + now apply scoped_cleared.
    + eapply scoped_grow; eauto.
  - intros [= <-] _ Hsc. destruct file as [input|]; simpl; [|exact Hsc].
    destruct (loadFromStream input (mkImportStats 0 0 0) s) as [stats s1].
    now apply scoped_cleared.
  - destruct (pickRandom now grp s) as [[x s1]|f] eqn:E; [|discriminate].
    intros [= <-]. eapply pickRandom_scoped; eauto.
  - intros [= <-] _ _. now apply scoped_cleared.
  - intros [= <-] _ Hsc. exact Hsc.
Qed.

Lemma reachable_scoped s : reachable s -> pools_ok s /\ pools_scoped s.
Proof.
  revert s. apply (reachable_ind (fun s => pools_ok s /\ pools_scoped s)).
  - intros seed. split; [apply init_ok|]. now apply scoped_cleared.
  - intros o s s' [Hok Hsc] Hstep. split; [eapply step_pools_ok; eauto|].
    eapply step_scoped; eauto.
Qed.

(** The pool a draw works on holds members of its scope only. *)
Lemma prepared_scoped grp s i :
  pools_scoped s -> In i (deref (scope_ref grp) (prepared grp s)) ->
  In i (members grp (students_ s)).
Proof.
  intros Hsc Hin. destruct (prepared_effect grp s) as (_ & _ & _ & Hkeep & Hperm).
  destruct (deref (scope_ref grp) s) as [|idx rest] eqn:Hd.
  - eapply Permutation_in; [apply Hperm; reflexivity|exact Hin].
  - rewrite Hkeep in Hin by discriminate. apply Hsc. now rewrite Hd.
Qed.

(** X4. In a reachable state a draw finds nobody exactly when its scope has
    no member; and the student it returns belongs to the scope: it is the
    student stored at one handle, of the group asked for, returned with its
    counter raised by one, which is also what the store holds afterwards. *)
Theorem draw_returns_member now grp s x s' :
  reachable s ->
  pickRandom now grp s = Done (x, s') ->
  (x = None <-> members grp (students_ s) = []) /\
  (forall st, x = Some st ->
     in_scope grp st /\
     exists idx st0,
       students_ s !! idx = Some st0 /\ in_scope grp st0 /\
       st = bump st0 /\ students_ s' !! idx = Some st).
Proof.
  intros Hr Hp. destruct (reachable_scoped s Hr) as [Hok Hsc].
  destruct (students_ s) as [|st1 l] eqn:Hst.
  { unfold pickRandom in Hp. rewrite Hst in Hp. simpl in Hp. injection Hp as <- <-.
    rewrite members_nil. split; [tauto|discriminate]. }
  assert (Hne : students_ s <> []) by (rewrite Hst; discriminate).
  rewrite <- Hst in *. clear Hst.
  pose proof (pickRandom_step _ _ _ _ _ Hp Hne) as Hstep.
  pose proof (prepared_scoped grp s) as Hin.
  destruct (prepared_effect grp s) as (_ & _ & _ & Hkeep & Hperm).
  destruct (deref (scope_ref grp) (prepared grp s)) as [|idx rest] eqn:Hq.
  - destruct Hstep as (-> & _). split; [|discriminate]. split; [|reflexivity].
    intros _. destruct (deref (scope_ref grp) s) as [|i p] eqn:Hd.
    + apply Permutation_nil. now apply Hperm.
    + assert (Hfalse : @nil nat = i :: p) by (apply Hkeep; discriminate).
      discriminate.
  - destruct Hstep as (st0 & Hl & -> & Hs' & _).
    specialize (Hin idx Hsc (or_introl eq_refl)).
    split.
    + split; [discriminate|]. intros Hm. rewrite Hm in Hin. destruct Hin.
    + intros st [= <-].
      apply members_spec in Hin as (st0' & Hl' & Hscope).
      rewrite Hl in Hl'. inversion Hl'; subst st0'.
      split; [now destruct grp|].
      exists idx, st0. repeat split; auto.
      rewrite Hs'. apply list_lookup_insert_eq. eapply lookup_lt_Some; eauto.
Qed.

(** X5. A draw on a pool that holds handles takes the front one: the pool
    is left with the handles behind it, the student at that handle is the
    one returned, and the generator is not used. The pools of all other
    scopes are as before, whatever the draw did. *)
Theorem draw_consumes_front now grp s x s' :
  reachable s ->
  pickRandom now grp s = Done (x, s') ->
  (forall r, r <> scope_ref grp -> deref r s' = deref r s) /\
  (forall idx rest,
     deref (scope_ref grp) s = idx :: rest ->
     deref (scope_ref grp) s' = rest /\ rng_ s' = rng_ s /\
     exists st0, students_ s !! idx = Some st0 /\ x = Some (bump st0)).
Proof.
  intros Hr Hp. pose proof (reachable_pools_ok s Hr) as Hok. split.
  - intros r Hne. eapply pickRandom_frame; eauto.
  - intros idx rest Hd.
    assert (Hne : students_ s <> []).
    { intros E. pose proof (deref_ok (scope_ref grp) s Hok) as [_ Hall].
      rewrite Hd, E in Hall. inversion Hall; subst. simpl in *. lia. }
    pose proof (pickRandom_step _ _ _ _ _ Hp Hne) as Hstep.
    destruct (prepared_effect grp s) as (_ & _ & _ & Hkeep & _).
    rewrite Hkeep, Hd in Hstep by (rewrite Hd; discriminate).
    destruct Hstep as (st0 & Hl & -> & _ & Hd' & Hrng).
    split; [exact Hd'|]. split; [|eauto].
    rewrite Hrng. apply prepared_rng. rewrite Hd. discriminate.
Qed.

(** The front of a pool that holds handles is what a draw returns. *)
Lemma draw_consumes_front_aux now grp s x s' :
  reachable s ->
  pickRandom now grp s = Done (x, s') ->
  forall idx rest,
    deref (scope_ref grp) s = idx :: rest ->
    exists st0, students_ s !! idx = Some st0 /\ x = Some (bump st0).
Proof.
  intros Hr Hp idx rest Hd. pose proof (reachable_pools_ok s Hr) as Hok.
  assert (Hne : students_ s <> []).
  { intros E. pose proof (deref_ok (scope_ref grp) s Hok) as [_ Hall].
    rewrite Hd, E in Hall. inversion Hall; subst. simpl in *. lia. }
  pose proof (pickRandom_step _ _ _ _ _ Hp Hne) as Hstep.
  destruct (prepared_effect grp s) as (_ & _ & _ & Hkeep & _).
  rewrite Hkeep, Hd in Hstep by (rewrite Hd; discriminate).
  destruct Hstep as (st0 & Hl & -> & _). eauto.
Qed.

(** X6. A student added with [refreshPools] switched off is in no pool: the
    pools are those of before, none of them holds the new handle, and a draw
    on a scope whose pool still holds handles does not return it. *)
Theorem insert_without_refresh_waits s n g :
  reachable s ->
  ~ In n (map name (students_ s)) ->
  students_ (snd (addStudent n g false s)) !! length (students_ s) =
    Some (mkStudent n g 0) /\
  (forall r, deref r (snd (addStudent n g false s)) = deref r s) /\
  (forall r, ~ In (length (students_ s)) (deref r (snd (addStudent n g false s)))) /\
  (forall now grp st s2,
     deref (scope_ref grp) (snd (addStudent n g false s)) <> [] ->
     pickRandom now grp (snd (addStudent n g false s)) = Done (Some st, s2) ->
     name st <> n).
Proof.
  intros Hr Hn.
  assert (Hr1 : reachable (snd (addStudent n g false s))).
  { apply (reachable_step (AddStudent n g false) s); [exact Hr|reflexivity]. }
  pose proof (reachable_pools_ok s Hr) as Hok.
  revert Hr1. rewrite (addStudent_fresh n g false s Hn). cbn [snd]. intros Hr1.
  set (s1 := mkRoster (students_ s ++ [mkStudent n g 0]) (groupPools_ s)
                      (globalPool_ s) (history_ s) (rng_ s)) in *.
  assert (Hd : forall r, deref r s1 = deref r s) by (intros r; now destruct r).
  assert (Hout : forall r, ~ In (length (students_ s)) (deref r s1)).
  { intros r Hin. rewrite Hd in Hin. pose proof (deref_ok r s Hok) as [_ Hall].
    rewrite List.Forall_forall in Hall. specialize (Hall _ Hin). lia. }
  split; [|split; [exact Hd|split; [exact Hout|]]].
  - simpl. rewrite lookup_app_r by lia. now rewrite Nat.sub_diag.
  - intros now grp st s2 Hne Hp.
    destruct (deref (scope_ref grp) s1) as [|idx rest] eqn:Hq; [contradiction|].
    destruct (draw_consumes_front_aux _ _ _ _ _ Hr1 Hp idx rest Hq)
      as (st0 & Hl & Hx).
    injection Hx as ->. cbn [bump name]. intros <-.
    assert (Hlt : idx < length (students_ s)).
    { pose proof (deref_ok (scope_ref grp) s Hok) as [_ Hall].
      rewrite <- Hd, Hq in Hall. now inversion Hall. }
    simpl in Hl. rewrite lookup_app_l in Hl by exact Hlt.
    apply Hn, list_elem_of_In. apply list_elem_of_lookup. exists idx.
    now apply lookup_map_name.
Qed.

(** ** A whole cycle *)

Lemma run_returns_draw now grp nows s tr s' :
  run_returns (draws grp (now :: nows)) s = Done (tr, s') ->
  exists x s1 tr1,
    pickRandom now grp s = Done (x, s1) /\
    run_returns (draws grp nows) s1 = Done (tr1, s') /\
    tr = match x with Some st => (grp, st) :: tr1 | None => tr1 end.
Proof.
  cbn [draws map run_returns]. fold (draws grp nows).
  destruct (pickRandom now grp s) as [[x s1]|f]; [|discriminate].
  destruct (run_returns (draws grp nows) s1) as [[tr1 s2]|f] eqn:Hrest; [|discriminate].
  intros [= <- <-]. exists x, s1, tr1. split; [reflexivity|]. split; [exact Hrest|reflexivity].
Qed.

(** Draws that empty a pool: as many draws as the pool holds handles. *)
Lemma drain_pool grp : forall nows s p tr s',
  pools_ok s -> deref (scope_ref grp) s = p -> length nows = length p ->
  run_returns (draws grp nows) s = Done (tr, s') ->
  deref (scope_ref grp) s' = [] /\ length tr = length nows /\
  forall j st, students_ s !! j = Some st ->
    (In j p -> students_ s' !! j = Some (bump st)) /\
    (~ In j p -> students_ s' !! j = Some st).
Proof.
  induction nows as [|now nows IH]; intros s p tr s' Hok Hd Hlen Hrun.
  - destruct p; [|discriminate]. simpl in Hrun. injection Hrun as <- <-.
    repeat split; auto. intros [].
  - destruct p as [|idx rest]; [discriminate|]. simpl in Hlen. injection Hlen as Hlen.
    destruct (run_returns_draw _ _ _ _ _ _ Hrun) as (x & s1 & tr1 & Hp & Hrest & ->).
    pose proof (deref_ok (scope_ref grp) s Hok) as [Hnd Hall]. rewrite Hd in Hnd, Hall.
    inversion Hnd as [|? ? Hni _]; inversion Hall as [|? ? Hlt _]; subst.
    assert (Hne : students_ s <> []) by (intros E; rewrite E in Hlt; simpl in Hlt; lia).
    pose proof (pickRandom_step _ _ _ _ _ Hp Hne) as Hstep.
    destruct (prepared_effect grp s) as (_ & _ & _ & Hkeep & _).
    rewrite Hkeep, Hd in Hstep by (rewrite Hd; discriminate).
    destruct Hstep as (st0 & Hl & -> & Hs1 & Hd1 & _).
    pose proof (pickRandom_ok _ _ _ _ _ Hp Hok) as Hok1.
    destruct (IH s1 rest tr1 s' Hok1 Hd1 Hlen Hrest) as (Hd' & Hlen' & Hst).
    split; [exact Hd'|]. split; [simpl; now rewrite Hlen'|].
    intros j st Hj. destruct (Nat.eq_dec j idx) as [->|Hji].
    + rewrite Hl in Hj. injection Hj as <-.
      assert (H1 : students_ s1 !! idx = Some (bump st0))
        by (rewrite Hs1; now apply list_lookup_insert_eq).
      split; [intros _|intros Hout; exfalso; apply Hout; now left].
      apply (Hst idx (bump st0) H1). intros Hin. apply Hni. now apply list_elem_of_In.
    + assert (H1 : students_ s1 !! j = Some st)
        by (rewrite Hs1, list_lookup_insert_ne; auto).
      destruct (Hst j st H1) as [Hin Hout]. split.
      * intros [E|Hr]; [congruence|auto].
      * intros Hn. apply Hout. intros Hr. apply Hn. now right.
Qed.

(** X7. A whole cycle calls every member once. From a reachable state in
    which the pool of a scope is empty, as many successive draws on that
    scope as it has members all return a student, leave the pool empty
    again, raise the counter of each member of the scope by exactly one and
    leave every other student as it was. *)
Theorem full_cycle_calls_each_member_once grp nows s tr s' :
  reachable s ->
  deref (scope_ref grp) s = [] ->
  length nows = length (members grp (students_ s)) ->
  run_returns (draws grp nows) s = Done (tr, s') ->
  deref (scope_ref grp) s' = [] /\ length tr = length nows /\
  forall idx st, students_ s !! idx = Some st ->
    (in_scope grp st -> students_ s' !! idx = Some (bump st)) /\
    (~ in_scope grp st -> students_ s' !! idx = Some st).
Proof.
  intros Hr Hd Hlen Hrun. pose proof (reachable_pools_ok s Hr) as Hok.
  assert (Hmem : forall j st, students_ s !! j = Some st ->
                   (In j (members grp (students_ s)) <-> in_scope grp st)).
  { intros j st Hj. rewrite members_spec. split.
    - intros (st' & Hj' & Hsc). congruence.
    - intros Hsc. eauto. }
  destruct nows as [|now nows].
  - simpl in Hrun. injection Hrun as <- <-. split; [exact Hd|]. split; [reflexivity|].
    intros idx st Hl. split; [|auto].
    intros Hsc. apply (Hmem idx st Hl) in Hsc.
    destruct (members grp (students_ s)); [destruct Hsc|discriminate].
  - destruct (run_returns_draw _ _ _ _ _ _ Hrun) as (x & s1 & tr1 & Hp & Hrest & ->).
    assert (Hne : students_ s <> []).
    { intros E. rewrite E, members_nil in Hlen. discriminate. }
    pose proof (pickRandom_step _ _ _ _ _ Hp Hne) as Hstep.
    destruct (prepared_effect grp s) as (_ & _ & _ & _ & Hperm).
    specialize (Hperm Hd).
    destruct (deref (scope_ref grp) (prepared grp s)) as [|idx rest] eqn:Hq.
    { apply Permutation_nil in Hperm. rewrite Hperm in Hlen. discriminate. }
    destruct Hstep as (st0 & Hl & -> & Hs1 & Hd1 & _).
    pose proof (pickRandom_ok _ _ _ _ _ Hp Hok) as Hok1.
    assert (Hnd : NoDup (idx :: rest)) by (rewrite Hperm; apply members_NoDup).
    apply NoDup_cons in Hnd as [Hni _].
    assert (Hlen1 : length nows = length rest).
    { apply Permutation_length in Hperm. simpl in *. lia. }
    destruct (drain_pool grp nows s1 rest tr1 s' Hok1 Hd1 Hlen1 Hrest)
      as (Hd' & Hlen' & Hst).
    split; [exact Hd'|]. split; [simpl; now rewrite Hlen'|].
    assert (Hlt : idx < length (students_ s)) by (eapply lookup_lt_Some; eauto).
    intros j st Hj. rewrite <- (Hmem j st Hj).
    assert (Hq' : In j (members grp (students_ s)) <-> j = idx \/ In j rest).
    { split; intros Hin.
      - apply (Permutation_in _ (Permutation_sym Hperm)) in Hin.
        destruct Hin as [E|Hin]; auto.
      - apply (Permutation_in _ Hperm). destruct Hin as [->|Hin]; [now left|now right]. }
    rewrite Hq'. destruct (Nat.eq_dec j idx) as [->|Hji].
    + rewrite Hl in Hj. injection Hj as <-.
      assert (H1 : students_ s1 !! idx = Some (bump st0))
        by (rewrite Hs1; now apply list_lookup_insert_eq).
      split; [intros _|intros Hout; exfalso; apply Hout; now left].
      apply (Hst idx (bump st0) H1). intros Hin. apply Hni. now apply list_elem_of_In.
    + assert (H1 : students_ s1 !! j = Some st)
        by (rewrite Hs1, list_lookup_insert_ne; auto).
      destruct (Hst j st H1) as [Hin Hout]. split.
      * intros [E|Hr']; [congruence|auto].
      * intros Hn. apply Hout. intros Hr'. apply Hn. now right.
Qed.

(** ** The bulk loader's bookkeeping *)

Lemma loadFromStream_cons line rest stats s :
  loadFromStream (line :: rest) stats s =
    match classify line with
    | SkippedLine => loadFromStream rest stats s
    | MalformedLine => loadFromStream rest (bump_malformed stats) s
    | RecordLineOf n g =>
        let '(ok, s1) := addStudent n g false s in
        if ok then loadFromStream rest (bump_added stats) s1
        else loadFromStream rest (bump_duplicates stats) s1
    end.
Proof.
  unfold classify. cbn [loadFromStream].
  destruct (is_empty (trim line) || front_is "#" (trim line))%bool; [reflexivity|].
  destruct (find_comma (trim line)) as [comma|]; [|reflexivity].
  destruct (is_empty (trim (substr 0 comma (trim line))) ||
            is_empty (trim (substr_from (comma + 1) (trim line))))%bool; reflexivity.
Qed.

Lemma loadFromStream_accounts input : forall stats s,
  malformed (fst (loadFromStream input stats s)) =
    malformed stats + length (List.filter is_malformed input) /\
  added (fst (loadFromStream input stats s)) +
    duplicates (fst (loadFromStream input stats s)) =
    added stats + duplicates stats + length (List.filter is_wellformed input) /\
  length (students_ (snd (loadFromStream input stats s))) + added stats =
    length (students_ s) + added (fst (loadFromStream input stats s)).
Proof.
  induction input as [|line rest IH]; intros stats s.
  - simpl. lia.
  - rewrite loadFromStream_cons. cbn [List.filter].
    change (is_malformed line)
      with (match classify line with MalformedLine => true | _ => false end).
    change (is_wellformed line)
      with (match classify line with RecordLineOf _ _ => true | _ => false end).
    destruct (classify line) as [| |n g]; cbn [length].
    + specialize (IH stats s). lia.
    + specialize (IH (bump_malformed stats) s). simpl in IH. lia.
    + destruct (addStudent_effect n g false s) as (_ & _ & Hcase).
      destruct (addStudent n g false s) as [ok s1]. simpl in Hcase.
      destruct Hcase as [[-> ->]|(-> & _ & Hs & _)].
      * specialize (IH (bump_duplicates stats) s). simpl in IH. lia.
      * specialize (IH (bump_added stats) s1). simpl in IH.
        rewrite Hs, length_app in IH. simpl in IH. lia.
Qed.

(** X8. An import accounts for every line it does not skip: the malformed
    count is the number of lines without a comma or with an empty field, the
    added and duplicate counts together are the number of well-formed
    lines, and the store grows by exactly the added count. *)
Theorem import_accounts_for_every_line input s :
  exists stats,
    fst (importFromFile (Some input) s) = Some stats /\
    malformed stats = length (List.filter is_malformed input) /\
    added stats + duplicates stats = length (List.filter is_wellformed input) /\
    length (students_ (snd (importFromFile (Some input) s))) =
      length (students_ s) + added stats.
Proof.
  unfold importFromFile.
  pose proof (loadFromStream_accounts input (mkImportStats 0 0 0) s) as (Hm & Ha & Hl).
  destruct (loadFromStream input (mkImportStats 0 0 0) s) as [stats s1].
  simpl in *. exists stats. repeat split; auto; lia.
Qed.

Lemma addStudent_names n g r s :
  In n (map name (students_ (snd (addStudent n g r s)))) /\
  forall m, In m (map name (students_ s)) ->
            In m (map name (students_ (snd (addStudent n g r s)))).
Proof.
  destruct (in_dec string_dec n (map name (students_ s))) as [Hin|Hn].
  - rewrite (addStudent_known n g r s Hin). simpl. auto.
  - rewrite (addStudent_fresh n g r s Hn).
    assert (Hs : forall m, In m (map name (students_ s ++ [mkStudent n g 0])) <->
                          In m (map name (students_ s)) \/ m = n).
    { intros m. rewrite map_app, in_app_iff. simpl. intuition. }
    destruct r; simpl; split; try (apply Hs; auto); intros m Hm; apply Hs; auto.
Qed.

Lemma loadFromStream_names input : forall stats s m,
  In m (map name (students_ s)) ->
  In m (map name (students_ (snd (loadFromStream input stats s)))).
Proof.
  intros stats s m Hm.
  destruct (loadFromStream_effect input stats s) as (_ & _ & _ & _ & new & Hs & _).
  rewrite Hs, map_app. apply in_or_app. now left.
Qed.

(** After a load, the name of each of its well-formed lines is in the store. *)
Lemma loadFromStream_covers input : forall stats s line n g,
  In line input -> classify line = RecordLineOf n g ->
  In n (map name (students_ (snd (loadFromStream input stats s)))).
Proof.
  induction input as [|l0 rest IH]; intros stats s line n g Hin Hc; [destruct Hin|].
  rewrite loadFromStream_cons. destruct Hin as [->|Hin].
  - rewrite Hc. destruct (addStudent_names n g false s) as [Hn _].
    destruct (addStudent n g false s) as [ok s1]. simpl in Hn.
    destruct ok; now apply loadFromStream_names.
  - destruct (classify l0) as [| |n0 g0]; try (eapply IH; eauto).
    destruct (addStudent n0 g0 false s) as [ok s1].
    destruct ok; eapply IH; eauto.
Qed.

(** A load whose well-formed lines all name students of the store changes
    nothing and counts each of them as a duplicate. *)
Lemma loadFromStream_known input : forall stats s,
  (forall line n g, In line input -> classify line = RecordLineOf n g ->
                    In n (map name (students_ s))) ->
  loadFromStream input stats s =
    (mkImportStats (added stats)
                   (duplicates stats + length (List.filter is_wellformed input))
                   (malformed stats + length (List.filter is_malformed input)),
     s).
Proof.
  induction input as [|l0 rest IH]; intros stats s Hknown.
  - simpl. rewrite !Nat.add_0_r. now destruct stats.
  - rewrite loadFromStream_cons. cbn [List.filter].
    change (is_malformed l0)
      with (match classify l0 with MalformedLine => true | _ => false end).
    change (is_wellformed l0)
      with (match classify l0 with RecordLineOf _ _ => true | _ => false end).
    assert (Hrest : forall line n g, In line rest -> classify line = RecordLineOf n g ->
                                     In n (map name (students_ s))).
    { intros line n g Hin. apply Hknown. now right. }
    destruct (classify l0) as [| |n g] eqn:Hc; cbn [length].
    + now apply IH.
    + rewrite (IH _ s Hrest). simpl. f_equal. f_equal; lia.
    + rewrite (addStudent_known n g false s) by (eapply Hknown; eauto; now left).
      rewrite (IH _ s Hrest). simpl. f_equal. f_equal; lia.
Qed.

(** X9. Importing the same lines a second time adds nobody: every
    well-formed line is counted as a duplicate, the malformed count is that
    of the first import, and the state the first import left is returned
    as it is. *)
Theorem reimport_adds_nothing input s :
  importFromFile (Some input) (snd (importFromFile (Some input) s)) =
    (Some (mkImportStats 0 (length (List.filter is_wellformed input))
                         (length (List.filter is_malformed input))),
     snd (importFromFile (Some input) s)).
Proof.
  unfold importFromFile at 2 3.
  pose proof (loadFromStream_covers input (mkImportStats 0 0 0) s) as Hcov.
  destruct (loadFromStream input (mkImportStats 0 0 0) s) as [stats1 s1].
  cbn [snd] in *. unfold importFromFile.
  rewrite (loadFromStream_known input (mkImportStats 0 0 0) (resetCycle s1)).
  - reflexivity.
  - intros line n g Hin Hc. simpl. eapply Hcov; eauto.
Qed.

(** ** [trim] *)

Lemma find_first_None text : find_first_not_of text = None <-> all_blank text = true.
Proof.
  induction text as [|c rest IH]; simpl; [tauto|].
  destruct (is_blank c); simpl; [|split; discriminate].
  rewrite <- IH. destruct (find_first_not_of rest); simpl; split; congruence.
Qed.

Lemma find_last_None text : find_last_not_of text = None <-> all_blank text = true.
Proof.
  induction text as [|c rest IH]; simpl; [tauto|].
  destruct (find_last_not_of rest) as [i|].
  - split; [discriminate|]. intros Hb. apply andb_true_iff in Hb as [_ Hb].
    apply IH in Hb. discriminate.
  - assert (Hr : all_blank rest = true) by now apply IH.
    rewrite Hr, andb_true_r. destruct (is_blank c); split; congruence.
Qed.

Lemma substring_0_0 text : String.substring 0 0 text = EmptyString.
Proof. now destruct text. Qed.

Lemma trim_blank_head c rest : is_blank c = true -> trim (String c rest) = trim rest.
Proof.
  intros Hc. unfold trim. cbn [find_first_not_of find_last_not_of]. rewrite Hc.
  destruct (find_first_not_of rest) as [f|] eqn:Hf; cbn [option_map]; [|reflexivity].
  destruct (find_last_not_of rest) as [l|]; reflexivity.
Qed.

Lemma trim_head c rest : is_blank c = false -> trim (String c rest) = String c (rtrim rest).
Proof.
  intros Hc. unfold trim, rtrim. cbn [find_first_not_of find_last_not_of]. rewrite Hc.
  destruct (find_last_not_of rest) as [l|]; unfold substr.
  - replace (S l - 0 + 1) with (S (l + 1)) by lia. reflexivity.
  - simpl. now rewrite substring_0_0.
Qed.

Lemma rtrim_cons c rest :
  rtrim (String c rest) =
    if all_blank (String c rest) then EmptyString else String c (rtrim rest).
Proof.
  unfold rtrim. cbn [find_last_not_of all_blank].
  destruct (find_last_not_of rest) as [l|] eqn:Hl; unfold substr.
  - assert (Hr : all_blank rest = false).
    { destruct (all_blank rest) eqn:E; [|reflexivity].
      apply find_last_None in E. congruence. }
    rewrite Hr, andb_false_r.
    replace (S l + 1) with (S (l + 1)) by lia. reflexivity.
  - assert (Hr : all_blank rest = true) by now apply find_last_None.
    rewrite Hr, andb_true_r. destruct (is_blank c); [reflexivity|].
    simpl. now rewrite substring_0_0.
Qed.

Lemma rtrim_empty text : rtrim text = EmptyString <-> all_blank text = true.
Proof.
  destruct text as [|c rest]; [now split|].
  rewrite rtrim_cons. destruct (all_blank (String c rest)); split; congruence.
Qed.

Lemma ends_with_blank_cons c text :
  ends_with_blank (String c text) =
    if is_empty text then is_blank c else ends_with_blank text.
Proof. now destruct text. Qed.

Lemma all_blank_ends text :
  all_blank text = true -> is_empty text = false -> ends_with_blank text = true.
Proof.
  induction text as [|c rest IH]; [discriminate|]. intros Hb _.
  simpl in Hb. apply andb_true_iff in Hb as [Hc Hr].
  rewrite ends_with_blank_cons. destruct rest as [|d rest']; [exact Hc|].
  now apply IH.
Qed.

Lemma rtrim_split text :
  exists post, text = String.append (rtrim text) post /\ all_blank post = true.
Proof.
  induction text as [|c rest (post & Hrest & Hpost)]; [now exists EmptyString|].
  rewrite rtrim_cons. destruct (all_blank (String c rest)) eqn:Hb.
  - exists (String c rest). now split.
  - exists post. split; [|exact Hpost].
    change (String c rest = String c (String.append (rtrim rest) post)).
    now rewrite <- Hrest.
Qed.

Lemma rtrim_ends text : ends_with_blank (rtrim text) = false.
Proof.
  induction text as [|c rest IH]; [reflexivity|].
  rewrite rtrim_cons. destruct (all_blank (String c rest)) eqn:Hb; [reflexivity|].
  rewrite ends_with_blank_cons. destruct (is_empty (rtrim rest)) eqn:He; [|exact IH].
  assert (Hr : all_blank rest = true).
  { apply rtrim_empty. now destruct (rtrim rest). }
  simpl in Hb. rewrite Hr, andb_true_r in Hb. exact Hb.
Qed.

Lemma rtrim_fix text : ends_with_blank text = false -> rtrim text = text.
Proof.
  induction text as [|c rest IH]; [reflexivity|]. intros He.
  rewrite rtrim_cons. destruct (all_blank (String c rest)) eqn:Hb.
  - rewrite all_blank_ends in He by (auto; reflexivity). discriminate.
  - f_equal. rewrite ends_with_blank_cons in He.
    destruct rest as [|d rest']; [reflexivity|]. now apply IH.
Qed.

Lemma trim_cons c rest :
  trim (String c rest) = if is_blank c then trim rest else String c (rtrim rest).
Proof.
  destruct (is_blank c) eqn:Hc; [now apply trim_blank_head|now apply trim_head].
Qed.

Lemma trim_ends text :
  starts_with_blank (trim text) = false /\ ends_with_blank (trim text) = false.
Proof.
  induction text as [|c rest IH]; [now split|].
  rewrite trim_cons. destruct (is_blank c) eqn:Hc; [exact IH|].
  split; [exact Hc|]. rewrite ends_with_blank_cons.
  destruct (is_empty (rtrim rest)); [exact Hc|apply rtrim_ends].
Qed.

Lemma trim_fix text :
  starts_with_blank text = false -> ends_with_blank text = false -> trim text = text.
Proof.
  destruct text as [|c rest]; [reflexivity|]. simpl starts_with_blank. intros Hc He.
  rewrite trim_head by exact Hc. f_equal.
  rewrite ends_with_blank_cons in He.
  destruct rest as [|d rest']; [reflexivity|]. now apply rtrim_fix.
Qed.

(** X10. [trim] removes blanks (space, tab, carriage return, line feed) from
    the two ends and nothing else: the text is a run of blanks, then the
    trimmed text, then a run of blanks, and the trimmed text neither starts
    nor ends with a blank. *)
Theorem trim_strips_blank_ends text :
  (exists pre post,
     text = String.append pre (String.append (trim text) post) /\
     all_blank pre = true /\ all_blank post = true) /\
  starts_with_blank (trim text) = false /\
  ends_with_blank (trim text) = false.
Proof.
  split; [|apply trim_ends].
  induction text as [|c rest (pre & post & Hrest & Hpre & Hpost)].
  - exists EmptyString, EmptyString. now repeat split.
  - rewrite trim_cons. destruct (is_blank c) eqn:Hc.
    + exists (String c pre), post. split; [|split; [|exact Hpost]].
      * change (String c rest =
                String c (String.append pre (String.append (trim rest) post))).
        now rewrite <- Hrest.
      * cbn [all_blank]. now rewrite Hc, Hpre.
    + destruct (rtrim_split rest) as (post' & Hr & Hp').
      exists EmptyString, post'. split; [|split; [reflexivity|exact Hp']].
      change (String c rest = String c (String.append (rtrim rest) post')).
      now rewrite <- Hr.
Qed.

(** X11. [trim] is idempotent, returns the empty string exactly on the
    texts made of blanks only, and returns a text that neither starts nor
    ends with a blank unchanged. *)
Theorem trim_is_idempotent text :
  trim (trim text) = trim text /\
  (trim text = EmptyString <-> all_blank text = true) /\
  (starts_with_blank text = false -> ends_with_blank text = false ->
   trim text = text).
Proof.
  split; [|split].
  - destruct (trim_ends text) as [Hs He]. now apply trim_fix.
  - induction text as [|c rest IH]; [now split|].
    rewrite trim_cons. simpl. destruct (is_blank c); simpl; [exact IH|].
    split; discriminate.
  - apply trim_fix.
Qed.

(** ** [printStats] *)

Lemma ascii_compare_refl c : Ascii.compare c c = Eq.
Proof. apply N.compare_refl. Qed.

Lemma string_compare_refl t : String.compare t t = Eq.
Proof. induction t as [|c t IH]; simpl; [reflexivity|]. now rewrite ascii_compare_refl. Qed.

Lemma string_compare_lt_trans a : forall b c,
  String.compare a b = Lt -> String.compare b c = Lt -> String.compare a c = Lt.
Proof.
  induction a as [|x a IH]; intros [|y b] [|z c]; simpl; try discriminate; auto.
  unfold Ascii.compare.
  destruct (N.compare_spec (N_of_ascii x) (N_of_ascii y)) as [Exy|Lxy|Gxy];
    try discriminate;
    destruct (N.compare_spec (N_of_ascii y) (N_of_ascii z)) as [Eyz|Lyz|Gyz];
    try discriminate; intros Hab Hbc.
  - rewrite Exy, Eyz, N.compare_refl. eapply IH; eauto.
  - rewrite Exy, (proj2 (N.compare_lt_iff _ _) Lyz). reflexivity.
  - rewrite <- Eyz, (proj2 (N.compare_lt_iff _ _) Lxy). reflexivity.
  - rewrite (proj2 (N.compare_lt_iff (N_of_ascii x) (N_of_ascii z))) by lia.
    reflexivity.
Qed.

(** [stats_before] and [stats_le] in terms of the two keys. *)
Lemma stats_before_spec a b :
  stats_before a b = true <->
  (callCount b < callCount a)%Z \/
  (callCount a = callCount b /\ String.compare (name a) (name b) = Lt).
Proof.
  unfold stats_before, String.ltb.
  destruct (Z.eqb_spec (callCount a) (callCount b)) as [E|E].
  - destruct (String.compare (name a) (name b)); split; intros Hx;
      try discriminate; auto; destruct Hx as [Hx|[_ Hx]]; try discriminate; lia.
  - rewrite Z.ltb_lt. split; [auto|]. intros [Hx|[Hx _]]; [exact Hx|contradiction].
Qed.

Lemma stats_le_spec a b :
  stats_le a b <->
  (callCount b < callCount a)%Z \/
  (callCount a = callCount b /\ String.compare (name a) (name b) <> Gt).
Proof.
  unfold stats_le. rewrite <- not_true_iff_false, stats_before_spec.
  rewrite (String.compare_antisym (name a) (name b)).
  destruct (String.compare (name b) (name a)); simpl; split; intros Hx.
  - destruct (Z.lt_trichotomy (callCount a) (callCount b)) as [Hl|[He|Hg]];
      [exfalso; apply Hx; auto|right; split; [exact He|discriminate]|auto].
  - intros [Hl|[_ Hl]]; [|discriminate]. destruct Hx as [Hx|[Hx _]]; lia.
  - destruct (Z.lt_trichotomy (callCount a) (callCount b)) as [Hl|[He|Hg]];
      [exfalso; apply Hx; auto|exfalso; apply Hx; auto|auto].
  - intros [Hl|[He _]]; destruct Hx as [Hx|[Hx Hc]]; try lia. now apply Hc.
  - destruct (Z.lt_trichotomy (callCount a) (callCount b)) as [Hl|[He|Hg]];
      [exfalso; apply Hx; auto|right; split; [exact He|discriminate]|auto].
  - intros [Hl|[_ Hl]]; [|discriminate]. destruct Hx as [Hx|[Hx _]]; lia.
Qed.

Lemma stats_le_trans a b c : stats_le a b -> stats_le b c -> stats_le a c.
Proof.
  rewrite !stats_le_spec. intros [Hab|[Eab Cab]] [Hbc|[Ebc Cbc]]; try (left; lia).
  right. split; [lia|]. intros Hgt.
  assert (Hca : String.compare (name c) (name a) = Lt)
    by (rewrite String.compare_antisym, Hgt; reflexivity).
  destruct (String.compare (name a) (name b)) eqn:Hab; [| |contradiction].
  - apply String.compare_eq_iff in Hab. rewrite <- Hab in Cbc. contradiction.
  - assert (Hcb : String.compare (name c) (name b) = Lt)
      by (eapply string_compare_lt_trans; eauto).
    apply Cbc. rewrite String.compare_antisym, Hcb. reflexivity.
Qed.

Lemma stats_before_le a b : stats_before a b = true -> stats_le a b.
Proof.
  rewrite stats_before_spec, stats_le_spec. intros [Hl|[He Hc]]; [auto|].
  right. split; [exact He|]. rewrite Hc. discriminate.
Qed.

Lemma stats_le_antisym a b :
  stats_le a b -> stats_le b a -> callCount a = callCount b /\ name a = name b.
Proof.
  rewrite !stats_le_spec. intros [Hab|[Eab Cab]] [Hba|[Eba Cba]]; try lia.
  split; [exact Eab|]. apply String.compare_eq_iff.
  rewrite (String.compare_antisym (name b) (name a)) in Cba.
  destruct (String.compare (name a) (name b)); [reflexivity| |]; simpl in *; congruence.
Qed.

Lemma stats_insert_perm x l : Permutation (stats_insert x l) (x :: l).
Proof.
  induction l as [|y l IH]; simpl; [reflexivity|].
  destruct (stats_before x y); [reflexivity|].
  rewrite IH. apply perm_swap.
Qed.

Lemma stats_sort_perm l : Permutation (stats_sort l) l.
Proof.
  induction l as [|x l IH]; simpl; [reflexivity|].
  rewrite stats_insert_perm. now constructor.
Qed.

Lemma stats_insert_sorted x l :
  StronglySorted stats_le l -> StronglySorted stats_le (stats_insert x l).
Proof.
  induction l as [|y l IH]; intros Hs; simpl.
  - constructor; constructor.
  - inversion Hs as [|? ? Hs' Hall]; subst.
    destruct (stats_before x y) eqn:Hxy.
    + constructor; [exact Hs|]. apply stats_before_le in Hxy.
      constructor; [exact Hxy|].
      eapply Forall_impl; [exact Hall|]. simpl. intros z Hz.
      eapply stats_le_trans; eauto.
    + constructor; [now apply IH|].
      rewrite stats_insert_perm. constructor; [exact Hxy|exact Hall].
Qed.

Lemma stats_sort_sorted l : StronglySorted stats_le (stats_sort l).
Proof.
  induction l as [|x l IH]; simpl; [constructor|]. now apply stats_insert_sorted.
Qed.

Lemma unique_by_name l a b :
  NoDup (map name l) -> In a l -> In b l -> name a = name b -> a = b.
Proof.
  intros Hnd Ha Hb Heq.
  apply list_elem_of_In, list_elem_of_lookup in Ha as [i Hi].
  apply list_elem_of_In, list_elem_of_lookup in Hb as [j Hj].
  assert (i = j) by (eapply unique_handle; eauto). subst j. congruence.
Qed.

(** Two sorted arrangements of the same students are the same list when no
    two students compare equal. *)
Lemma sorted_unique l1 : forall l2,
  StronglySorted stats_le l1 -> StronglySorted stats_le l2 ->
  Permutation l1 l2 ->
  (forall a b, In a l1 -> In b l1 -> stats_le a b -> stats_le b a -> a = b) ->
  l1 = l2.
Proof.
  induction l1 as [|a l1 IH]; intros l2 Hs1 Hs2 Hp Hanti.
  - apply Permutation_nil in Hp. now subst.
  - destruct l2 as [|b l2].
    { symmetry in Hp. apply Permutation_nil in Hp. discriminate. }
    inversion Hs1 as [|? ? Hs1' Hall1]; inversion Hs2 as [|? ? Hs2' Hall2]; subst.
    rewrite List.Forall_forall in Hall1, Hall2.
    assert (Hab : a = b).
    { assert (Ha2 : In a (b :: l2)) by (eapply Permutation_in; [exact Hp|now left]).
      assert (Hb1 : In b (a :: l1))
        by (eapply Permutation_in; [symmetry; exact Hp|now left]).
      destruct Ha2 as [E|Ha2]; [now symmetry|].
      destruct Hb1 as [E|Hb1]; [exact E|].
      apply Hanti; [now left|now right|now apply Hall1|now apply Hall2]. }
    subst b. f_equal. apply IH; auto.
    + eapply Permutation_cons_inv; eauto.
    + intros x y Hx Hy. apply Hanti; now right.
Qed.

(** X12. [printStats] writes the notice when there is no student, and
    otherwise the heading and one row per student, each student once, in
    the order of the comparator: more calls first, and among equal counts
    the smaller name first. With the names of a reachable store, which are
    all different, this is the only arrangement a sort can produce. *)
Theorem printStats_lists_by_count s :
  (students_ s = [] -> printStats s = [NoStudentData]) /\
  (students_ s <> [] ->
   exists rows,
     printStats s = StatsHeader :: map StatsRow rows /\
     Permutation rows (students_ s) /\
     StronglySorted stats_le rows /\
     (reachable s ->
      forall rows', Permutation rows' (students_ s) ->
                    StronglySorted stats_le rows' -> rows' = rows)) /\
  (forall a b,
     stats_le a b <->
     (callCount b < callCount a)%Z \/
     (callCount a = callCount b /\ String.compare (name a) (name b) <> Gt)).
Proof.
  split; [|split].
  - intros E. unfold printStats. now rewrite E.
  - intros Hne. exists (stats_sort (students_ s)). split; [|split; [|split]].
    + unfold printStats. now destruct (students_ s).
    + apply stats_sort_perm.
    + apply stats_sort_sorted.
    + intros Hr rows' Hp Hs'. pose proof (reachable_names s Hr) as Hnd.
      apply sorted_unique; auto using stats_sort_sorted.
      * rewrite Hp. symmetry. apply stats_sort_perm.
      * intros a b Ha Hb Hab Hba. destruct (stats_le_antisym a b Hab Hba) as [_ Hn].
        apply (unique_by_name (students_ s)); auto;
          eapply Permutation_in; eauto.
  - apply stats_le_spec.
Qed.

(** ** [listGroups] *)

Lemma group_size_cons g st l :
  group_size g (st :: l) = (if String.eqb (group st) g then 1 else 0) + group_size g l.
Proof.
  unfold group_size. cbn [group_indices]. rewrite group_indices_shift.
  destruct (String.eqb (group st) g); cbn [length]; now rewrite length_map.
Qed.

Lemma group_size_pos g l :
  group_size g l <> 0 <-> exists st, In st l /\ group st = g.
Proof.
  unfold group_size. split.
  - intros Hne. destruct (group_indices g 0 l) as [|j p] eqn:E; [contradiction|].
    assert (Hin : In j (members (Some g) l)) by (simpl; rewrite E; now left).
    apply members_spec in Hin as (st & Hl & Hg). exists st. split; [|exact Hg].
    apply list_elem_of_In. eapply list_elem_of_lookup_2; eauto.
  - intros (st & Hin & Hg) E.
    apply list_elem_of_In, list_elem_of_lookup in Hin as [j Hj].
    assert (Hm : In j (members (Some g) l)) by (apply members_spec; eauto).
    simpl in Hm. destruct (group_indices g 0 l); [destruct Hm|discriminate].
Qed.

Lemma count_groups_spec l : forall counts : gmap string Z,
  (forall g, (0 <= default 0 (counts !! g))%Z) ->
  (forall g, (default 0 (counts !! g) + Z.of_nat (length l) <= INT_MAX)%Z) ->
  exists m,
    count_groups l counts = Done m /\
    (forall g, default 0%Z (m !! g) =
               (default 0 (counts !! g) + Z.of_nat (group_size g l))%Z) /\
    (forall g, m !! g = None <-> counts !! g = None /\ group_size g l = 0).
Proof.
  induction l as [|st l IH]; intros counts Hpos Hmax.
  - exists counts. split; [reflexivity|]. split.
    + intros g. unfold group_size. simpl. lia.
    + intros g. unfold group_size. simpl. tauto.
  - cbn [count_groups]. unfold count_group.
    assert (Hlt : (default 0 (counts !! group st) <? INT_MAX)%Z = true).
    { apply Z.ltb_lt. specialize (Hmax (group st)). simpl length in Hmax. lia. }
    rewrite Hlt.
    set (counts1 := <[group st := (default 0 (counts !! group st) + 1)%Z]> counts).
    assert (Hl1 : forall g, counts1 !! g =
              if String.eqb (group st) g
              then Some (default 0 (counts !! group st) + 1)%Z else counts !! g).
    { intros g. unfold counts1. rewrite lookup_insert.
      destruct (String.eqb_spec (group st) g); case_decide; congruence. }
    destruct (IH counts1) as (m & Hrun & Hval & Hnone).
    + intros g. rewrite Hl1. destruct (String.eqb (group st) g); simpl; [|apply Hpos].
      specialize (Hpos (group st)). lia.
    + intros g. rewrite Hl1. specialize (Hmax g). simpl length in Hmax.
      destruct (String.eqb_spec (group st) g) as [<-|]; simpl; lia.
    + exists m. split; [exact Hrun|]. split.
      * intros g. rewrite Hval, Hl1, group_size_cons.
        destruct (String.eqb_spec (group st) g) as [<-|]; simpl; lia.
      * intros g. rewrite Hnone, Hl1, group_size_cons.
        destruct (String.eqb (group st) g); simpl; split; intros [H1 H2];
          try discriminate; auto.
Qed.

(** X13. With fewer than [2^31] students [listGroups] lists exactly the
    groups that have a student, each with the number of its students; with
    no student it writes the notice. *)
Theorem listGroups_counts_members s :
  (Z.of_nat (length (students_ s)) <= INT_MAX)%Z ->
  (students_ s = [] -> listGroups s = Done NoGroupData) /\
  (students_ s <> [] ->
   exists counts,
     listGroups s = Done (Groups counts) /\
     (forall g, counts !! g =
                if group_size g (students_ s) =? 0 then None
                else Some (Z.of_nat (group_size g (students_ s)))) /\
     (forall g, is_Some (counts !! g) <->
                exists st, In st (students_ s) /\ group st = g)).
Proof.
  intros Hlen. split.
  - intros E. unfold listGroups. now rewrite E.
  - intros Hne.
    destruct (count_groups_spec (students_ s) ∅) as (m & Hrun & Hval & Hnone).
    + intros g. rewrite lookup_empty. simpl. lia.
    + intros g. rewrite lookup_empty. simpl. lia.
    + assert (Hlook : forall g, m !! g =
                 if group_size g (students_ s) =? 0 then None
                 else Some (Z.of_nat (group_size g (students_ s)))).
      { intros g. specialize (Hval g). specialize (Hnone g).
        rewrite lookup_empty in Hval, Hnone. simpl in Hval.
        destruct (Nat.eqb_spec (group_size g (students_ s)) 0) as [E|E].
        - apply Hnone. now split.
        - destruct (m !! g) as [c|] eqn:Hm; [simpl in Hval; now subst|].
          exfalso. apply E. now apply Hnone. }
      exists m. split; [|split; [exact Hlook|]].
      * unfold listGroups. rewrite Hrun. now destruct (students_ s).
      * intros g. rewrite <- group_size_pos, Hlook.
        destruct (Nat.eqb_spec (group_size g (students_ s)) 0) as [E|E].
        -- split; [intros [c Hc]; discriminate|contradiction].
        -- split; [auto|eauto].
Qed.

(** ** The menu loop *)

Lemma named_maps l :
  Forall named l <->
  Forall (fun t => is_empty t = false) (map name l) /\
  Forall (fun t => is_empty t = false) (map group l).
Proof.
  induction l as [|st l IH]; simpl.
  - split; [split; constructor|constructor].
  - split.
    + intros Hall. inversion Hall as [|? ? [Hn Hg] Hrest]; subst.
      apply IH in Hrest as [H1 H2]. split; now constructor.
    + intros [H1 H2]. inversion H1; inversion H2; subst.
      constructor; [now split|]. apply IH. now split.
Qed.

Lemma pickRandom_named now grp s x s' :
  pickRandom now grp s = Done (x, s') ->
  Forall named (students_ s) -> Forall named (students_ s').
Proof.
  intros Hp. destruct (pickRandom_keeps_names _ _ _ _ _ Hp) as [Hn Hg].
  rewrite !named_maps, Hn, Hg. auto.
Qed.

Lemma importFromFile_named file s :
  Forall named (students_ s) -> Forall named (students_ (snd (importFromFile file s))).
Proof.
  intros Hall. destruct file as [input|]; simpl; [|exact Hall].
  pose proof (loadFromStream_effect input (mkImportStats 0 0 0) s) as Hl.
  destruct (loadFromStream input (mkImportStats 0 0 0) s) as [stats s1].
  simpl in *. destruct Hl as (_ & _ & _ & _ & new & -> & Hz & _).
  apply Forall_app. split; [exact Hall|].
  eapply Forall_impl; [exact Hz|]. simpl. intros st (_ & [Hn _] & [Hg _]). now split.
Qed.

Lemma main_add_student_named n g s :
  Forall named (students_ s) ->
  Forall named (students_ (snd (main_add_student n g s))) /\
  (snd (main_add_student n g s) = s \/
   step (AddStudent n g true) s = Done (snd (main_add_student n g s))).
Proof.
  intros Hall. unfold main_add_student.
  destruct (is_empty n || is_empty g)%bool eqn:He; [split; [exact Hall|now left]|].
  apply orb_false_elim in He as [Hn Hg].
  destruct (addStudent_effect n g true s) as (_ & _ & Hcase).
  assert (Hsnd : snd (let '(ok, s1) := addStudent n g true s in
                      if ok then ("Student added.", s1)
                      else ("Student already exists.", s1)) =
                 snd (addStudent n g true s)).
  { destruct (addStudent n g true s) as [[|] s1]; reflexivity. }
  rewrite Hsnd. split; [|right; reflexivity].
  destruct Hcase as [[_ ->]|(_ & _ & -> & _)]; [exact Hall|].
  apply Forall_app. split; [exact Hall|]. constructor; [now split|constructor].
Qed.

Lemma main_switch_keeps option inp s out s' :
  main_switch option inp s = Done (out, s') ->
  reachable s -> Forall named (students_ s) ->
  reachable s' /\ Forall named (students_ s').
Proof.
  unfold main_switch. intros Hsw Hr Hall.
  destruct (option =? 1)%Z.
  { destruct (main_add_student_named (first_line inp) (second_line inp) s Hall)
      as [Hnamed Hcase].
    destruct (main_add_student (first_line inp) (second_line inp) s) as [msg s1].
    injection Hsw as <- <-. cbn [snd] in Hnamed, Hcase. split; [|exact Hnamed].
    destruct Hcase as [->|Hstep]; [exact Hr|].
    exact (reachable_step _ _ _ Hr Hstep). }
  destruct (option =? 2)%Z.
  { destruct (pickRandom (clock inp) None s) as [[x s1]|f] eqn:Hp; [|discriminate].
    assert (Hs1 : s1 = s') by (destruct x; now injection Hsw). subst s1. split.
    - apply (reachable_step (PickRandom (clock inp) None) s); [exact Hr|].
      simpl. now rewrite Hp.
    - eapply pickRandom_named; eauto. }
  destruct (option =? 3)%Z.
  { destruct (is_empty (first_line inp)); [injection Hsw as <- <-; now split|].
    destruct (pickRandom (clock inp) (Some (first_line inp)) s) as [[x s1]|f] eqn:Hp;
      [|discriminate].
    assert (Hs1 : s1 = s') by (destruct x; now injection Hsw). subst s1. split.
    - apply (reachable_step (PickRandom (clock inp) (Some (first_line inp))) s);
        [exact Hr|]. simpl. now rewrite Hp.
    - eapply pickRandom_named; eauto. }
  destruct (option =? 4)%Z; [injection Hsw as <- <-; now split|].
  destruct (option =? 5)%Z; [injection Hsw as <- <-; now split|].
  destruct (option =? 6)%Z.
  { destruct (listGroups s); [|discriminate]. injection Hsw as <- <-. now split. }
  destruct (option =? 7)%Z.
  { injection Hsw as <- <-. split; [|exact Hall].
    now apply (reachable_step ResetCycle s). }
  destruct (option =? 8)%Z.
  { injection Hsw as <- <-. split; [|exact Hall].
    now apply (reachable_step ClearHistory s). }
  destruct (option =? 9)%Z.
  { destruct (is_empty (first_line inp)); [injection Hsw as <- <-; now split|].
    pose proof (importFromFile_named (opened inp) s Hall) as Hnamed.
    assert (Hstep : step (ImportFromFile (opened inp)) s =
                    Done (snd (importFromFile (opened inp) s))) by reflexivity.
    destruct (importFromFile (opened inp) s) as [[stats|] s1];
      injection Hsw as <- <-; (split; [eapply reachable_step; eauto|exact Hnamed]). }
  injection Hsw as <- <-. now split.
Qed.

Lemma main_loop_keeps passes : forall s out s',
  main_loop passes s = Done (out, s') ->
  reachable s -> Forall named (students_ s) ->
  reachable s' /\ Forall named (students_ s').
Proof.
  induction passes as [|[[option|] inp] passes IH]; intros s out s' Hloop Hr Hall;
    cbn [main_loop] in Hloop.
  - injection Hloop as <- <-. now split.
  - destruct (option =? 0)%Z; [injection Hloop as <- <-; now split|].
    destruct (main_switch option inp s) as [[out1 s1]|f] eqn:Hsw; [|discriminate].
    destruct (main_switch_keeps _ _ _ _ _ Hsw Hr Hall) as [Hr1 Hall1].
    destruct (main_loop passes s1) as [[out2 s2]|f] eqn:Hrest; [|discriminate].
    injection Hloop as <- <-. eapply IH; eauto.
  - destruct (main_loop passes s) as [[out2 s2]|f] eqn:Hrest; [|discriminate].
    injection Hloop as <- <-. eapply IH; eauto.
Qed.

(** X14. Whatever the user types, the program keeps its store well named:
    every state [main] reaches is a reachable state of the manager, and
    every student in it has a name and a group that are not empty. *)
Theorem main_keeps_students_named (seed : Rng) roster passes out s :
  main seed roster passes = Done (out, s) ->
  reachable s /\
  Forall (fun st => is_empty (name st) = false /\ is_empty (group st) = false)
         (students_ s).
Proof.
  unfold main. intros Hmain.
  assert (Hr0 : reachable (snd (importFromFile roster (init seed)))).
  { exists seed, [ImportFromFile roster]. reflexivity. }
  assert (Hn0 : Forall named (students_ (snd (importFromFile roster (init seed))))).
  { apply importFromFile_named. constructor. }
  destruct (importFromFile roster (init seed)) as [loaded s0]. simpl in Hr0, Hn0.
  destruct (main_loop passes s0) as [[out1 s1]|f] eqn:Hloop; [|discriminate].
  injection Hmain as <- <-.
  exact (main_loop_keeps _ _ _ _ Hloop Hr0 Hn0).
Qed.

(** ** Draws and the history *)

Lemma subscript_history h g s :
  subscript g (with_history h s) = with_history h (subscript g s).
Proof. unfold subscript. simpl. now destruct (groupPools_ s !! g). Qed.

Lemma refillGroupPool_history h g s :
  refillGroupPool g (with_history h s) = with_history h (refillGroupPool g s).
Proof.
  unfold refillGroupPool. simpl.
  destruct (is_nil (group_indices g 0 (students_ s))); [reflexivity|].
  now destruct (shuffle (group_indices g 0 (students_ s)) (rng_ s)).
Qed.

Lemma refillGlobalPool_history h s :
  refillGlobalPool (with_history h s) = with_history h (refillGlobalPool s).
Proof.
  unfold refillGlobalPool. simpl.
  now destruct (shuffle (seq 0 (length (students_ s))) (rng_ s)).
Qed.

Lemma deref_history h r s : deref r (with_history h s) = deref r s.
Proof. now destruct r. Qed.

Lemma draw_history h now r s :
  draw now r (with_history h s) =
    match draw now r s with
    | Done (x, s') =>
        Done (x, with_history (h ++ skipn (length (history_ s)) (history_ s')) s')
    | Undefined f => Undefined f
    end.
Proof.
  unfold draw. rewrite deref_history.
  destruct (is_nil (deref r s)).
  - now rewrite skipn_all, app_nil_r.
  - unfold consumeIndex. rewrite deref_history.
    destruct (deref r s) as [|idx rest]; [reflexivity|].
    assert (Hst : students_ (assign r rest (with_history h s)) =
                  students_ (assign r rest s)) by now destruct r.
    rewrite Hst. destruct (students_ (assign r rest s) !! idx) as [st|]; [|reflexivity].
    destruct (callCount st <? INT_MAX)%Z; [|reflexivity].
    assert (Hh : history_ (assign r rest s) = history_ s) by now destruct r.
    unfold with_history. cbn [history_ students_ groupPools_ globalPool_ rng_].
    rewrite Hh, skipn_app, skipn_all, Nat.sub_diag. simpl.
    destruct r; reflexivity.
Qed.

Lemma pickRandom_appends now grp s x s' :
  pickRandom now grp s = Done (x, s') ->
  history_ s' = history_ s ++ record_of now x.
Proof.
  intros Hp. destruct (pickRandom_effect _ _ _ _ _ Hp)
    as [(-> & _ & ->)|(idx & st0 & _ & -> & _ & ->)]; simpl;
    [now rewrite app_nil_r|reflexivity].
Qed.

(** X15. Draws do not read the history. With any other history in place of
    the current one, in particular after [clearHistory], a draw returns the
    same student (or fails the same way), leaves the same students, pools
    and generator, and appends the same record to the history it finds. *)
Theorem draws_ignore_history h now grp s :
  pickRandom now grp (with_history h s) =
    match pickRandom now grp s with
    | Done (x, s') => Done (x, with_history (h ++ record_of now x) s')
    | Undefined f => Undefined f
    end /\
  clearHistory s = with_history [] s.
Proof.
  split; [|reflexivity].
  assert (Hgen : pickRandom now grp (with_history h s) =
    match pickRandom now grp s with
    | Done (x, s') =>
        Done (x, with_history (h ++ skipn (length (history_ s)) (history_ s')) s')
    | Undefined f => Undefined f
    end).
  { unfold pickRandom. cbn [with_history students_ globalPool_].
    destruct (is_nil (students_ s)).
    { now rewrite skipn_all, app_nil_r. }
    destruct grp as [g|].
    - rewrite subscript_history, deref_history.
      destruct (is_nil (deref (GroupPool g) (subscript g s))).
      + rewrite refillGroupPool_history, subscript_history, draw_history.
        destruct (refillGroupPool_effect g (subscript g s)) as (_ & _ & Hh & _).
        destruct (subscript_effect g (refillGroupPool g (subscript g s)))
          as (_ & Hh2 & _).
        destruct (subscript_effect g s) as (_ & Hh3 & _).
        now rewrite Hh2, Hh, Hh3.
      + rewrite subscript_history, draw_history.
        destruct (subscript_effect g (subscript g s)) as (_ & Hh2 & _).
        destruct (subscript_effect g s) as (_ & Hh3 & _).
        now rewrite Hh2, Hh3.
    - destruct (is_nil (globalPool_ s)).
      + rewrite refillGlobalPool_history, draw_history.
        destruct (refillGlobalPool_effect s) as (_ & _ & Hh & _). now rewrite Hh.
      + apply draw_history. }
  rewrite Hgen. destruct (pickRandom now grp s) as [[x s']|f] eqn:Hp; [|reflexivity].
  rewrite (pickRandom_appends _ _ _ _ _ Hp), skipn_app, skipn_all, Nat.sub_diag.
  reflexivity.
Qed.

Lemma pool_ref_eq_dec (r r' : pool_ref) : r = r' \/ r <> r'.
Proof.
  destruct r as [|g], r' as [|g']; auto; try (right; discriminate).
  destruct (string_dec g g') as [->|Hne]; [now left|right; congruence].
Qed.

(** X16. A draw that finds nobody changes nothing a client can see: the
    students, the history, the generator and every pool are as before (a
    group asked for the first time only gets an empty pool of its own). *)
Theorem draw_that_finds_nobody now grp s s' :
  reachable s ->
  pickRandom now grp s = Done (None, s') ->
  students_ s' = students_ s /\ history_ s' = history_ s /\ rng_ s' = rng_ s /\
  (forall r, deref r s' = deref r s).
Proof.
  intros Hr Hp. destruct (reachable_scoped s Hr) as [Hok Hsc].
  destruct (students_ s) as [|st1 l] eqn:Hst.
  { unfold pickRandom in Hp. rewrite Hst in Hp. simpl in Hp. injection Hp as <-.
    now rewrite Hst. }
  assert (Hne : students_ s <> []) by (rewrite Hst; discriminate).
  rewrite <- Hst. clear Hst.
  destruct (pickRandom_effect _ _ _ _ _ Hp) as [(_ & Hs & Hh)|(idx & st0 & _ & Hx & _)];
    [|discriminate].
  split; [exact Hs|]. split; [exact Hh|].
  pose proof (pickRandom_same_scope _ _ _ _ _ Hok Hp) as Hfront.
  destruct (deref (scope_ref grp) s) as [|idx rest] eqn:Hd.
  2: { destruct Hfront as (st & Hx & _). discriminate. }
  destruct Hfront as [[_ Hd']|(idx & rest & st & _ & Hx & _)]; [|discriminate].
  split.
  - rewrite pickRandom_unfold in Hp by exact Hne.
    assert (Hrng : rng_ (prepared grp s) = rng_ s).
    { destruct grp as [g|]; cbn [prepared scope_ref] in *.
      - destruct (subscript_effect g s) as (Hs1 & _ & _ & Hr1 & Hd1).
        rewrite (Hd1 (GroupPool g)), Hd. cbn [is_nil].
        assert (Hm : group_indices g 0 (students_ s) = []).
        { destruct (group_indices g 0 (students_ s)) as [|j p] eqn:E; [reflexivity|].
          exfalso.
          destruct (prepared_effect (Some g) s) as (_ & _ & _ & _ & Hperm).
          specialize (Hperm Hd). cbn [members] in Hperm. rewrite E in Hperm.
          apply draw_effect in Hp.
          destruct Hp as [(_ & _ & Hq)|(i & q & st & _ & _ & Hx & _)]; [|discriminate].
          cbn [prepared scope_ref] in Hperm. rewrite Hq in Hperm.
          apply Permutation_nil in Hperm. discriminate. }
        destruct (subscript_effect g (refillGroupPool g (subscript g s)))
          as (_ & _ & _ & Hr2 & _).
        rewrite Hr2. unfold refillGroupPool. rewrite Hs1, Hm. simpl. exact Hr1.
      - simpl in Hd. rewrite Hd. cbn [is_nil].
        exfalso. apply draw_effect in Hp.
        destruct Hp as [(_ & _ & Hq)|(i & q & st & _ & _ & Hx & _)]; [|discriminate].
        destruct (refillGlobalPool_effect s) as (_ & _ & _ & Hperm).
        rewrite Hd in Hq. cbn [is_nil deref] in Hq. rewrite Hq in Hperm.
        apply Permutation_nil in Hperm.
        destruct (students_ s); [contradiction|discriminate]. }
    apply draw_effect in Hp.
    destruct Hp as [(_ & -> & _)|(i & q & st & _ & _ & Hx & _)]; [|discriminate].
    exact Hrng.
  - intros r. destruct (pool_ref_eq_dec r (scope_ref grp)) as [->|Hne'].
    + now rewrite Hd', Hd.
    + eapply pickRandom_frame; eauto.
Qed.

End Further.

(** * Worked examples

    The theorems above at concrete stores, with the scripted generator, and
    the inputs at which three sentences of the specification fail. *)

Lemma abc_roster_reachable tape : reachable (abc_roster tape).
Proof. exists tape, [ImportFromFile abc_file]. reflexivity. Qed.

Lemma state_after_reachable ops tape :
  (exists s, run ops (init tape) = Done s) -> reachable (state_after ops tape).
Proof.
  intros [s Hs]. exists tape, ops. unfold state_after. now rewrite Hs.
Qed.

(** C1 fails once the history is cleared: one student has been called once,
    and the history is empty. *)
Lemma cleared_history_counterexample :
  exists s,
    run [ImportFromFile abc_file; PickRandom 1 None; ClearHistory] (init []) = Done s /\
    total_callCount (students_ s) = 1%Z /\
    length (history_ s) = 0.
Proof. eexists. split; [vm_compute; reflexivity|]. split; reflexivity. Qed.

(** The counters and the history after a run of six operations without
    [clearHistory]. *)
Lemma counters_match_history_witness :
  run busy_ops (init [1; 2; 0; 1; 1]) = Done (state_after busy_ops [1; 2; 0; 1; 1]) /\
  Z.le (Z.of_nat (length (history_ (state_after busy_ops [1; 2; 0; 1; 1]))))
       (total_callCount (students_ (state_after busy_ops [1; 2; 0; 1; 1]))) /\
  total_callCount (students_ (state_after busy_ops [1; 2; 0; 1; 1])) =
    Z.of_nat (length (history_ (state_after busy_ops [1; 2; 0; 1; 1]))).
Proof.
  assert (Hrun : run busy_ops (init [1; 2; 0; 1; 1]) =
                 Done (state_after busy_ops [1; 2; 0; 1; 1]))
    by (vm_compute; reflexivity).
  split; [exact Hrun|].
  destruct (counters_match_history _ _ _ Hrun) as [Hle Heq].
  split; [exact Hle|]. apply Heq.
  repeat constructor; discriminate.
Defined.

(** C2 fails for a sequence that starts in the middle of a cycle: with
    Alice's handle alone left in the global pool, two global draws return
    Alice twice, the second from a fresh permutation, and neither Bob nor
    Carol in between. *)
Lemma mid_cycle_counterexample :
  reachable mid_cycle /\
  globalPool_ mid_cycle = [0] /\
  scope_names None (students_ mid_cycle) = ["Alice"; "Bob"; "Carol"] /\
  forallb keeps_cycle [PickRandom 3 None; PickRandom 4 None] = true /\
  returned_by None (returns_of [PickRandom 3 None; PickRandom 4 None] mid_cycle) =
    ["Alice"; "Alice"] /\
  ~ no_repeat_until_all
      (scope_names None (students_ mid_cycle))
      (returned_by None (returns_of [PickRandom 3 None; PickRandom 4 None] mid_cycle)).
Proof.
  split; [|split; [|split; [|split; [|split]]]]; try reflexivity.
  - apply state_after_reachable. eexists. vm_compute. reflexivity.
  - intros Hno.
    assert (Hin : In "Bob" ["Alice"]).
    { apply (Hno ["Alice"] "Alice" []); [reflexivity|now left|].
      right. now left. }
    destruct Hin as [Heq|[]]. discriminate.
Qed.

(** Draws on group A1 interleaved with draws on other scopes and a
    [clearHistory]: Alice, Bob, then Alice again. *)
Lemma no_repeat_before_exhaustion_witness :
  no_repeat_until_all
    (scope_names (Some "A1") (students_ (abc_roster [1; 0; 2; 1; 0; 1; 0])))
    (returned_by (Some "A1") (returns_of interleaved_ops (abc_roster [1; 0; 2; 1; 0; 1; 0]))) /\
  Permutation
    (firstn 2 (returned_by (Some "A1")
                 (returns_of interleaved_ops (abc_roster [1; 0; 2; 1; 0; 1; 0]))))
    ["Alice"; "Bob"].
Proof.
  destruct (no_repeat_before_exhaustion
              (abc_roster [1; 0; 2; 1; 0; 1; 0]) (Some "A1") interleaved_ops
              (returns_of interleaved_ops (abc_roster [1; 0; 2; 1; 0; 1; 0]))
              (final_of interleaved_ops (abc_roster [1; 0; 2; 1; 0; 1; 0])))
    as [Hno Hall].
  - apply abc_roster_reachable.
  - reflexivity.
  - reflexivity.
  - vm_compute. reflexivity.
  - split; [exact Hno|]. apply Hall. vm_compute. lia.
Defined.

(** The first draw on group A1 of a freshly imported store. *)
Lemma replenish_installs_membership_witness :
  exists st s',
    pickRandom 7 (Some "A1") (abc_roster [1; 0]) = Done (Some st, s') /\
    exists idx st0,
      students_ (abc_roster [1; 0]) !! idx = Some st0 /\ st = bump st0 /\
      Permutation (idx :: deref (GroupPool "A1") s')
                  (members (Some "A1") (students_ (abc_roster [1; 0]))).
Proof.
  eexists. eexists. split; [vm_compute; reflexivity|].
  apply (proj2 (proj2 (proj2 (replenish_installs_membership (abc_roster [1; 0]))))
           7%Z (Some "A1")).
  - reflexivity.
  - vm_compute. reflexivity.
Defined.

(** Adding Dave in the middle of a cycle empties the global pool, and the
    next draw on Dave's group refills its pool from Carol and Dave: one of
    the two is returned, and Dave's handle is the one drawn or waits in the
    pool. After an import of Eve the next global draw does the same for
    Eve's handle. *)
Lemma membership_change_clears_pools_witness :
  globalPool_ mid_cycle = [0] /\
  (globalPool_ (snd (addStudent "Dave" "A2" true mid_cycle)) = [] /\
   groupPools_ (snd (addStudent "Dave" "A2" true mid_cycle)) = ∅ /\
   students_ (snd (addStudent "Dave" "A2" true mid_cycle)) =
     students_ mid_cycle ++ [mkStudent "Dave" "A2" 0] /\
   In (length (students_ mid_cycle))
      (members None (students_ mid_cycle ++ [mkStudent "Dave" "A2" 0])) /\
   In (length (students_ mid_cycle))
      (members (Some "A2") (students_ mid_cycle ++ [mkStudent "Dave" "A2" 0]))) /\
  (exists idx st0 s2,
     pickRandom 9 (Some "A2") (snd (addStudent "Dave" "A2" true mid_cycle)) =
       Done (Some (bump st0), s2) /\
     (students_ mid_cycle ++ [mkStudent "Dave" "A2" 0]) !! idx = Some st0 /\
     in_scope (Some "A2") st0 /\
     Permutation (idx :: deref (scope_ref (Some "A2")) s2)
                 (members (Some "A2") (students_ mid_cycle ++ [mkStudent "Dave" "A2" 0])) /\
     (idx = length (students_ mid_cycle) \/
      In (length (students_ mid_cycle)) (deref (scope_ref (Some "A2")) s2))) /\
  (exists idx st0 s2,
     pickRandom 9 None (snd (importFromFile (Some ["Eve,A2"]) mid_cycle)) =
       Done (Some (bump st0), s2) /\
     students_ (snd (importFromFile (Some ["Eve,A2"]) mid_cycle)) !! idx = Some st0 /\
     in_scope None st0 /\
     Permutation (idx :: deref (scope_ref None) s2)
                 (members None (students_ (snd (importFromFile (Some ["Eve,A2"]) mid_cycle)))) /\
     (idx = 3 \/ In 3 (deref (scope_ref None) s2))).
Proof.
  assert (Hfresh : ~ In "Dave" (map name (students_ mid_cycle))).
  { vm_compute. intros Hin.
    repeat (destruct Hin as [Hin|Hin]; [discriminate|]). exact Hin. }
  assert (Hsmall : Forall (fun st => (callCount st < INT_MAX)%Z) (students_ mid_cycle)).
  { let l := eval vm_compute in (students_ mid_cycle) in
    change (students_ mid_cycle) with l.
    repeat constructor. }
  destruct (membership_change_clears_pools mid_cycle "Dave" "A2" ["Eve,A2"])
    as (Hinsert & _ & _ & _ & Hafter & Himport).
  split; [reflexivity|]. split; [exact (Hinsert Hfresh)|]. split.
  - apply (Hafter Hfresh Hsmall 9%Z (Some "A2")). reflexivity.
  - apply (Himport Hsmall 9%Z None 3 (mkStudent "Eve" "A2" 0));
      [vm_compute; reflexivity|exact I].
Defined.

(** Bob is refused, Dave is appended. *)
Lemma addStudent_unique_identity_witness :
  (fst (addStudent "Bob" "Z9" true (abc_roster [])) = false /\
   students_ (snd (addStudent "Bob" "Z9" true (abc_roster []))) = students_ (abc_roster [])) /\
  (fst (addStudent "Dave" "A2" true (abc_roster [])) = true /\
   students_ (snd (addStudent "Dave" "A2" true (abc_roster []))) =
     students_ (abc_roster []) ++ [mkStudent "Dave" "A2" 0]).
Proof.
  split.
  - apply (proj1 (addStudent_unique_identity (abc_roster []) "Bob" "Z9" true)).
    vm_compute. tauto.
  - apply (proj2 (addStudent_unique_identity (abc_roster []) "Dave" "A2" true)).
    vm_compute. intros Hin. repeat (destruct Hin as [Hin|Hin]; [discriminate|]). exact Hin.
Defined.

(** The global pool after the six operations of [busy_ops]. *)
Lemma pools_hold_valid_handles_witness :
  globalPool_ (state_after busy_ops [1; 2; 0; 1; 1]) = [1; 2; 3] /\
  NoDup (globalPool_ (state_after busy_ops [1; 2; 0; 1; 1])) /\
  Forall (fun i => i < length (students_ (state_after busy_ops [1; 2; 0; 1; 1])))
         (globalPool_ (state_after busy_ops [1; 2; 0; 1; 1])).
Proof.
  split; [reflexivity|].
  apply (proj1 (pools_hold_valid_handles (state_after busy_ops [1; 2; 0; 1; 1])
                  (state_after_reachable busy_ops [1; 2; 0; 1; 1]
                     (ex_intro _ (state_after busy_ops [1; 2; 0; 1; 1]) eq_refl)))).
Defined.

(** Carol, Bob and Alice are drawn at times 10, 20 and 30. *)
Lemma printHistory_most_recent_first_witness :
  printHistory 2
    (final_of [PickRandom 10 None; PickRandom 20 None; PickRandom 30 None]
              (abc_roster [0; 1; 2])) =
    [RecordLine (mkCallRecord "Alice" "A1" 30); RecordLine (mkCallRecord "Bob" "A1" 20)].
Proof.
  apply (proj2 printHistory_most_recent_first
           (abc_roster [0; 1; 2]) 10%Z 20%Z 30%Z None None None
           (mkStudent "Carol" "A2" 1) (mkStudent "Bob" "A1" 1) (mkStudent "Alice" "A1" 1)
           (final_of [PickRandom 10 None] (abc_roster [0; 1; 2]))
           (final_of [PickRandom 10 None; PickRandom 20 None] (abc_roster [0; 1; 2]))
           (final_of [PickRandom 10 None; PickRandom 20 None; PickRandom 30 None]
                     (abc_roster [0; 1; 2])));
    vm_compute; reflexivity.
Defined.

(** A second Bob in the middle of a cycle: the pool keeps its handle. *)
Lemma addStudent_duplicate_is_noop_witness :
  addStudent "Bob" "Z9" true mid_cycle = (false, mid_cycle).
Proof.
  apply (addStudent_duplicate_is_noop mid_cycle "Bob" "Z9" true).
  vm_compute. tauto.
Defined.

(** C10 fails in two places. A store without the empty identity refuses
    [addStudent "Alice" ""] because it holds Alice. And the menu entry hands
    " Dave " to the store untrimmed, while the bulk loader, part of the core,
    trims it. *)
Lemma validation_counterexample :
  ~ In "" (map name (students_ (abc_roster []))) /\
  fst (addStudent "Alice" "" true (abc_roster [])) = false /\
  students_ (snd (main_add_student " Dave " "A2" (abc_roster []))) =
    students_ (abc_roster []) ++ [mkStudent " Dave " "A2" 0] /\
  students_ (snd (loadFromStream [" Dave , A2 "] (mkImportStats 0 0 0) (abc_roster []))) =
    students_ (abc_roster []) ++ [mkStudent "Dave" "A2" 0].
Proof.
  split; [|split; [|split]]; try reflexivity.
  vm_compute. intros Hin. repeat (destruct Hin as [Hin|Hin]; [discriminate|]). exact Hin.
Qed.

(** The empty identity and the empty group are stored; the menu refuses
    the empty name. *)
Lemma addStudent_stores_verbatim_witness :
  (fst (addStudent "" "A1" true (abc_roster [])) = true /\
   students_ (snd (addStudent "" "A1" true (abc_roster []))) =
     students_ (abc_roster []) ++ [mkStudent "" "A1" 0]) /\
  (fst (addStudent "Dave" "" true (abc_roster [])) = true /\
   students_ (snd (addStudent "Dave" "" true (abc_roster []))) =
     students_ (abc_roster []) ++ [mkStudent "Dave" "" 0]) /\
  main_add_student "" "A1" (abc_roster []) =
    ("Name and group cannot be empty.", abc_roster []).
Proof.
  destruct (addStudent_stores_verbatim (abc_roster []) "Dave" "A1" true)
    as (Hempty & _ & Hmenu & _).
  destruct (addStudent_stores_verbatim (abc_roster []) "Dave" "" true)
    as (_ & Hgroup & _).
  split; [|split].
  - apply Hempty. vm_compute. intros Hin.
    repeat (destruct Hin as [Hin|Hin]; [discriminate|]). exact Hin.
  - apply Hgroup. vm_compute. intros Hin.
    repeat (destruct Hin as [Hin|Hin]; [discriminate|]). exact Hin.
  - apply (proj1 (proj2 (proj2 (addStudent_stores_verbatim (abc_roster []) "" "A1" true)))).
    left. reflexivity.
Defined.

(** ** The further properties at concrete stores *)

(** The three names of the store two draws into a cycle are different. *)
Lemma identities_stay_unique_witness :
  NoDup (map name (students_ mid_cycle)) /\
  forall i j st1 st2,
    students_ mid_cycle !! i = Some st1 -> students_ mid_cycle !! j = Some st2 ->
    name st1 = name st2 -> i = j /\ st1 = st2.
Proof.
  apply (identities_stay_unique mid_cycle).
  apply state_after_reachable. eexists. vm_compute. reflexivity.
Defined.

(** A draw, a new student and a reset leave Alice, Bob and Carol where they
    were, with counters no smaller. *)
Lemma store_only_grows_witness :
  exists s',
    run [PickRandom 3 None; AddStudent "Dave" "A2" true; ResetCycle] mid_cycle = Done s' /\
    extends mid_cycle s' /\
    length (students_ mid_cycle) <= length (students_ s').
Proof.
  eexists. split; [vm_compute; reflexivity|].
  apply (store_only_grows [PickRandom 3 None; AddStudent "Dave" "A2" true; ResetCycle]
                          mid_cycle).
  vm_compute. reflexivity.
Defined.

(** Counters and records student by student after a run of six operations
    without [clearHistory]. *)
Lemma history_counts_per_student_witness :
  (forall r, In r (history_ (state_after busy_ops [1; 2; 0; 1; 1])) ->
     exists st, In st (students_ (state_after busy_ops [1; 2; 0; 1; 1])) /\
                name st = cr_name r /\ group st = cr_group r) /\
  (forall st, In st (students_ (state_after busy_ops [1; 2; 0; 1; 1])) ->
     callCount st =
       Z.of_nat (records_of (name st) (history_ (state_after busy_ops [1; 2; 0; 1; 1])))).
Proof.
  assert (Hrun : run busy_ops (init [1; 2; 0; 1; 1]) =
                 Done (state_after busy_ops [1; 2; 0; 1; 1]))
    by (vm_compute; reflexivity).
  destruct (history_counts_per_student [1; 2; 0; 1; 1] busy_ops _ Hrun)
    as (Hknown & _ & Heq).
  split; [exact Hknown|]. apply Heq.
  repeat constructor; discriminate.
Defined.

(** The third global draw of the cycle returns a member of the store. *)
Lemma draw_returns_member_witness :
  exists x s',
    pickRandom 3 None mid_cycle = Done (x, s') /\
    (x = None <-> members None (students_ mid_cycle) = []) /\
    (forall st, x = Some st ->
       in_scope None st /\
       exists idx st0,
         students_ mid_cycle !! idx = Some st0 /\ in_scope None st0 /\
         st = bump st0 /\ students_ s' !! idx = Some st).
Proof.
  eexists. eexists. split; [vm_compute; reflexivity|].
  apply (draw_returns_member 3 None mid_cycle).
  - apply state_after_reachable. eexists. vm_compute. reflexivity.
  - vm_compute. reflexivity.
Defined.

(** With handle 0 alone in the global pool the draw returns Alice, called
    once, and leaves the pool empty and the generator as it was. *)
Lemma draw_consumes_front_witness :
  exists s',
    pickRandom 3 None mid_cycle = Done (Some (mkStudent "Alice" "A1" 1), s') /\
    deref GlobalPool s' = [] /\ rng_ s' = rng_ mid_cycle /\
    (forall r, r <> GlobalPool -> deref r s' = deref r mid_cycle).
Proof.
  eexists. split; [vm_compute; reflexivity|].
  destruct (draw_consumes_front 3 None mid_cycle (Some (mkStudent "Alice" "A1" 1)) _
              ltac:(apply state_after_reachable; eexists; vm_compute; reflexivity)
              ltac:(vm_compute; reflexivity)) as [Hframe Hfront].
  destruct (Hfront 0 [] ltac:(vm_compute; reflexivity)) as (Hrest & Hrng & _).
  split; [exact Hrest|]. split; [exact Hrng|]. exact Hframe.
Defined.

(** Dave, added in the middle of a cycle without a refresh, is in no pool,
    and the draw that ends the cycle does not return Dave. *)
Lemma insert_without_refresh_waits_witness :
  students_ (snd (addStudent "Dave" "A2" false mid_cycle)) !! 3 =
    Some (mkStudent "Dave" "A2" 0) /\
  (forall r, deref r (snd (addStudent "Dave" "A2" false mid_cycle)) = deref r mid_cycle) /\
  (forall r, ~ In 3 (deref r (snd (addStudent "Dave" "A2" false mid_cycle)))) /\
  (forall st s2,
     pickRandom 3 None (snd (addStudent "Dave" "A2" false mid_cycle)) = Done (Some st, s2) ->
     name st <> "Dave").
Proof.
  destruct (insert_without_refresh_waits mid_cycle "Dave" "A2") as (Hat & Hsame & Hout & Hdraw).
  - apply state_after_reachable. eexists. vm_compute. reflexivity.
  - vm_compute. intros Hin.
    repeat (destruct Hin as [Hin|Hin]; [discriminate|]). exact Hin.
  - split; [exact Hat|]. split; [exact Hsame|]. split; [exact Hout|].
    intros st s2 Hpick. apply (Hdraw 3%Z None st s2); [|exact Hpick].
    vm_compute. discriminate.
Defined.

(** Two draws on group A1 from a fresh import call Alice and Bob once each
    and leave Carol alone. *)
Lemma full_cycle_calls_each_member_once_witness :
  exists tr s',
    run_returns (draws (Some "A1") [1%Z; 2%Z]) (abc_roster [1]) = Done (tr, s') /\
    deref (scope_ref (Some "A1")) s' = [] /\ length tr = 2 /\
    forall idx st, students_ (abc_roster [1]) !! idx = Some st ->
      (in_scope (Some "A1") st -> students_ s' !! idx = Some (bump st)) /\
      (~ in_scope (Some "A1") st -> students_ s' !! idx = Some st).
Proof.
  eexists. eexists. split; [vm_compute; reflexivity|].
  apply (full_cycle_calls_each_member_once (Some "A1") [1%Z; 2%Z] (abc_roster [1])).
  - apply abc_roster_reachable.
  - vm_compute. reflexivity.
  - vm_compute. reflexivity.
  - vm_compute. reflexivity.
Defined.

(** A name without blanks at its ends is returned as it is. *)
Lemma trim_is_idempotent_witness : trim "Bob Ross" = "Bob Ross".
Proof.
  apply (proj2 (proj2 (trim_is_idempotent "Bob Ross"))); reflexivity.
Defined.

(** The rows of [printStats] after a run of six operations, and no other
    arrangement of them is sorted. *)
Lemma printStats_lists_by_count_witness :
  exists rows,
    printStats (state_after busy_ops [1; 2; 0; 1; 1]) = StatsHeader :: map StatsRow rows /\
    Permutation rows (students_ (state_after busy_ops [1; 2; 0; 1; 1])) /\
    StronglySorted stats_le rows /\
    forall rows',
      Permutation rows' (students_ (state_after busy_ops [1; 2; 0; 1; 1])) ->
      StronglySorted stats_le rows' -> rows' = rows.
Proof.
  destruct (printStats_lists_by_count (state_after busy_ops [1; 2; 0; 1; 1]))
    as (_ & Hrows & _).
  destruct Hrows as (rows & Hprint & Hperm & Hsorted & Honly);
    [vm_compute; discriminate|].
  exists rows. split; [exact Hprint|]. split; [exact Hperm|]. split; [exact Hsorted|].
  apply Honly. apply state_after_reachable. eexists. vm_compute. reflexivity.
Defined.

(** The groups of Alice, Bob and Carol: two in A1, one in A2, no other. *)
Lemma listGroups_counts_members_witness :
  exists counts,
    listGroups (abc_roster []) = Done (Groups counts) /\
    counts !! "A1" = Some 2%Z /\ counts !! "A2" = Some 1%Z /\ counts !! "B2" = None.
Proof.
  destruct (listGroups_counts_members (abc_roster [])) as [_ Hsome].
  - vm_compute. discriminate.
  - destruct Hsome as (counts & Hlist & Hcount & _); [vm_compute; discriminate|].
    exists counts. split; [exact Hlist|].
    split; [|split]; rewrite Hcount; reflexivity.
Defined.

(** A session: the default roster is loaded, Dave is added, a nameless
    student is refused, there is a draw, a mistyped option and the exit. *)
Lemma main_keeps_students_named_witness :
  exists out s,
    main [2; 0; 1] abc_file
      [(Some 1%Z, mkConsoleIn "Dave" "A2" 0 0%Z None);
       (Some 1%Z, mkConsoleIn "" "A2" 0 0%Z None);
       (Some 2%Z, mkConsoleIn "" "" 0 7%Z None);
       (None, mkConsoleIn "" "" 0 0%Z None);
       (Some 0%Z, mkConsoleIn "" "" 0 0%Z None)] = Done (out, s) /\
    reachable s /\
    Forall (fun st => is_empty (name st) = false /\ is_empty (group st) = false)
           (students_ s).
Proof.
  eexists. eexists. split; [vm_compute; reflexivity|].
  eapply (main_keeps_students_named [2; 0; 1] abc_file
           [(Some 1%Z, mkConsoleIn "Dave" "A2" 0 0%Z None);
            (Some 1%Z, mkConsoleIn "" "A2" 0 0%Z None);
            (Some 2%Z, mkConsoleIn "" "" 0 7%Z None);
            (None, mkConsoleIn "" "" 0 0%Z None);
            (Some 0%Z, mkConsoleIn "" "" 0 0%Z None)]).
  vm_compute. reflexivity.
Defined.

(** A draw on a group nobody belongs to. *)
Lemma draw_that_finds_nobody_witness :
  exists s',
    pickRandom 1 (Some "Z9") (abc_roster []) = Done (None, s') /\
    students_ s' = students_ (abc_roster []) /\
    history_ s' = history_ (abc_roster []) /\
    rng_ s' = rng_ (abc_roster []) /\
    (forall r, deref r s' = deref r (abc_roster [])).
Proof.
  eexists. split; [vm_compute; reflexivity|].
  apply (draw_that_finds_nobody 1 (Some "Z9") (abc_roster [])).
  - apply abc_roster_reachable.
  - vm_compute. reflexivity.
Defined.
